(** * The resilient inference gateway of ai-solution

    A shallow embedding of the key pools, the retry policy
    ([withProviderRetry]), the fallback chains ([analyzeExamPaper],
    [refineAcademicAnswer], [generateChatTitle]) of
    [src/services/geminiService.ts], of the streaming chat client
    ([ChatService]) of [src/services/chatService.ts] and of the batch
    driver ([startGeneration]) of [src/App.tsx]; and, around them, of the
    single-key helpers, [withRetry] and [generateTechnicalDiagram] of the
    gateway, of [generateTitle] of the chat service and [handleSubmit] of
    the chat view, and of the settings, scan, switch, reorder and history
    handlers of [src/App.tsx]. *)

From Stdlib Require Import List NArith Arith Bool Lia Permutation.
From Stdlib Require String Ascii DecimalString.
Import ListNotations.



(** ** JavaScript strings

    A JavaScript string is a finite sequence of UTF-16 code units.  Code
    units are kept as numbers, so that [trim] can be given its exact
    set of white space and line terminators. *)

Module Js.

Definition char16 := N.
Definition jsstring := list char16.

(** The code units of an ASCII literal of the source text. *)
Definition lit (s : String.string) : jsstring :=
  map Ascii.N_of_ascii (String.list_ascii_of_string s).

Declare Scope js_scope.
Delimit Scope js_scope with js.
String Notation String.string String.string_of_list_byte
  String.list_byte_of_string : js_scope.

Arguments lit s%_js.

Definition char_eqb (a b : char16) : bool := N.eqb a b.

Fixpoint str_eqb (s t : jsstring) : bool :=
  match s, t with
  | [], [] => true
  | a :: s', b :: t' => char_eqb a b && str_eqb s' t'
  | _, _ => false
  end.

(** ECMAScript WhiteSpace and LineTerminator code points, the characters
    that [String.prototype.trim] strips. *)
Definition is_white (c : char16) : bool :=
  ((9 <=? c) && (c <=? 13) ||
   (c =? 32) || (c =? 160) || (c =? 5760) ||
   (8192 <=? c) && (c <=? 8202) ||
   (c =? 8232) || (c =? 8233) || (c =? 8239) || (c =? 8287) ||
   (c =? 12288) || (c =? 65279))%N.

Fixpoint trimStart (s : jsstring) : jsstring :=
  match s with
  | c :: s' => if is_white c then trimStart s' else s
  | [] => []
  end.

Definition trimEnd (s : jsstring) : jsstring := rev (trimStart (rev s)).

Definition trim (s : jsstring) : jsstring := trimEnd (trimStart s).

(** [s.split(sep)] for a separator that matches exactly one code unit (a
    one-character string or a character class): the pieces between the
    separators, in order; a string without separator is its own single
    piece. *)
Fixpoint split (sep : char16 -> bool) (s : jsstring) : list jsstring :=
  match s with
  | [] => [[]]
  | c :: s' =>
      if sep c then [] :: split sep s'
      else match split sep s' with
           | p :: ps => (c :: p) :: ps
           | [] => [[c]]
           end
  end.

(** [s.startsWith(p)] and [s.includes(p)]. *)
Fixpoint startsWith (s p : jsstring) : bool :=
  match p, s with
  | [], _ => true
  | a :: p', b :: s' => char_eqb a b && startsWith s' p'
  | _ :: _, [] => false
  end.

Fixpoint includes (s p : jsstring) : bool :=
  startsWith s p ||
  match s with
  | [] => false
  | _ :: s' => includes s' p
  end.

(** [s.substring(0, n)]. *)
Definition substring0 (n : nat) (s : jsstring) : jsstring := firstn n s.

(** Truthiness of a possibly absent string: [undefined], [null] and the
    empty string are falsy. *)
Definition truthy (o : option jsstring) : bool :=
  match o with
  | Some (_ :: _) => true
  | _ => false
  end.

(** [a || b] on possibly absent strings. *)
Definition or_else (a b : option jsstring) : option jsstring :=
  if truthy a then a else b.

(** [x || undefined]. *)
Definition or_undefined (a : option jsstring) : option jsstring :=
  if truthy a then a else None.

(** [a || d] with a string default. *)
Definition or_default (a : option jsstring) (d : jsstring) : jsstring :=
  match a with
  | Some (c :: s) => c :: s
  | _ => d
  end.

(** [s.replace(/\s/g, '')]. *)
Definition strip_white (s : jsstring) : jsstring :=
  filter (fun c => negb (is_white c)) s.

(** Decimal rendering of a number inside a template literal. *)
Definition of_nat (n : nat) : jsstring :=
  lit (DecimalString.NilZero.string_of_uint (Nat.to_uint n)).

Definition of_N (n : N) : jsstring :=
  lit (DecimalString.NilZero.string_of_uint (N.to_uint n)).

Definition comma : char16 := 44%N.
Definition newline : char16 := 10%N.

End Js.

Import Js.

(** ** Credential parsing *)

Module Keys.

(** The character class of the regular expression [/[,\n]/]. *)
Definition comma_or_newline (c : char16) : bool :=
  char_eqb c comma || char_eqb c newline.

Definition is_comma (c : char16) : bool := char_eqb c comma.

Definition nonempty (k : jsstring) : bool := 0 <? length k.

(** [getAllKeys] of geminiService.ts. *)
Definition getAllKeys (keyString : option jsstring) : list jsstring :=
  if negb (truthy keyString) then []
  else match keyString with
       | Some s => filter nonempty (map trim (split comma_or_newline s))
       | None => []
       end.

(** The [openRouterKey] branch of the [ChatService] constructor: the value
    of [this.openRouterKeys] it leaves (the field starts as [[]]). *)
Definition chatOpenRouterKeys (openRouterKey : option jsstring)
  : list jsstring :=
  if truthy openRouterKey then
    match openRouterKey with
    | Some s => filter nonempty (map trim (split is_comma s))
    | None => []
    end
  else [].

(** What both parsers do after splitting. *)
Definition entries (pieces : list jsstring) : list jsstring :=
  filter nonempty (map trim pieces).

(** The configuration value of the specification, [a, b,\nc]. *)
Definition sample : jsstring := lit "a, b," ++ [newline] ++ lit "c".

(** Two keys on two lines. *)
Definition two_lines : jsstring := lit "a" ++ [newline] ++ lit "b".

End Keys.

(** ** Effects

    Gateway code runs in a monad of state, exceptions and emitted events:
    a computation takes the state, ends in a value or a thrown value,
    and leaves the events it emitted, in order. *)

Module Eff.

(** An error object, with the properties the code reads or writes:
    [message], [status] (set by HTTP client libraries) and [validKey]
    (written by [ChatService.makeRequest]). *)
Record Error := mkError {
  message : jsstring;
  status : option N;
  validKey : option bool
}.

(** [new Error(msg)]. *)
Definition new_Error (msg : jsstring) : Error := mkError msg None None.

(** What a [catch] clause receives: an error object, or [undefined]
    ([None]), which is what [throw lastError] throws when [lastError] was
    never assigned. *)
Definition thrown := option Error.

Inductive result (A : Type) :=
| Ok (a : A)
| Throw (e : thrown).

Arguments Ok {A} a.
Arguments Throw {A} e.

Definition M (St Ev A : Type) : Type := St -> result A * St * list Ev.

Section Ops.
Variables St Ev : Type.

Definition ret {A} (a : A) : M St Ev A := fun s => (Ok a, s, []).

Definition throw {A} (e : thrown) : M St Ev A := fun s => (Throw e, s, []).

Definition bind {A C} (m : M St Ev A) (f : A -> M St Ev C) : M St Ev C :=
  fun s =>
    match m s with
    | (Ok a, s1, t1) => let '(r, s2, t2) := f a s1 in (r, s2, t1 ++ t2)
    | (Throw e, s1, t1) => (Throw e, s1, t1)
    end.

(** [try { m } catch (e) { h e }]. *)
Definition try_catch {A} (m : M St Ev A) (h : thrown -> M St Ev A)
  : M St Ev A :=
  fun s =>
    match m s with
    | (Ok a, s1, t1) => (Ok a, s1, t1)
    | (Throw e, s1, t1) => let '(r, s2, t2) := h e s1 in (r, s2, t1 ++ t2)
    end.

Definition emit (ev : Ev) : M St Ev unit := fun s => (Ok tt, s, [ev]).

Definition get : M St Ev St := fun s => (Ok s, s, []).

Definition put (s' : St) : M St Ev unit := fun _ => (Ok tt, s', []).

(** A pure step that may throw an error object. *)
Definition pure_or_throw {A} (x : Error + A) : M St Ev A :=
  match x with
  | inl e => throw (Some e)
  | inr a => ret a
  end.

End Ops.

Arguments ret {St Ev A} a.
Arguments throw {St Ev A} e.
Arguments bind {St Ev A C} m f.
Arguments try_catch {St Ev A} m h.
Arguments emit {St Ev} ev.
Arguments get {St Ev}.
Arguments put {St Ev} s'.
Arguments pure_or_throw {St Ev A} x.

(** The value, the final state and the events of a run. *)
Definition value {A St Ev} (o : result A * St * list Ev) : result A :=
  fst (fst o).
Definition final {A St Ev} (o : result A * St * list Ev) : St :=
  snd (fst o).
Definition events {A St Ev} (o : result A * St * list Ev) : list Ev :=
  snd o.

End Eff.

Import Eff.

Declare Scope eff_scope.
Delimit Scope eff_scope with eff.
Notation "x <- m ;; k" := (bind m (fun x => k))
  (at level 61, m at next level, right associativity) : eff_scope.
Notation "m ;;; k" := (bind m (fun _ => k))
  (at level 61, right associativity) : eff_scope.

(** ** The gateway of geminiService.ts *)

Module Gateway.

Import Keys.

Inductive ModelProvider := gemini | openrouter.

Definition provider_name (p : ModelProvider) : jsstring :=
  match p with
  | gemini => lit "gemini"
  | openrouter => lit "openrouter"
  end.

(** *** Configuration origins *)

Record Env := mkEnv {
  has_window : bool;                       (* typeof window !== 'undefined' *)
  local_gemini : option jsstring;          (* localStorage gemini_api_key_local_v3 *)
  local_openrouter : option jsstring;      (* localStorage openrouter_api_key_local_v3 *)
  local_groq : option jsstring;            (* localStorage groq_api_key_local_v3 *)
  vite_gemini : option jsstring;           (* import.meta.env.VITE_GEMINI_API_KEY *)
  vite_openrouter : option jsstring;       (* import.meta.env.VITE_OPENROUTER_API_KEY *)
  vite_groq : option jsstring;             (* import.meta.env.VITE_GROQ_API_KEY *)
  has_process : bool;                      (* typeof process !== 'undefined' *)
  node_API_KEY : option jsstring;          (* process.env?.API_KEY *)
  node_GEMINI_API_KEY : option jsstring    (* process.env?.GEMINI_API_KEY *)
}.

(** *** Data exchanged with the application *)

Record ExamQuestion := mkQuestion {
  q_id : jsstring;
  q_label : jsstring;
  q_text : jsstring;
  q_marks : N;
  q_suggestedAnswer : jsstring;
  q_diagramRequired : bool;
  q_diagramDescription : option jsstring;
  q_enabled : bool;
  q_isJustified : option bool
}.

Record ExamAnalysis := mkAnalysis {
  examTitle : jsstring;
  totalMarks : N;
  questions : list ExamQuestion
}.

Record File := mkFile { file_data : jsstring; file_mimeType : jsstring }.

Record ChatTurn := mkTurn { role : jsstring; content : jsstring }.

(** *** Requests sent to the providers *)

(** The argument of [ai.models.generateContent], for the client built
    from [apiKey]. *)
Record GeminiReq := mkGeminiReq {
  g_model : jsstring;
  g_inline : list (jsstring * option jsstring);   (* mimeType, data *)
  g_text : jsstring;
  g_json : bool;                (* config.responseMimeType *)
  g_thinking_tools : bool       (* thinkingConfig HIGH + googleSearch *)
}.

Inductive Endpoint := GroqChat | OpenRouterChat.

(** A [fetch] POST to a chat/completions endpoint. *)
Record HttpReq := mkHttpReq {
  endpoint : Endpoint;
  bearer : jsstring;
  x_title : option jsstring;
  h_model : jsstring;
  h_system : option jsstring;
  h_text : jsstring;
  h_images : list jsstring;
  h_json_mode : bool
}.

Record HttpResp := mkHttpResp {
  ok : bool;
  resp_status : N;
  body : jsstring
}.

(** *** What a run leaves behind *)

#[warnings="-register-all"] Inductive Event :=
| EvAttempt (p : ModelProvider) (apiKey : jsstring) (inner : list Event)
    (failure : option thrown)
    (* withProviderRetry called fn(apiKey), which emitted [inner] and
       settled: [failure] is what it threw, if it did *)
| EvDelay (ms : nat)
| EvGemini (apiKey : jsstring) (req : GeminiReq)
| EvFetch (req : HttpReq)
| EvConsole (msg : jsstring).

(** The events of a run with the attempts opened up: delays, network
    calls and console messages in the order they happened. *)
Fixpoint io (ev : Event) : list Event :=
  match ev with
  | EvAttempt _ _ inner _ => flat_map io inner
  | _ => [ev]
  end.

Definition io_all (evs : list Event) : list Event := flat_map io evs.

(** *** The world outside the gateway

    The configuration, the random source, the two network clients and
    the JSON decoder, over a state [B] that only they can read and
    change.  The configuration is fixed for the length of a call. *)
Class Runtime := {
  B : Type;
  env : Env;
  (* Math.random(), as the number Math.floor(Math.random() * n) is taken from *)
  Math_random : B -> nat * B;
  generateContent : jsstring -> GeminiReq -> B -> (Error + option jsstring) * B;
  fetch : HttpReq -> B -> (Error + HttpResp) * B;
  Json : Type;
  response_json : jsstring -> Error + Json;
  (* data.choices[0]?.message?.content *)
  choices0_content_strict : Json -> Error + option jsstring;
  (* data?.choices?.[0]?.message?.content *)
  choices0_content : Json -> option jsstring;
  (* JSON.parse(text) as ExamAnalysis *)
  JSON_parse : jsstring -> Error + ExamAnalysis;
  (* the prompt templates *)
  analysisPrompt : jsstring;
  buildAnswerPrompt : ExamQuestion -> jsstring;
  titlePrompt : jsstring -> jsstring
}.

Local Open Scope eff_scope.

(** How the retry loop of one key ends: with a [return], or by leaving
    the loop with the current [lastError]. *)
Inductive KeyExit (T : Type) :=
| Returned (v : T)
| NextKey (lastError : thrown).

Arguments Returned {T} v.
Arguments NextKey {T} lastError.

Section Code.
Context `{Runtime}.

Definition M (A : Type) : Type := Eff.M B Event A.

(** A call of one of the outside operations, which reject with an error
    object. *)
Definition call {A} (op : B -> (Error + A) * B) : M A :=
  fun b =>
    match op b with
    | (inl e, b1) => (Throw (Some e), b1, [])
    | (inr a, b1) => (Ok a, b1, [])
    end.

(** [console.log], [console.warn], [console.error] with their message. *)
Definition console (msg : jsstring) : M unit := emit (EvConsole msg).

(** [delay(ms)]. *)
Definition delay (ms : nat) : M unit := emit (EvDelay ms).

(** [localStorage.getItem(k) || undefined], guarded by the window test. *)
Definition from_window (item : option jsstring) : option jsstring :=
  if has_window env then or_undefined item else None.

Definition getGeminiKeys : list jsstring :=
  let keyString := from_window (local_gemini env) in
  let keyString :=
    if negb (truthy keyString) then
      let viteKey := vite_gemini env in
      let nodeKey :=
        if has_process env
        then or_else (node_API_KEY env) (node_GEMINI_API_KEY env)
        else None in
      or_else viteKey nodeKey
    else keyString in
  getAllKeys keyString.

Definition getOpenRouterKeys : list jsstring :=
  let keyString := from_window (local_openrouter env) in
  let keyString :=
    if negb (truthy keyString) then vite_openrouter env else keyString in
  getAllKeys keyString.

Definition getGroqApiKey : option jsstring :=
  let key := from_window (local_groq env) in
  if truthy key then key else vite_groq env.

(** [Math.floor(Math.random() * n)]. *)
Definition random_below (n : nat) : M nat :=
  fun b => let '(r, b1) := Math_random b in (Ok (r mod n), b1, []).

Fixpoint set_nth {T} (i : nat) (x : T) (a : list T) : list T :=
  match a, i with
  | [], _ => []
  | _ :: t, 0 => x :: t
  | h :: t, S i' => h :: set_nth i' x t
  end.

(** [[a[i], a[j]] = [a[j], a[i]]], for indices inside the array (the
    shuffle never leaves it). *)
Definition swap {T} (i j : nat) (a : list T) : list T :=
  match nth_error a i, nth_error a j with
  | Some ai, Some aj => set_nth j ai (set_nth i aj a)
  | _, _ => a
  end.

(** The loop of [shuffleArray], entered with [i]. *)
Fixpoint shuffle_from {T} (i : nat) (shuffled : list T) : M (list T) :=
  match i with
  | 0 => ret shuffled
  | S i' =>
      j <- random_below (i + 1) ;;
      shuffle_from i' (swap i j shuffled)
  end.

Definition shuffleArray {T} (array : list T) : M (list T) :=
  shuffle_from (length array - 1) array.

(** [error?.message?.includes('429') || error?.status === 429 ||
    error?.message?.includes('RESOURCE_EXHAUSTED')]. *)
Definition isQuotaError (error : thrown) : bool :=
  match error with
  | None => false
  | Some e =>
      includes (message e) (lit "429")
      || match status e with Some s => N.eqb s 429 | None => false end
      || includes (message e) (lit "RESOURCE_EXHAUSTED")
  end.

Section Retry.
Variable T : Type.
Variable provider : ModelProvider.
Variable fn : jsstring -> M T.
Variable maxRetriesPerKey : nat.

(** [try { return await fn(apiKey) } catch (error) ...]: the settled
    call, recorded. *)
Definition attempt (apiKey : jsstring) : M (T + thrown) :=
  fun b =>
    match fn apiKey b with
    | (Ok v, b1, t1) => (Ok (inl v), b1, [EvAttempt provider apiKey t1 None])
    | (Throw e, b1, t1) =>
        (Ok (inr e), b1, [EvAttempt provider apiKey t1 (Some e)])
    end.

(** [for (let i = 0; i < maxRetriesPerKey; i++)] for one key, from
    iteration [i] with [n] iterations left before the bound. *)
Fixpoint retry_key (nkeys : nat) (apiKey : jsstring) (n i : nat)
    (lastError : thrown) : M (KeyExit T) :=
  match n with
  | 0 => ret (NextKey lastError)
  | S n' =>
      r <- attempt apiKey ;;
      match r with
      | inl v => ret (Returned v)
      | inr error =>
          let lastError := error in
          if isQuotaError error && (1 <? nkeys) then ret (NextKey lastError)
          else if isQuotaError error && (i <? maxRetriesPerKey - 1) then
            delay 500 ;;; retry_key nkeys apiKey n' (S i) lastError
          else ret (NextKey lastError)
      end
  end.

(** [for (const apiKey of shuffledKeys)], then [throw lastError]. *)
Fixpoint each_key (nkeys : nat) (keys : list jsstring) (lastError : thrown)
  : M T :=
  match keys with
  | [] => throw lastError
  | apiKey :: rest =>
      x <- retry_key nkeys apiKey maxRetriesPerKey 0 lastError ;;
      match x with
      | Returned v => ret v
      | NextKey lastError' => each_key nkeys rest lastError'
      end
  end.

Definition keysOf (p : ModelProvider) : list jsstring :=
  match p with
  | gemini => getGeminiKeys
  | openrouter => getOpenRouterKeys
  end.

Definition withProviderRetry : M T :=
  let keys := keysOf provider in
  if length keys =? 0 then
    throw (Some (new_Error
      (lit "No API keys available for provider: " ++ provider_name provider)))
  else
    shuffledKeys <- shuffleArray keys ;;
    each_key (length shuffledKeys) shuffledKeys None.

End Retry.

Arguments attempt {T} provider fn apiKey.
Arguments retry_key {T} provider fn maxRetriesPerKey nkeys apiKey n i lastError.
Arguments each_key {T} provider fn maxRetriesPerKey nkeys keys lastError.
Arguments withProviderRetry {T} provider fn maxRetriesPerKey.

(** *** The fallback chains *)

(** [e.message] on a caught value; reading a property of [undefined]
    throws a TypeError. *)
Definition message_of (e : thrown) : M jsstring :=
  match e with
  | Some err => ret (message err)
  | None =>
      throw (Some (new_Error
        (lit "Cannot read properties of undefined (reading 'message')")))
  end.

(** [try { return await m } catch (e) { h e }] followed by more code:
    [Some v] when the function returns [v] from inside the [try], [None]
    when control falls out of the [catch]. *)
Definition layer {A} (m : M A) (h : thrown -> M unit) : M (option A) :=
  try_catch (v <- m ;; ret (Some v)) (fun e => h e ;;; ret None).

(** [file.data.split(',')[1]]. *)
Definition base64_part (f : File) : option jsstring :=
  nth_error (split is_comma (file_data f)) 1.

Definition model_llama4 : jsstring :=
  lit "meta-llama/llama-4-maverick-17b-128e-instruct".
Definition model_llama32 : jsstring := lit "llama-3.2-90b-vision-preview".
Definition model_gemini3 : jsstring := lit "gemini-3-flash-preview".
Definition model_gemini2 : jsstring := lit "gemini-2.0-flash-exp".
Definition model_or_vision : jsstring := lit "google/gemini-flash-1.5".
Definition model_or_default : jsstring := lit "google/gemini-2.0-flash-001".

(** A Gemini SDK call with the client built from [apiKey]. *)
Definition gemini_call (apiKey : jsstring) (req : GeminiReq)
  : M (option jsstring) :=
  emit (EvGemini apiKey req) ;;; call (generateContent apiKey req).

Definition http_call (req : HttpReq) : M HttpResp :=
  emit (EvFetch req) ;;; call (fetch req).

Section Analyze.
Variable files : list File.
Variable modelName : jsstring.

Definition fileParts : list (jsstring * option jsstring) :=
  map (fun file => (file_mimeType file, base64_part file)) files.

(** The files handed to the vision fallbacks:
    [files.map(f => ({ ...f, data: f.data.split(',')[1] }))]. *)
Definition visionFiles : list (jsstring * option jsstring) :=
  map (fun f => (file_mimeType f, base64_part f)) files.

(** The operation of layer 1. *)
Definition scanPrimary (apiKey : jsstring) : M ExamAnalysis :=
  console (lit "Attempting scan with primary model: " ++ modelName) ;;;
  let isGemini3 := includes modelName model_gemini3 in
  response <- gemini_call apiKey
    (mkGeminiReq modelName fileParts analysisPrompt true isGemini3) ;;
  pure_or_throw (JSON_parse (or_default response (lit "{}"))).

(** The operation of layer 2. *)
Definition scanFallback (apiKey : jsstring) : M ExamAnalysis :=
  console (lit "Attempting scan with Layer 2: gemini-2.0-flash-exp") ;;;
  response <- gemini_call apiKey
    (mkGeminiReq model_gemini2 fileParts analysisPrompt true false) ;;
  pure_or_throw (JSON_parse (or_default response (lit "{}"))).

Definition groq_image_url (f : jsstring * option jsstring) : jsstring :=
  let cleanData := strip_white (or_default (snd f) []) in
  lit "data:" ++ fst f ++ lit ";base64," ++ cleanData.

Definition callGroq (apiKey promptText : jsstring)
    (fs : list (jsstring * option jsstring)) (model : jsstring)
  : M ExamAnalysis :=
  response <- http_call
    (mkHttpReq GroqChat apiKey None model None promptText
       (map groq_image_url fs) true) ;;
  if negb (ok response) then
    throw (Some (new_Error
      (lit "Groq Error (" ++ model ++ lit "): " ++ body response)))
  else
    data <- pure_or_throw (response_json (body response)) ;;
    c <- pure_or_throw (choices0_content_strict data) ;;
    pure_or_throw (JSON_parse (or_default c (lit "{}"))).

Definition analyzeWithGroq (fs : list (jsstring * option jsstring))
    (promptText : jsstring) : M ExamAnalysis :=
  let apiKey := getGroqApiKey in
  if negb (truthy apiKey) then
    throw (Some (new_Error (lit "No Groq API key available")))
  else
    let apiKey := or_default apiKey [] in
    try_catch (callGroq apiKey promptText fs model_llama4)
      (fun e =>
         console (lit "Groq Llama 4 failed, falling back to Llama 3.2 Vision...") ;;;
         callGroq apiKey promptText fs model_llama32).

Definition or_image_url (f : jsstring * option jsstring) : jsstring :=
  lit "data:" ++ fst f ++ lit ";base64,"
  ++ match snd f with Some d => d | None => lit "undefined" end.

(** The operation of layer 4. *)
Definition scanOpenRouter (fs : list (jsstring * option jsstring))
    (promptText apiKey : jsstring) : M ExamAnalysis :=
  response <- http_call
    (mkHttpReq OpenRouterChat apiKey (Some (lit "Academic Architect Vision"))
       model_or_vision None promptText (map or_image_url fs) true) ;;
  if negb (ok response) then
    throw (Some (new_Error (lit "OpenRouter Vision failed: " ++ body response)))
  else
    data <- pure_or_throw (response_json (body response)) ;;
    c <- pure_or_throw (choices0_content_strict data) ;;
    pure_or_throw (JSON_parse (or_default c (lit "{}"))).

Definition analyzeWithOpenRouter (fs : list (jsstring * option jsstring))
    (promptText : jsstring) : M ExamAnalysis :=
  withProviderRetry openrouter (scanOpenRouter fs promptText) 1.

Definition layer1 : M (option ExamAnalysis) :=
  layer (withProviderRetry gemini scanPrimary 1)
    (fun e =>
       m <- message_of e ;;
       console (lit "Layer 1 (Gemini 3) failed: " ++ m
                ++ lit ". Trying Layer 2...")).

Definition layer2 : M (option ExamAnalysis) :=
  layer (withProviderRetry gemini scanFallback 1)
    (fun e =>
       m <- message_of e ;;
       console (lit "Layer 2 (Gemini 2.0) failed: " ++ m
                ++ lit ". Trying Layer 3 (Groq)...")).

Definition layer3 : M (option ExamAnalysis) :=
  layer (console (lit "Attempting scan with Layer 3: Groq Vision") ;;;
         analyzeWithGroq visionFiles analysisPrompt)
    (fun e =>
       m <- message_of e ;;
       console (lit "Layer 3 (Groq) failed: " ++ m
                ++ lit ". Trying Layer 4 (OpenRouter)...")).

Definition layer4 : M ExamAnalysis :=
  try_catch
    (console (lit "Attempting scan with Layer 4: OpenRouter") ;;;
     analyzeWithOpenRouter visionFiles analysisPrompt)
    (fun e =>
       console (lit "All layers failed.") ;;;
       m <- message_of e ;;
       throw (Some (new_Error
         (lit "Scan failed after 4 types of fallback. Last error: " ++ m)))).

Definition analyzeExamPaper : M ExamAnalysis :=
  r1 <- layer1 ;;
  match r1 with
  | Some v => ret v
  | None =>
      r2 <- layer2 ;;
      match r2 with
      | Some v => ret v
      | None =>
          r3 <- layer3 ;;
          match r3 with
          | Some v => ret v
          | None => layer4
          end
      end
  end.

End Analyze.

Section Refine.
Variable question : ExamQuestion.
Variable modelName : jsstring.
Variable provider : ModelProvider.

Definition prompt : jsstring := buildAnswerPrompt question.

Definition callGemini (apiKey model : jsstring) : M jsstring :=
  response <- gemini_call apiKey (mkGeminiReq model [] prompt false false) ;;
  ret (or_default response (q_suggestedAnswer question)).

Definition callOpenRouter (apiKey model : jsstring) : M jsstring :=
  response <- http_call
    (mkHttpReq OpenRouterChat apiKey (Some (lit "Academic Architect")) model
       (Some (lit "You are a precise academic answer generator."))
       prompt [] false) ;;
  if negb (ok response) then
    throw (Some (new_Error
      (lit "OpenRouter error: " ++ of_N (resp_status response)
       ++ lit " " ++ body response)))
  else
    data <- pure_or_throw (response_json (body response)) ;;
    ret (or_default (choices0_content data) (q_suggestedAnswer question)).

Definition refineAcademicAnswer : M jsstring :=
  r <- layer
         (let orKeys := getOpenRouterKeys in
          if 0 <? length orKeys then
            let orModel :=
              match provider with
              | openrouter => modelName
              | gemini => model_or_default
              end in
            v <- withProviderRetry openrouter
                   (fun key => callOpenRouter key orModel) 1 ;;
            ret (Some v)
          else ret None)
         (fun error =>
            console (lit "OpenRouter fallback failed, trying Gemini...")) ;;
  match r with
  | Some (Some v) => ret v
  | _ =>
      try_catch
        (let geminiModel :=
           match provider with
           | gemini => modelName
           | openrouter => model_gemini2
           end in
         withProviderRetry gemini (fun key => callGemini key geminiModel) 1)
        (fun error =>
           console (lit "All providers and keys failed") ;;; throw error)
  end.

End Refine.

Definition is_user (m : ChatTurn) : bool := str_eqb (role m) (lit "user").

Definition titleOp (prompt : jsstring) (apiKey : jsstring) : M jsstring :=
  response <- gemini_call apiKey
    (mkGeminiReq model_gemini2 [] prompt false false) ;;
  ret (or_default (option_map trim response) (lit "New Chat")).

Definition generateChatTitle (messages : list ChatTurn)
    (provider : ModelProvider) : M jsstring :=
  if length messages =? 0 then ret (lit "New Chat")
  else
    let firstMsg :=
      or_default
        (option_map (fun m => substring0 100 (content m))
           (find is_user messages))
        (lit "Chat") in
    let prompt := titlePrompt firstMsg in
    try_catch (withProviderRetry provider (titleOp prompt) 1)
      (fun e =>
         console (lit "Title generation failed, using default") ;;;
         ret (lit "New Chat")).

End Code.

Arguments attempt {_ T} provider fn apiKey.
Arguments retry_key {_ T} provider fn maxRetriesPerKey nkeys apiKey n i lastError.
Arguments each_key {_ T} provider fn maxRetriesPerKey nkeys keys lastError.
Arguments withProviderRetry {_ T} provider fn maxRetriesPerKey.

(** *** Reading a run

    What the statements about the retry policy observe in the events of
    a run. *)

Definition key_eq_dec : forall a b : jsstring, {a = b} + {a <> b} :=
  list_eq_dec N.eq_dec.

Definition is_attempt (ev : Event) : bool :=
  match ev with
  | EvAttempt _ _ _ _ => true
  | _ => false
  end.

Definition is_attempt_on (k : jsstring) (ev : Event) : bool :=
  match ev with
  | EvAttempt _ k' _ _ => if key_eq_dec k k' then true else false
  | _ => false
  end.

(** How many times the operation was called on [k]. *)
Definition attempts_on (k : jsstring) (evs : list Event) : nat :=
  length (filter (is_attempt_on k) evs).

Definition is_delay (ev : Event) : bool :=
  match ev with
  | EvDelay _ => true
  | _ => false
  end.

(** The keys the operation was called on, in order. *)
Definition attempted_keys (evs : list Event) : list jsstring :=
  flat_map (fun ev => match ev with
                      | EvAttempt _ k _ _ => [k]
                      | _ => []
                      end) evs.

(** What the chronologically last failed attempt threw; [init] when no
    attempt failed. *)
Definition last_failure (init : thrown) (evs : list Event) : thrown :=
  fold_left (fun acc ev => match ev with
                           | EvAttempt _ _ _ (Some e) => e
                           | _ => acc
                           end) evs init.

(** Attempts and delays taking turns, for [n] attempts: the shape of the
    events when a single key keeps failing with a quota error. *)
Fixpoint alternating (n : nat) : list bool :=
  match n with
  | 0 => []
  | S n' => false :: match n' with
                     | 0 => []
                     | S _ => true :: alternating n'
                     end
  end.

(** An attempt that failed. *)
Definition is_failure (ev : Event) : bool :=
  match ev with
  | EvAttempt _ _ _ (Some _) => true
  | _ => false
  end.

(** The four links of [analyzeExamPaper], each run from the state the one
    before it left. *)
Section Links.
Context `{Runtime}.
Variable files : list File.
Variable modelName : jsstring.
Variable b : B.

Definition link1 : result ExamAnalysis * B * list Event :=
  withProviderRetry gemini (scanPrimary files modelName) 1 b.
Definition link2 : result ExamAnalysis * B * list Event :=
  withProviderRetry gemini (scanFallback files) 1 (final link1).
Definition link3 : result ExamAnalysis * B * list Event :=
  analyzeWithGroq (visionFiles files) analysisPrompt (final link2).
Definition link4 : result ExamAnalysis * B * list Event :=
  analyzeWithOpenRouter (visionFiles files) analysisPrompt (final link3).

End Links.

(** The message of a caught error object. *)
Definition message_or_empty (e : thrown) : jsstring :=
  match e with
  | Some err => message err
  | None => []
  end.

Definition warn1 (e : thrown) : Event :=
  EvConsole (lit "Layer 1 (Gemini 3) failed: " ++ message_or_empty e
             ++ lit ". Trying Layer 2...").
Definition warn2 (e : thrown) : Event :=
  EvConsole (lit "Layer 2 (Gemini 2.0) failed: " ++ message_or_empty e
             ++ lit ". Trying Layer 3 (Groq)...").
Definition warn3 (e : thrown) : Event :=
  EvConsole (lit "Layer 3 (Groq) failed: " ++ message_or_empty e
             ++ lit ". Trying Layer 4 (OpenRouter)...").
Definition log3 : Event :=
  EvConsole (lit "Attempting scan with Layer 3: Groq Vision").
Definition log4 : Event :=
  EvConsole (lit "Attempting scan with Layer 4: OpenRouter").
Definition all_failed : Event := EvConsole (lit "All layers failed.").

(** The terminal error of the scan. *)
Definition scan_failed (last : Error) : Error :=
  new_Error (lit "Scan failed after 4 types of fallback. Last error: "
             ++ message last).

(** A request to the Groq endpoint. *)
Definition is_groq_fetch (ev : Event) : bool :=
  match ev with
  | EvFetch req => match endpoint req with GroqChat => true | _ => false end
  | _ => false
  end.

(** The requests of the scan. *)
Definition primary_request `{Runtime} (files : list File)
    (modelName : jsstring) : GeminiReq :=
  mkGeminiReq modelName (fileParts files) analysisPrompt true
    (includes modelName model_gemini3).
Definition fallback_request `{Runtime} (files : list File) : GeminiReq :=
  mkGeminiReq model_gemini2 (fileParts files) analysisPrompt true false.
Definition groq_request `{Runtime} (files : list File) (k model : jsstring)
  : HttpReq :=
  mkHttpReq GroqChat k None model None analysisPrompt
    (map groq_image_url (visionFiles files)) true.
Definition vision_request `{Runtime} (files : list File) (k : jsstring)
  : HttpReq :=
  mkHttpReq OpenRouterChat k (Some (lit "Academic Architect Vision"))
    model_or_vision None analysisPrompt
    (map or_image_url (visionFiles files)) true.

(** The two runs of the retry policy inside [refineAcademicAnswer]. *)
Section Vendors.
Context `{Runtime}.
Variable question : ExamQuestion.
Variable modelName : jsstring.
Variable provider : ModelProvider.

Definition openrouter_run (b : B) : result jsstring * B * list Event :=
  withProviderRetry openrouter
    (fun key => callOpenRouter question key
                  (match provider with
                   | openrouter => modelName
                   | gemini => model_or_default
                   end)) 1 b.

Definition gemini_run (b : B) : result jsstring * B * list Event :=
  withProviderRetry gemini
    (fun key => callGemini question key
                  (match provider with
                   | gemini => modelName
                   | openrouter => model_gemini2
                   end)) 1 b.

End Vendors.

Definition fallback_warning : Event :=
  EvConsole (lit "OpenRouter fallback failed, trying Gemini...").
Definition providers_failed : Event :=
  EvConsole (lit "All providers and keys failed").

Definition is_gemini_call (ev : Event) : bool :=
  match ev with
  | EvGemini _ _ => true
  | _ => false
  end.

Definition is_fetch (ev : Event) : bool :=
  match ev with
  | EvFetch _ => true
  | _ => false
  end.

(** The credential a request to a chat endpoint carries. *)
Definition bearer_of (ev : Event) : jsstring :=
  match ev with
  | EvFetch req => bearer req
  | _ => []
  end.

(** An event of the retry loop of the key [k]: an attempt on [k] or a
    delay of 500 ms. *)
Definition retry_event (provider : ModelProvider) (k : jsstring)
    (ev : Event) : Prop :=
  ev = EvDelay 500 \/ exists t f, ev = EvAttempt provider k t f.

(** An attempt event of the retry policy: the record of a call of the
    operation on [k] from some state. *)
Definition call_of `{Runtime} {T : Type} (provider : ModelProvider)
    (fn : jsstring -> M T) (k : jsstring) (ev : Event) : Prop :=
  exists b0,
    ev = EvAttempt provider k (events (fn k b0))
           (match value (fn k b0) with Ok _ => None | Throw e => Some e end).

(** A network call. *)
Definition is_network (ev : Event) : bool :=
  match ev with
  | EvGemini _ _ | EvFetch _ => true
  | _ => false
  end.

End Gateway.

(** ** The streaming chat client of chatService.ts *)

Module Chat.

Import Keys.
Local Open Scope eff_scope.

Inductive ChatMode := pro | flash | uncensored.

Definition mode_name (mode : ChatMode) : jsstring :=
  match mode with
  | pro => lit "pro"
  | flash => lit "flash"
  | uncensored => lit "uncensored"
  end.

Definition MODELS (mode : ChatMode) : jsstring :=
  match mode with
  | pro => lit "openai/gpt-oss-120b"
  | flash => lit "moonshotai/kimi-k2-instruct"
  | uncensored =>
      lit "cognitivecomputations/dolphin-mistral-24b-venice-edition:free"
  end.

Definition OPENROUTER_FALLBACKS (model : jsstring) : option jsstring :=
  if str_eqb model (lit "llama3-70b-8192")
  then Some (lit "meta-llama/llama-3.1-70b-instruct")
  else if str_eqb model (lit "llama3-8b-8192")
  then Some (lit "meta-llama/llama-3.1-8b-instruct")
  else None.

Inductive BaseURL := GroqAPI | OpenRouterAPI.

(** An [OpenAI] client object. *)
Record Client := mkClient { baseURL : BaseURL; apiKey : jsstring }.

Record ChatMessage := mkMessage { msg_role : jsstring; msg_content : jsstring }.

(** The fields of a [ChatService] instance. *)
Record ChatService := mkService {
  groqClient : option Client;
  openRouterKeys : list jsstring;
  currentOpenRouterIndex : nat
}.

(** [new ChatService(config)]. *)
Definition new_ChatService (groqKey openRouterKey : option jsstring)
  : ChatService :=
  mkService
    (if truthy groqKey
     then Some (mkClient GroqAPI (trim (or_default groqKey [])))
     else None)
    (chatOpenRouterKeys openRouterKey)
    0.

Inductive ChatEvent :=
| EvCreate (client : Client) (model : jsstring)
    (* client.chat.completions.create was called *)
| EvYield (delta : jsstring)
    (* the generator handed a delta to its consumer *)
| EvLog (error : thrown).
    (* console.error('Chat stream error:', error) *)

(** The completions endpoint behind a client: the [delta.content] of the
    chunks the stream delivers (absent when a chunk carries none), and the
    error that ends it, if any (at [create] when no chunk came first). *)
Class Provider := {
  P : Type;
  create : Client -> jsstring -> list ChatMessage -> ChatMode -> P ->
           (list (option jsstring) * option Error) * P
}.

Section Code.
Context `{Provider}.

(** The state of a chat turn: the service object and the provider. *)
Definition G (A : Type) : Type := Eff.M (ChatService * P) ChatEvent A.

Definition this : G ChatService := s <- get ;; ret (fst s).

Definition set_index (i : nat) : G unit :=
  s <- get ;;
  put (mkService (groqClient (fst s)) (openRouterKeys (fst s)) i, snd s).

Definition getOpenRouterClient : G (option Client) :=
  self <- this ;;
  if length (openRouterKeys self) =? 0 then ret None
  else
    let key :=
      nth (currentOpenRouterIndex self mod length (openRouterKeys self))
          (openRouterKeys self) [] in
    ret (Some (mkClient OpenRouterAPI key)).

(** Only called on a non-empty pool. *)
Definition rotateOpenRouterKey : G unit :=
  self <- this ;;
  set_index ((currentOpenRouterIndex self + 1) mod length (openRouterKeys self)).

(** [error?.status === n]. *)
Definition status_is (error : thrown) (n : N) : bool :=
  match error with
  | Some e => match status e with Some s => N.eqb s n | None => false end
  | None => false
  end.

(** [for await (const chunk of stream)]: a delta is yielded when its
    content is a non-empty string. *)
Fixpoint yield_all (chunks : list (option jsstring)) : G unit :=
  match chunks with
  | [] => ret tt
  | c :: rest =>
      let content := or_default c [] in
      (if 0 <? length content then emit (EvYield content) else ret tt) ;;;
      yield_all rest
  end.

Definition call_create (client : Client) (model : jsstring)
    (messages : list ChatMessage) (mode : ChatMode)
  : G (list (option jsstring) * option Error) :=
  fun s =>
    let '(o, p1) := create client model messages mode (snd s) in
    (Ok o, (fst s, p1), []).

(** The [try] block of [makeRequest]. *)
Definition open_stream (client : Client) (model : jsstring)
    (messages : list ChatMessage) (mode : ChatMode) : G unit :=
  emit (EvCreate client model) ;;;
  stream <- call_create client model messages mode ;;
  yield_all (fst stream) ;;;
  match snd stream with
  | Some e => throw (Some e)
  | None => ret tt
  end.

Definition makeRequest (client : Client) (model : jsstring)
    (messages : list ChatMessage) (mode : ChatMode) : G unit :=
  try_catch (open_stream client model messages mode)
    (fun error =>
       emit (EvLog error) ;;;
       if status_is error 404 then
         throw (Some (new_Error
           (lit "Model '" ++ model
            ++ lit "' not found on provider. Check availability.")))
       else if status_is error 401 then
         match error with
         | Some e => throw (Some (mkError (message e) (status e) (Some false)))
         | None => throw error
         end
       else throw error).

(** [lastError || new Error("All provider keys failed.")]. *)
Definition or_all_failed (lastError : thrown) : thrown :=
  match lastError with
  | Some e => Some e
  | None => Some (new_Error (lit "All provider keys failed."))
  end.

(** The OpenRouter loop of [streamChat], with [n] iterations left:
    [inl tt] for the [return] after a successful stream, [inr lastError]
    when the loop is left. *)
Fixpoint key_loop (modelToUse : jsstring) (messages : list ChatMessage)
    (mode : ChatMode) (n : nat) (lastError : thrown) : G (unit + thrown) :=
  match n with
  | 0 => ret (inr lastError)
  | S n' =>
      client <- getOpenRouterClient ;;
      match client with
      | None => ret (inr lastError)
      | Some c =>
          try_catch
            (makeRequest c modelToUse messages mode ;;; ret (inl tt))
            (fun error =>
               let lastError := error in
               if status_is error 401 then
                 rotateOpenRouterKey ;;;
                 key_loop modelToUse messages mode n' lastError
               else throw error)
      end
  end.

Definition streamChat (messages : list ChatMessage) (mode : ChatMode)
  : G unit :=
  self <- this ;;
  let targetModel := MODELS mode in
  let isGroqMode := match mode with uncensored => false | _ => true end in
  match (if isGroqMode then groqClient self else None) with
  | Some groq => makeRequest groq targetModel messages mode
  | None =>
      if length (openRouterKeys self) =? 0 then
        if isGroqMode && match groqClient self with None => true | _ => false end
        then throw (Some (new_Error
               (lit "Mode '" ++ mode_name mode
                ++ lit "' requires Groq API Key or OpenRouter fallback. Please check your Settings.")))
        else throw (Some (new_Error
               (lit "Mode '" ++ mode_name mode
                ++ lit "' requires OpenRouter API Key. Please check your Settings.")))
      else
        let modelToUse :=
          if isGroqMode
          then match OPENROUTER_FALLBACKS targetModel with
               | Some m => if 0 <? length m then m else targetModel
               | None => targetModel
               end
          else targetModel in
        r <- key_loop modelToUse messages mode
               (length (openRouterKeys self)) None ;;
        match r with
        | inl _ => ret tt
        | inr lastError => throw (or_all_failed lastError)
        end
  end.

End Code.

(** *** Reading a chat turn *)

(** The deltas a stream of chunks hands to the consumer. *)
Definition yields (chunks : list (option jsstring)) : list ChatEvent :=
  flat_map (fun c => let content := or_default c [] in
                     if 0 <? length content then [EvYield content] else [])
           chunks.

Definition not_found (model : jsstring) : Error :=
  new_Error (lit "Model '" ++ model
             ++ lit "' not found on provider. Check availability.").

(** An error object after [error.validKey = false]. *)
Definition invalidated (e : Error) : Error :=
  mkError (message e) (status e) (Some false).

Definition has_status (e : Error) (n : N) : bool :=
  match status e with
  | Some s => N.eqb s n
  | None => false
  end.

(** What [makeRequest] throws when the stream ends with [e]. *)
Definition rethrown (model : jsstring) (e : Error) : Error :=
  if has_status e 404 then not_found model
  else if has_status e 401 then invalidated e
  else e.

(** The clients [create] was called on, in order. *)
Definition created (evs : list ChatEvent) : list Client :=
  flat_map (fun ev => match ev with
                      | EvCreate c _ => [c]
                      | _ => []
                      end) evs.

(** The error of the last stream that failed; [init] if none did. *)
Definition last_logged_from (init : thrown) (evs : list ChatEvent)
  : thrown :=
  fold_left (fun acc ev => match ev with
                           | EvLog e => e
                           | _ => acc
                           end) evs init.

Definition last_logged (evs : list ChatEvent) : thrown :=
  last_logged_from None evs.

(** The client of the key under the cursor. *)
Definition current_client (self : ChatService) : Client :=
  mkClient OpenRouterAPI
    (nth (currentOpenRouterIndex self mod length (openRouterKeys self))
         (openRouterKeys self) []).

(** The OpenRouter clients of [m] turns of the round-robin cursor. *)
Definition rotation (self : ChatService) (m : nat) : list Client :=
  map (fun j =>
         mkClient OpenRouterAPI
           (nth ((currentOpenRouterIndex self + j)
                 mod length (openRouterKeys self))
                (openRouterKeys self) []))
      (seq 0 m).

(** The service after one turn of the cursor. *)
Definition rotated (self : ChatService) : ChatService :=
  mkService (groqClient self) (openRouterKeys self)
    ((currentOpenRouterIndex self + 1) mod length (openRouterKeys self)).

(** The OpenRouter branch of [streamChat] is taken. *)
Definition on_openrouter (self : ChatService) (mode : ChatMode) : Prop :=
  match mode with
  | uncensored => True
  | _ => groqClient self = None
  end.

End Chat.

(** ** The batch driver of App.tsx *)

Module App.

Import Gateway.
Local Open Scope eff_scope.

Inductive AppState :=
| IDLE | ANALYZING | REVIEWING | GENERATING | COMPLETED | ANALYZING_GENERAL.

Inductive PartType := text_part | math_part | diagram_part | code_part.

Record AnswerPart := mkPart {
  part_type : PartType;
  part_content : jsstring;
  imageUrl : option jsstring
}.

Record RefinedQuestion := mkRefined {
  label : jsstring;
  text : jsstring;
  marks : N;
  refinedAnswer : jsstring;
  parts : list AnswerPart;
  isJustified : option bool
}.

(** The React state [startGeneration] reads and sets. *)
Record Model := mkModel {
  analysis : option ExamAnalysis;
  state : AppState;
  error : option jsstring;
  totalGenSteps : nat;
  currentGenStep : nat;
  refinedQuestions : list RefinedQuestion
}.

(** How the promises of a wave settle.  The [processQuestion] calls of
    one wave run interleaved, over network calls whose timing the program
    does not control; what [Promise.all] hands back is fixed by the value
    or the rejection each call settles with.  [settle w batch j q] is
    that outcome for the [j]-th call of the wave [batch], started in
    state [w]; [after_wave w batch] is the state the wave leaves. *)
Class Workers := {
  W : Type;
  settle : W -> list ExamQuestion -> nat -> ExamQuestion ->
           result RefinedQuestion;
  after_wave : W -> list ExamQuestion -> W
}.

Definition dquote : jsstring := [34%N].

Definition failed_answer : jsstring :=
  lit "<div class=" ++ dquote
  ++ lit "p-4 bg-red-50 border border-red-200 rounded-xl text-red-600 font-bold"
  ++ dquote
  ++ lit ">Generation failed for this specific question after all retry attempts.</div>".

Definition failed_part : AnswerPart :=
  mkPart text_part
    (lit "<b style=" ++ dquote ++ lit "color:#ef4444" ++ dquote
     ++ lit ">Generation failed for this question.</b>")
    None.

(** The value the [catch] of the batch callback returns for [q]. *)
Definition placeholder (q : ExamQuestion) : RefinedQuestion :=
  mkRefined (q_label q) (q_text q) (q_marks q) failed_answer [failed_part]
    (q_isJustified q).

Definition setState (s : AppState) (m : Model) : Model :=
  mkModel (analysis m) s (error m) (totalGenSteps m) (currentGenStep m)
    (refinedQuestions m).
Definition setError (e : option jsstring) (m : Model) : Model :=
  mkModel (analysis m) (state m) e (totalGenSteps m) (currentGenStep m)
    (refinedQuestions m).
Definition setTotalGenSteps (n : nat) (m : Model) : Model :=
  mkModel (analysis m) (state m) (error m) n (currentGenStep m)
    (refinedQuestions m).
Definition setCurrentGenStep (f : nat -> nat) (m : Model) : Model :=
  mkModel (analysis m) (state m) (error m) (totalGenSteps m)
    (f (currentGenStep m)) (refinedQuestions m).
Definition setRefinedQuestions (r : list RefinedQuestion) (m : Model)
  : Model :=
  mkModel (analysis m) (state m) (error m) (totalGenSteps m)
    (currentGenStep m) r.

(** [a.slice(i, j)] for [i <= j]. *)
Definition slice {T} (i j : nat) (a : list T) : list T :=
  firstn (j - i) (skipn i a).

Definition batchSize : nat := 3.

Section Code.
Context `{Workers}.

(** The callback mapped over a wave, applied to the settled
    [processQuestion(q)]: the result it resolves with, and whether it
    counted a failure. *)
Definition guarded (q : ExamQuestion) (o : result RefinedQuestion)
  : RefinedQuestion * nat :=
  match o with
  | Ok r => (r, 0)
  | Throw _ => (placeholder q, 1)
  end.

(** [await Promise.all(batch.map(...))] from state [w]: the resolved
    values in the order of [batch]. *)
Fixpoint wave_results (w : W) (batch : list ExamQuestion) (j : nat)
    (rest : list ExamQuestion) : list (RefinedQuestion * nat) :=
  match rest with
  | [] => []
  | q :: rest' =>
      guarded q (settle w batch j q) :: wave_results w batch (S j) rest'
  end.

Definition promise_all (w : W) (batch : list ExamQuestion)
  : list (RefinedQuestion * nat) :=
  wave_results w batch 0 batch.

(** The local variables and the state the loop of [startGeneration]
    carries. *)
Record Loop := mkLoop {
  results : list RefinedQuestion;
  failureCount : nat;
  ui : Model;
  world : W
}.

(** [for (let i = 0; i < enabledQuestions.length; i += batchSize)], from
    [i]; [fuel] bounds the number of iterations. *)
Fixpoint generation_loop (fuel : nat) (enabledQuestions : list ExamQuestion)
    (i : nat) (l : Loop) : Loop :=
  match fuel with
  | 0 => l
  | S fuel' =>
      if i <? length enabledQuestions then
        let batch := slice i (i + batchSize) enabledQuestions in
        let batchResults := promise_all (world l) batch in
        generation_loop fuel' enabledQuestions (i + batchSize)
          (mkLoop
             (results l ++ map fst batchResults)
             (failureCount l + list_sum (map snd batchResults))
             (setCurrentGenStep
                (fun prev => Nat.min (prev + length batch)
                                     (length enabledQuestions))
                (ui l))
             (after_wave (world l) batch))
      else l
  end.

Definition startGeneration (m : Model) (w : W) : Model * W :=
  match analysis m with
  | None => (m, w)
  | Some a =>
      let m := setState GENERATING m in
      let m := setError None m in
      let enabledQuestions := filter q_enabled (questions a) in
      let m := setTotalGenSteps (length enabledQuestions) m in
      let m := setCurrentGenStep (fun _ => 0) m in
      let l := generation_loop (length enabledQuestions) enabledQuestions 0
                 (mkLoop [] 0 m w) in
      let m := setRefinedQuestions (results l) (ui l) in
      let m := setState COMPLETED m in
      let m :=
        if 0 <? failureCount l then
          setError (Some (of_nat (failureCount l)
            ++ lit " question(s) failed to generate, but the rest are available below.")) m
        else m in
      (m, world l)
  end.

End Code.

(** *** Reading a batch *)

Section Waves.
Context `{Workers}.

(** The waves of a batch: the questions three by three. *)
Fixpoint waves (fuel : nat) (qs : list ExamQuestion)
  : list (list ExamQuestion) :=
  match fuel with
  | 0 => []
  | S fuel' =>
      match qs with
      | [] => []
      | _ :: _ => firstn batchSize qs :: waves fuel' (skipn batchSize qs)
      end
  end.

(** The body of the loop of [startGeneration], for one wave. *)
Definition wave_step (n : nat) (batch : list ExamQuestion) (l : Loop) : Loop :=
  mkLoop
    (results l ++ map fst (promise_all (world l) batch))
    (failureCount l + list_sum (map snd (promise_all (world l) batch)))
    (setCurrentGenStep (fun prev => Nat.min (prev + length batch) n) (ui l))
    (after_wave (world l) batch).

(** What the [processQuestion] calls of a wave settle with, in the order
    of the wave. *)
Definition settled_wave (w : W) (batch : list ExamQuestion)
  : list (result RefinedQuestion) :=
  map (fun jq => settle w batch (fst jq) (snd jq))
      (combine (seq 0 (length batch)) batch).

(** The same for the waves of a batch, each wave started in the state
    the one before it left. *)
Fixpoint settled (w : W) (ws : list (list ExamQuestion))
  : list (result RefinedQuestion) :=
  match ws with
  | [] => []
  | batch :: rest => settled_wave w batch ++ settled (after_wave w batch) rest
  end.

End Waves.

(** The result the batch holds for a question, given what its own
    [processQuestion] call settled with. *)
Definition result_for (q : ExamQuestion) (o : result RefinedQuestion)
  : RefinedQuestion :=
  match o with
  | Ok r => r
  | Throw _ => placeholder q
  end.

Definition is_failed (o : result RefinedQuestion) : bool :=
  match o with
  | Ok _ => false
  | Throw _ => true
  end.

(** The message [startGeneration] sets when [n] questions failed. *)
Definition failure_message (n : nat) : option jsstring :=
  if 0 <? n then
    Some (of_nat n
          ++ lit " question(s) failed to generate, but the rest are available below.")
  else None.

End App.

(** ** Worlds to run the code in

    A deterministic world for running the model on concrete inputs: its
    state counts the calls made so far, and the replies of the providers
    are given as functions of the request and of that count. *)

Module Fixture.

Import Gateway.

(** A browser with the three stored key strings and no build-time
    variable. *)
Definition stored (gem opr groq : option jsstring) : Env :=
  mkEnv true gem opr groq None None None false None None.

Definition scripted (e : Env)
    (gem : jsstring -> GeminiReq -> nat -> Error + option jsstring)
    (net : HttpReq -> nat -> Error + HttpResp) : Runtime :=
  {| B := nat;
     env := e;
     Math_random := fun b => (b, S b);
     generateContent := fun k r b => (gem k r b, S b);
     fetch := fun r b => (net r b, S b);
     Json := jsstring;
     response_json := fun s => inr s;
     choices0_content_strict := fun j => inr (Some j);
     choices0_content := fun j => Some j;
     JSON_parse := fun s => inr (mkAnalysis s 0 []);
     analysisPrompt := lit "analyze";
     buildAnswerPrompt := q_text;
     titlePrompt := fun m => m |}.

(** Providers that are never reached. *)
Definition offline (e : Env) : Runtime :=
  scripted e (fun _ _ _ => inl (new_Error (lit "offline")))
             (fun _ _ => inl (new_Error (lit "offline"))).

Definition quota_error : Error :=
  mkError (lit "429 Too Many Requests") (Some 429%N) None.

Definition server_error (n : nat) : Error :=
  mkError (lit "server error " ++ of_nat n) (Some 500%N) None.

(** An operation that fails with a quota error on the keys [bad] holds
    and returns the key it was called with on the others. *)
Definition picky `{Runtime} (bad : jsstring -> bool) (k : jsstring)
  : M jsstring :=
  if bad k then throw (Some quota_error) else ret k.

(** An operation that always fails, each time with a new error: the
    number of the call is taken from the counting world. *)
Definition failing (e : Env) (k : jsstring)
  : @M (offline e) jsstring :=
  fun b => (Throw (Some (server_error b)), S b, []).

(** Providers that answer every request with an error that carries the
    number of the call. *)
Definition down (e : Env) : Runtime :=
  scripted e (fun _ _ n => inl (server_error n))
             (fun _ n => inl (server_error n)).

(** One key for Gemini and for OpenRouter, and two keys in the string
    stored for Groq. *)
Definition three_vendors : Env :=
  stored (Some (lit "a1")) (Some (lit "o1")) (Some (lit "g1,g2")).

(** A chat provider that rejects the keys [bad] holds with status 401 and
    streams [Hel], an empty chunk, [lo] on the others; its state counts
    the streams opened. *)
Definition key_check (bad : jsstring -> bool) : Chat.Provider :=
  {| Chat.P := nat;
     Chat.create := fun c _ _ _ n =>
       if bad (Chat.apiKey c)
       then ([], Some (mkError (lit "401 invalid key " ++ of_nat n)
                         (Some 401%N) None), S n)
       else ([Some (lit "Hel"); None; Some (lit "lo")], None, S n) |}.

Definition three_keys : Chat.ChatService :=
  Chat.new_ChatService None (Some (lit "k1, k2, k3")).

(** Workers that fail on the questions whose id [fails] holds and answer
    the others with their suggested answer; their state counts the
    questions handed to them. *)
Definition graders (fails : jsstring -> bool) : App.Workers :=
  {| App.W := nat;
     App.settle := fun w _ _ q =>
       if fails (q_id q) then Throw (Some (server_error w))
       else Ok (App.mkRefined (q_label q) (q_text q) (q_marks q)
                  (q_suggestedAnswer q) [] (q_isJustified q));
     App.after_wave := fun w batch => w + length batch |}.

Definition exam_question (id : jsstring) (enabled : bool) : ExamQuestion :=
  mkQuestion id (lit "Q" ++ id) (lit "Question " ++ id) 5
    (lit "Answer " ++ id) false None enabled None.

(** Five enabled questions and one that is switched off. *)
Definition six_questions : ExamAnalysis :=
  mkAnalysis (lit "Algebra") 25
    [exam_question (lit "1") true; exam_question (lit "2") true;
     exam_question (lit "x") false;
     exam_question (lit "3") true; exam_question (lit "4") true;
     exam_question (lit "5") true].

Definition reviewing (a : ExamAnalysis) : App.Model :=
  App.mkModel (Some a) App.REVIEWING None 0 0 [].

End Fixture.

(** ** Single keys and the stored settings

    The random pick of one key ([getGeminiApiKey], [getOpenRouterApiKey])
    of geminiService.ts, and what the settings panel of App.tsx writes to
    the storage the pools are read from. *)

Module Pools.

Import Keys Gateway.
Local Open Scope eff_scope.

Section Code.
Context `{Runtime}.

(** The state of the world after [n] calls of [Math.random()]. *)
Definition draws (n : nat) (b : B) : B :=
  Nat.iter n (fun s => snd (Math_random s)) b.

(** [keys.length > 0 ? keys[Math.floor(Math.random() * keys.length)]
    : undefined]. *)
Definition pick (keys : list jsstring) : M (option jsstring) :=
  if 0 <? length keys then
    j <- random_below (length keys) ;;
    ret (nth_error keys j)
  else ret None.

Definition getGeminiApiKey : M (option jsstring) := pick getGeminiKeys.

Definition getOpenRouterApiKey : M (option jsstring) :=
  pick getOpenRouterKeys.

End Code.

(** The stored string of a provider. *)
Definition stored_of (p : ModelProvider) (e : Env) : option jsstring :=
  match p with
  | gemini => local_gemini e
  | openrouter => local_openrouter e
  end.

(** The same outside world with another configuration. *)
Definition with_env (R : Runtime) (e : Env) : Runtime :=
  {| B := @B R;
     env := e;
     Math_random := @Math_random R;
     generateContent := @generateContent R;
     fetch := @fetch R;
     Json := @Json R;
     response_json := @response_json R;
     choices0_content_strict := @choices0_content_strict R;
     choices0_content := @choices0_content R;
     JSON_parse := @JSON_parse R;
     analysisPrompt := @analysisPrompt R;
     buildAnswerPrompt := @buildAnswerPrompt R;
     titlePrompt := @titlePrompt R |}.

(** [const key = input.trim(); if (key) localStorage.setItem(name, key)]:
    the item after the statement. *)
Definition setItem_trimmed (input : jsstring) (item : option jsstring)
  : option jsstring :=
  let key := trim input in
  if truthy (Some key) then Some key else item.

(** [saveLocalKeys] of App.tsx, on the storage. *)
Definition saveLocalKeys (geminiKeyInput openRouterKeyInput groqKeyInput
    : jsstring) (e : Env) : Env :=
  mkEnv (has_window e)
    (setItem_trimmed geminiKeyInput (local_gemini e))
    (setItem_trimmed openRouterKeyInput (local_openrouter e))
    (setItem_trimmed groqKeyInput (local_groq e))
    (vite_gemini e) (vite_openrouter e) (vite_groq e)
    (has_process e) (node_API_KEY e) (node_GEMINI_API_KEY e).

(** [clearLocalGeminiKey] and [clearLocalOpenRouterKey], on the
    storage. *)
Definition clearLocalKey (p : ModelProvider) (e : Env) : Env :=
  mkEnv (has_window e)
    (match p with gemini => None | openrouter => local_gemini e end)
    (match p with openrouter => None | gemini => local_openrouter e end)
    (local_groq e)
    (vite_gemini e) (vite_openrouter e) (vite_groq e)
    (has_process e) (node_API_KEY e) (node_GEMINI_API_KEY e).

(** The number the settings badge shows for a saved key string:
    [saved.split(/[,\n]/).filter(k => k.trim()).length]. *)
Definition shownKeyCount (saved : jsstring) : nat :=
  length (filter (fun k => truthy (Some (trim k)))
            (split comma_or_newline saved)).

End Pools.

(** ** The requests of the fallback chains *)

Module Routing.

Import Gateway.

(** A request to the OpenRouter endpoint. *)
Definition is_openrouter_fetch (ev : Event) : bool :=
  match ev with
  | EvFetch req =>
      match endpoint req with OpenRouterChat => true | _ => false end
  | _ => false
  end.

(** The request of [callGroq]. *)
Definition groq_call_request (key promptText : jsstring)
    (fs : list (jsstring * option jsstring)) (model : jsstring) : HttpReq :=
  mkHttpReq GroqChat key None model None promptText
    (map groq_image_url fs) true.

Definition groq_fallback_warning : Event :=
  EvConsole (lit "Groq Llama 4 failed, falling back to Llama 3.2 Vision...").

(** The model [refineAcademicAnswer] names in a request to [vendor] when
    the user chose [modelName] of [provider]:
    [provider === 'openrouter' ? modelName : 'google/gemini-2.0-flash-001']
    and [provider === 'gemini' ? modelName : 'gemini-2.0-flash-exp']. *)
Definition answer_model (vendor provider : ModelProvider)
    (modelName : jsstring) : jsstring :=
  match vendor, provider with
  | openrouter, openrouter => modelName
  | openrouter, gemini => model_or_default
  | gemini, gemini => modelName
  | gemini, openrouter => model_gemini2
  end.

(** The requests of [callOpenRouter] and [callGemini]. *)
Definition openrouter_answer_request `{Runtime} (q : ExamQuestion)
    (k model : jsstring) : HttpReq :=
  mkHttpReq OpenRouterChat k (Some (lit "Academic Architect")) model
    (Some (lit "You are a precise academic answer generator."))
    (buildAnswerPrompt q) [] false.

Definition gemini_answer_request `{Runtime} (q : ExamQuestion)
    (model : jsstring) : GeminiReq :=
  mkGeminiReq model [] (buildAnswerPrompt q) false false.

(** What [refineAcademicAnswer] may leave behind: a request for the
    answer of [q] to one of the two vendors, with a key of the pool of
    that vendor and the model meant for it, or a console message. *)
Definition answer_call `{Runtime} (q : ExamQuestion)
    (provider : ModelProvider) (modelName : jsstring) (ev : Event) : Prop :=
  match ev with
  | EvFetch req =>
      exists k, In k getOpenRouterKeys
                /\ req = openrouter_answer_request q k
                           (answer_model openrouter provider modelName)
  | EvGemini k req =>
      In k getGeminiKeys
      /\ req = gemini_answer_request q
                 (answer_model gemini provider modelName)
  | EvConsole _ => True
  | EvDelay _ => False
  | EvAttempt _ _ _ _ => False
  end.

(** What the scan may leave behind: a call with a credential of the
    vendor it goes to, or a console message; never a delay. *)
Definition scan_call `{Runtime} (ev : Event) : Prop :=
  match ev with
  | EvGemini k _ => In k getGeminiKeys
  | EvFetch req =>
      match endpoint req with
      | GroqChat => Some (bearer req) = getGroqApiKey
      | OpenRouterChat => In (bearer req) getOpenRouterKeys
      end
  | EvConsole _ => True
  | EvDelay _ => False
  | EvAttempt _ _ _ _ => False
  end.

(** The prompt of [generateChatTitle]. *)
Definition chat_title_prompt `{Runtime} (messages : list ChatTurn)
  : jsstring :=
  titlePrompt
    (or_default
       (option_map (fun m => substring0 100 (content m))
          (find is_user messages))
       (lit "Chat")).

(** What [generateChatTitle] may leave behind: a call of the Gemini SDK
    for the title, with a key of the pool of [provider], or a console
    message. *)
Definition title_call `{Runtime} (messages : list ChatTurn)
    (provider : ModelProvider) (ev : Event) : Prop :=
  match ev with
  | EvGemini k req =>
      In k (keysOf provider)
      /\ req = mkGeminiReq model_gemini2 [] (chat_title_prompt messages)
                 false false
  | EvConsole _ => True
  | EvFetch _ => False
  | EvDelay _ => False
  | EvAttempt _ _ _ _ => False
  end.

(** The first answer the Gemini SDK gives to [request] when it is asked
    with the keys in order, each call in the state the call before it
    left: [None] when every call is rejected.  With it, the state after
    the calls. *)
Fixpoint first_answer `{Runtime} (request : GeminiReq)
    (keys : list jsstring) (b : B) : option (option jsstring) * B :=
  match keys with
  | [] => (None, b)
  | k :: rest =>
      match generateContent k request b with
      | (inr response, b1) => (Some response, b1)
      | (inl _, b1) => first_answer request rest b1
      end
  end.

End Routing.

(** ** Diagrams: [withRetry] and [generateTechnicalDiagram] *)

Module Diagram.

Import Keys Gateway Pools.
Local Open Scope eff_scope.

(** What a run of [withRetry] leaves behind: the calls of the operation,
    each with the events of the operation and what it threw, if it did,
    and the waits between them. *)
Inductive Step :=
| Try (inner : list Event) (failure : option thrown)
| Wait (ms : nat).

Definition is_try (s : Step) : bool :=
  match s with Try _ _ => true | Wait _ => false end.

Definition is_wait (s : Step) : bool :=
  match s with Wait _ => true | Try _ _ => false end.

(** The waits of a run, in order. *)
Definition waits (steps : list Step) : list nat :=
  flat_map (fun s => match s with Wait ms => [ms] | Try _ _ => [] end) steps.

(** The events of the operation over the calls of a run. *)
Definition inner_events (steps : list Step) : list Event :=
  flat_map (fun s => match s with Try inner _ => inner | Wait _ => [] end)
    steps.

(** What the chronologically last failed call threw. *)
Definition last_thrown (steps : list Step) : thrown :=
  fold_left (fun acc s => match s with
                          | Try _ (Some e) => e
                          | _ => acc
                          end) steps None.

(** The image model and what it needs beyond the gateway's world: the
    SDK call that returns, for each part of the first candidate of the
    response ([response.candidates?.[0]?.content?.parts || []]), its
    [inlineData] if it has one, and in it the [data], which may be
    missing. *)
Class Imaging `{Runtime} := {
  generateImage :
    jsstring -> GeminiReq -> B -> (Error + list (option (option jsstring))) * B;
  (* the prompt template *)
  diagramPrompt : jsstring -> jsstring
}.

Definition model_image : jsstring := lit "gemini-2.5-flash-image".

Section Code.
Context `{Imaging}.

Definition R (A : Type) : Type := Eff.M B Step A.

(** [try { return await fn() } catch (error) ...]: the settled call,
    recorded. *)
Definition settled {T} (fn : M T) : R (T + thrown) :=
  fun b =>
    match fn b with
    | (Ok v, b1, t1) => (Ok (inl v), b1, [Try t1 None])
    | (Throw e, b1, t1) => (Ok (inr e), b1, [Try t1 (Some e)])
    end.

(** [for (let i = 0; i < maxRetries; i++)], from iteration [i] with [n]
    iterations left before the bound, then [throw lastError]. *)
Fixpoint retry_loop {T} (fn : M T) (maxRetries initialDelay : nat)
    (n i : nat) (lastError : thrown) : R T :=
  match n with
  | 0 => throw lastError
  | S n' =>
      r <- settled fn ;;
      match r with
      | inl v => ret v
      | inr error =>
          let lastError := error in
          if isQuotaError error && (i <? maxRetries - 1) then
            let waitTime := initialDelay * 2 ^ i in
            emit (Wait waitTime) ;;;
            retry_loop fn maxRetries initialDelay n' (S i) lastError
          else throw error
      end
  end.

Definition withRetry {T} (fn : M T) (maxRetries initialDelay : nat) : R T :=
  retry_loop fn maxRetries initialDelay maxRetries 0 None.

(** The request of the image model; its image configuration, a
    constant, has no field in [GeminiReq]. *)
Definition diagram_request (description : jsstring) : GeminiReq :=
  mkGeminiReq model_image [] (diagramPrompt description) false false.

(** The first part with [inlineData], as the [for] loop finds it. *)
Definition first_inline (parts : list (option (option jsstring)))
  : option (option jsstring) :=
  match find (fun part => match part with Some _ => true | None => false end)
          parts with
  | Some part => part
  | None => None
  end.

Definition data_url (data : option jsstring) : jsstring :=
  lit "data:image/png;base64,"
  ++ match data with Some d => d | None => lit "undefined" end.

(** The operation [generateTechnicalDiagram] hands to [withRetry]. *)
Definition drawOnce (description : jsstring) : M jsstring :=
  apiKey <- getGeminiApiKey ;;
  if negb (truthy apiKey) then
    throw (Some (new_Error
      (lit "Missing Gemini API key. Add it in Settings or via env.")))
  else
    let apiKey := or_default apiKey [] in
    parts <- (emit (EvGemini apiKey (diagram_request description)) ;;;
              call (generateImage apiKey (diagram_request description))) ;;
    match first_inline parts with
    | Some data => ret (data_url data)
    | None => throw (Some (new_Error (lit "Diagram generation failed.")))
    end.

Definition generateTechnicalDiagram (description : jsstring) : R jsstring :=
  withRetry (drawOnce description) 3 2000.

End Code.

(** The backoff schedule: the waits before the second, third, ... of
    [tries] calls. *)
Definition backoff (initialDelay tries : nat) : list nat :=
  map (fun i => initialDelay * 2 ^ i) (seq 0 (tries - 1)).

End Diagram.

(** ** A chat turn: the text streamed, the title, and the chat view *)

Module Dialogue.

Import Keys Chat.
Local Open Scope eff_scope.

(** The deltas handed to the consumer of a stream, in order. *)
Definition deltas (evs : list ChatEvent) : list jsstring :=
  flat_map (fun ev => match ev with
                      | EvYield d => [d]
                      | _ => []
                      end) evs.

(** [chunk.choices[0]?.delta?.content || '']. *)
Definition content_of (chunk : option jsstring) : jsstring :=
  or_default chunk [].

(** *** [generateTitle] of the chat service *)

(** What a run of [generateTitle] leaves behind: a (non-streaming) call
    of [client.chat.completions.create], or a warning on the console
    with the value caught. *)
Inductive TitleEvent :=
| EvComplete (client : Client) (model : jsstring)
    (messages : list ChatMessage)
| EvWarn (msg : jsstring) (e : thrown).

(** The completions endpoint without streaming: the error the call is
    rejected with, or that reading [completion.choices[0]] throws, or
    else [completion.choices[0]?.message?.content]. *)
Class Completions `{Provider} := {
  complete :
    Client -> jsstring -> list ChatMessage -> P -> (Error + option jsstring) * P
}.

Definition quote : jsstring := [34%N].

Definition title_system : jsstring :=
  lit "Generate a short, concise title (max 4-6 words) for this chat. OUTPUT: Title text only. NO quotes.".

Definition is_user (m : ChatMessage) : bool :=
  str_eqb (msg_role m) (lit "user").

Definition title_prompt (messages : list ChatMessage) : list ChatMessage :=
  let firstMsg :=
    or_default
      (option_map (fun m => substring0 100 (msg_content m))
         (find is_user messages))
      (lit "Chat") in
  [mkMessage (lit "system") title_system;
   mkMessage (lit "user")
     (lit "First user message: " ++ quote ++ firstMsg ++ quote)].

Definition groq_title_model : jsstring := lit "llama-3.1-8b-instant".
Definition openrouter_title_model : jsstring :=
  lit "meta-llama/llama-3.1-8b-instruct".

Section Title.
Context `{Completions}.

Definition GT (A : Type) : Type := Eff.M (ChatService * P) TitleEvent A.

Definition call_complete (client : Client) (model : jsstring)
    (messages : list ChatMessage) : GT (option jsstring) :=
  emit (EvComplete client model messages) ;;;
  fun s =>
    match complete client model messages (snd s) with
    | (inl e, p1) => (Throw (Some e), (fst s, p1), [])
    | (inr c, p1) => (Ok c, (fst s, p1), [])
    end.

(** [try { ...; return content?.trim() || "New Chat" } catch (e)
    { console.warn(msg, e) }]: [Some] title when the function returns
    from inside the [try]. *)
Definition title_from (client : Client) (model : jsstring)
    (prompt : list ChatMessage) (msg : jsstring) : GT (option jsstring) :=
  try_catch
    (c <- call_complete client model prompt ;;
     ret (Some (or_default (option_map trim c) (lit "New Chat"))))
    (fun e => emit (EvWarn msg e) ;;; ret None).

(** [this.getOpenRouterClient()], which leaves no event. *)
Definition openRouterClient : GT (option Client) :=
  fun s => (value (getOpenRouterClient s), final (getOpenRouterClient s), []).

(** The OpenRouter part of [generateTitle], and its last line. *)
Definition openRouterTitle (self : ChatService) (prompt : list ChatMessage)
  : GT jsstring :=
  r <- (if 0 <? length (openRouterKeys self) then
          client <- openRouterClient ;;
          match client with
          | Some c =>
              title_from c openrouter_title_model prompt
                (lit "OpenRouter title generation failed")
          | None => ret None
          end
        else ret None) ;;
  match r with
  | Some title => ret title
  | None => ret (lit "New Chat")
  end.

Definition generateTitle (messages : list ChatMessage) : GT jsstring :=
  if length messages =? 0 then ret (lit "New Chat")
  else
    let prompt := title_prompt messages in
    s <- get ;;
    let self := fst s in
    r <- match groqClient self with
         | Some groq =>
             title_from groq groq_title_model prompt
               (lit "Groq title generation failed, trying OpenRouter")
         | None => ret None
         end ;;
    match r with
    | Some title => ret title
    | None => openRouterTitle self prompt
    end.

End Title.

(** The clients a run of [generateTitle] called, in order. *)
Definition completed (evs : list TitleEvent) : list Client :=
  flat_map (fun ev => match ev with
                      | EvComplete c _ _ => [c]
                      | EvWarn _ _ => []
                      end) evs.

(** *** [handleSubmit] of the chat view *)

(** The state of the view that [handleSubmit] reads and writes. *)
Record View := mkView {
  messages : list ChatMessage;
  input : jsstring;
  isLoading : bool
}.

(** [newMsgs[newMsgs.length - 1] = { ...newMsgs[newMsgs.length - 1],
    content }] on a copy of the messages; on an empty array the
    assignment is to index [-1], which adds no element. *)
Definition set_last_content (content : jsstring) (msgs : list ChatMessage)
  : list ChatMessage :=
  match rev msgs with
  | [] => []
  | m :: before => rev before ++ [mkMessage (msg_role m) content]
  end.

(** [for await (const chunk of stream) { fullContent += chunk;
    setMessages(...) }] over the deltas of a stream. *)
Fixpoint receive (chunks : list jsstring) (fullContent : jsstring)
    (msgs : list ChatMessage) : jsstring * list ChatMessage :=
  match chunks with
  | [] => (fullContent, msgs)
  | chunk :: rest =>
      let fullContent := fullContent ++ chunk in
      receive rest fullContent (set_last_content fullContent msgs)
  end.

(** [error instanceof Error ? error.message : 'Failed to connect']. *)
Definition error_text (error : thrown) : jsstring :=
  match error with
  | Some e => message e
  | None => lit "Failed to connect"
  end.

(** [handleSubmit(text)]: the view, the service behind
    [chatServiceRef.current] and the provider after the call, with the
    events of the stream; the [console.error] of its [catch] is not
    recorded. *)
Definition handleSubmit `{Provider} (text : option jsstring)
    (selectedModel : ChatMode) (view : View) (service : option ChatService)
    (p : P) : View * option ChatService * P * list ChatEvent :=
  let query := or_default text (input view) in
  match service with
  | None => (view, service, p, [])
  | Some svc =>
      if negb (truthy (Some (trim query))) || isLoading view
      then (view, service, p, [])
      else
        let userMsg := mkMessage (lit "user") query in
        let assistantMsg := mkMessage (lit "assistant") [] in
        let shown := (messages view ++ [userMsg]) ++ [assistantMsg] in
        let o := streamChat (messages view ++ [userMsg]) selectedModel
                   (svc, p) in
        let shown := snd (receive (deltas (events o)) [] shown) in
        let shown :=
          match value o with
          | Ok _ => shown
          | Throw error =>
              shown ++ [mkMessage (lit "system")
                          (lit "Error: " ++ error_text error)]
          end in
        (mkView shown [] false, Some (fst (final o)), snd (final o),
         events o)
  end.

End Dialogue.

(** ** The handlers of App.tsx around the batch *)

Module Workbench.

Import Gateway App.
Local Open Scope eff_scope.

Definition setAnalysis (a : option ExamAnalysis) (m : Model) : Model :=
  mkModel a (state m) (error m) (totalGenSteps m) (currentGenStep m)
    (refinedQuestions m).

Section Scan.
Context `{Runtime}.

(** [handleFilesSelected]: the scan of the uploaded files, always asked
    of [gemini-3-flash-preview]; the view mode it sets on success is not
    part of [Model]. *)
Definition handleFilesSelected (files : list File) (m : Model) : M Model :=
  try_catch
    (let m := setError None m in
     let m := setState ANALYZING m in
     result <- analyzeExamPaper files model_gemini3 ;;
     let m := setAnalysis (Some result) m in
     ret (setState REVIEWING m))
    (fun err =>
       let m := setState ANALYZING (setError None m) in
       msg <- message_of err ;;
       let m := setError (Some (or_default (Some msg)
                                  (lit "Scanning failed."))) m in
       ret (setState IDLE m)).

End Scan.

(** [a.splice(start, 1)] on a copy of [a]: the element removed, if
    [start] is inside the array, and what is left. *)
Definition splice_out {T} (start : nat) (a : list T) : option T * list T :=
  (nth_error a start, firstn start a ++ skipn (S start) a).

(** [a.splice(start, 0, item)]: [item] put in at [start], or at the end
    when [start] is beyond it. *)
Definition splice_in {T} (start : nat) (item : T) (a : list T) : list T :=
  firstn start a ++ item :: skipn start a.

(** What [handleDrop] does to the list of results and to
    [draggedIndex]. *)
Inductive Dropped (T : Type) :=
| Unchanged
    (* the early return: neither the list nor [draggedIndex] is set *)
| Reordered (questions : list T)
    (* the list is set to [questions] and [draggedIndex] to [null] *)
| Holed (before after : list T).
    (* [draggedIndex] was outside the list: nothing is removed and
       [undefined] is put in between [before] and [after] *)

Arguments Unchanged {T}.
Arguments Reordered {T} questions.
Arguments Holed {T} before after.

Definition handleDrop {T} (targetIndex : nat) (draggedIndex : option nat)
    (refinedQuestions : list T) : Dropped T :=
  match draggedIndex with
  | None => Unchanged
  | Some dragged =>
      if dragged =? targetIndex then Unchanged
      else
        let '(draggedItem, updatedQuestions) :=
          splice_out dragged refinedQuestions in
        match draggedItem with
        | Some item => Reordered (splice_in targetIndex item updatedQuestions)
        | None =>
            Holed (firstn targetIndex updatedQuestions)
                  (skipn targetIndex updatedQuestions)
        end
  end.

(** A [Partial<ExamQuestion>]: for each property, whether the object
    has it, and its value. *)
Record Patch := mkPatch {
  p_id : option jsstring;
  p_label : option jsstring;
  p_text : option jsstring;
  p_marks : option N;
  p_suggestedAnswer : option jsstring;
  p_diagramRequired : option bool;
  p_diagramDescription : option (option jsstring);
  p_enabled : option bool;
  p_isJustified : option (option bool)
}.

Definition over {A} (old : A) (new : option A) : A :=
  match new with
  | Some v => v
  | None => old
  end.

(** [{ ...q, ...updated }]. *)
Definition spread (q : ExamQuestion) (updated : Patch) : ExamQuestion :=
  mkQuestion
    (over (q_id q) (p_id updated))
    (over (q_label q) (p_label updated))
    (over (q_text q) (p_text updated))
    (over (q_marks q) (p_marks updated))
    (over (q_suggestedAnswer q) (p_suggestedAnswer updated))
    (over (q_diagramRequired q) (p_diagramRequired updated))
    (over (q_diagramDescription q) (p_diagramDescription updated))
    (over (q_enabled q) (p_enabled updated))
    (over (q_isJustified q) (p_isJustified updated)).

Definition updateQuestion (id : jsstring) (updated : Patch) (m : Model)
  : Model :=
  match analysis m with
  | None => m
  | Some a =>
      let nextQuestions :=
        map (fun q => if str_eqb (q_id q) id then spread q updated else q)
          (questions a) in
      setAnalysis (Some (mkAnalysis (examTitle a) (totalMarks a)
                           nextQuestions)) m
  end.

(** [{ enabled }], the patch of the switch of a question. *)
Definition switch (enabled : bool) : Patch :=
  mkPatch None None None None None None None (Some enabled) None.

(** The questions [startGeneration] takes from the state:
    [analysis.questions.filter(q => q.enabled)]. *)
Definition enabledQuestions (m : Model) : list ExamQuestion :=
  match analysis m with
  | Some a => filter q_enabled (questions a)
  | None => []
  end.

(** *** The history *)

Record HistoryItem := mkItem {
  h_id : jsstring;
  h_data : ExamAnalysis;
  h_refinedQuestions : option (list RefinedQuestion);
  h_timestamp : N;
  h_tags : list jsstring
}.

Inductive StorageType := local | cloud.

(** The writes of a history handler: [localStorage.setItem] and
    [setCookie] under the history key, with the JSON text written. *)
Inductive Write :=
| SetItem (json : jsstring)
| SetCookie (json : jsstring) (days : nat).

Section History.
(** [JSON.stringify] on a history. *)
Variable stringify : list HistoryItem -> jsstring.

Definition persist (storageType : StorageType) (next : list HistoryItem)
  : list Write :=
  SetItem (stringify next)
  :: match storageType with
     | cloud => [SetCookie (stringify next) 30]
     | local => []
     end.

(** [saveToHistory(data, refined)], where [uuid] is what
    [crypto.randomUUID()] returns and [now] what [Date.now()] returns:
    the next history and the writes. *)
Definition saveToHistory (uuid : jsstring) (now : N) (data : ExamAnalysis)
    (refined : option (list RefinedQuestion)) (storageType : StorageType)
    (history : list HistoryItem) : list HistoryItem * list Write :=
  let newItem := mkItem uuid data refined now [] in
  let nextHistory := newItem :: history in
  (nextHistory, persist storageType nextHistory).

Definition deleteHistoryItem (id : jsstring) (storageType : StorageType)
    (history : list HistoryItem) : list HistoryItem * list Write :=
  let next := filter (fun h => negb (str_eqb (h_id h) id)) history in
  (next, persist storageType next).

End History.

End Workbench.

(** ** More worlds *)

Module Scenes.

Import Gateway.

(** An operation that is refused with an error that is no quota error,
    whatever the key. *)
Definition refused `{Runtime} (k : jsstring) : M jsstring :=
  throw (Some (new_Error (lit "invalid request"))).

(** Two Gemini keys in the browser. *)
Definition two_keys : Runtime :=
  Fixture.offline (Fixture.stored (Some (lit "k1,k2")) None None).

(** An operation that is always over its quota. *)
Definition busy `{Runtime} : M jsstring :=
  throw (Some Fixture.quota_error).

(** An image model in the counting world that answers with a quota
    error before the second call of the world and with a text part
    followed by two images from then on. *)
Definition paint (apiKey : jsstring) (req : GeminiReq) (b : nat)
  : (Error + list (option (option jsstring))) * nat :=
  (if b <? 2 then inl Fixture.quota_error
   else inr [None; Some (Some (lit "iVBOR")); Some (Some (lit "AAAA"))],
   S b).

Definition painter (e : Env) : @Diagram.Imaging (Fixture.offline e) :=
  @Diagram.Build_Imaging (Fixture.offline e) paint
    (fun d => lit "Technical diagram for exam: " ++ d).

(** A completions endpoint, beside the streams of [Fixture.key_check],
    that rejects the Groq client and answers the OpenRouter clients with
    a title in white space. *)
Definition titles (bad : jsstring -> bool)
  : @Dialogue.Completions (Fixture.key_check bad) :=
  @Dialogue.Build_Completions (Fixture.key_check bad)
    (fun (c : Chat.Client) (_ : jsstring) (_ : list Chat.ChatMessage)
         (n : nat) =>
       (match Chat.baseURL c with
        | Chat.GroqAPI => inl (Fixture.server_error n)
        | Chat.OpenRouterAPI => inr (Some (lit " Greeting "))
        end, S n)).

(** A Gemini that answers every request with a title in white space. *)
Definition answering : Runtime :=
  Fixture.scripted Fixture.three_vendors
    (fun _ _ _ => inr (Some (lit " My chat ")))
    (fun _ _ => inl (new_Error (lit "offline"))).

End Scenes.

(** * Properties *)

(** ** Strings and credential parsing *)

Module KeysFacts.

Import Keys.

Lemma trimStart_suffix (s : jsstring) (c : char16) :
  In c (trimStart s) -> In c s.
Proof.
  induction s as [|a s IH]; simpl; [tauto|].
  destruct (is_white a); simpl; intuition.
Qed.

Lemma trimStart_white (s : jsstring) :
  forallb is_white s = true -> trimStart s = [].
Proof.
  induction s as [|a s IH]; simpl; [reflexivity|].
  intros Hw. apply andb_true_iff in Hw. destruct Hw as [Ha Hs].
  rewrite Ha. now apply IH.
Qed.

Lemma trimStart_idem (s : jsstring) : trimStart (trimStart s) = trimStart s.
Proof.
  induction s as [|a s IH]; simpl; [reflexivity|].
  destruct (is_white a) eqn:E; [assumption|].
  simpl. now rewrite E.
Qed.

Lemma trimStart_snoc (l : jsstring) (c : char16) :
  is_white c = false -> trimStart (l ++ [c]) = trimStart l ++ [c].
Proof.
  intros Hc. induction l as [|a l IH]; simpl.
  - now rewrite Hc.
  - destruct (is_white a); [assumption|reflexivity].
Qed.

Lemma trimEnd_cons (c : char16) (t : jsstring) :
  is_white c = false -> trimEnd (c :: t) = c :: trimEnd t.
Proof.
  intros Hc. unfold trimEnd. simpl.
  rewrite trimStart_snoc by assumption.
  now rewrite rev_app_distr.
Qed.

Lemma trimEnd_idem (s : jsstring) : trimEnd (trimEnd s) = trimEnd s.
Proof.
  unfold trimEnd. now rewrite rev_involutive, trimStart_idem.
Qed.

Lemma trimStart_head (s : jsstring) :
  trimStart s = [] \/
  exists c t, trimStart s = c :: t /\ is_white c = false.
Proof.
  induction s as [|a s IH]; simpl; [now left|].
  destruct (is_white a) eqn:E; [assumption|].
  right. now exists a, s.
Qed.

Lemma trim_idem (s : jsstring) : trim (trim s) = trim s.
Proof.
  unfold trim.
  destruct (trimStart_head s) as [E | (c & t & E & Hc)]; rewrite E.
  - reflexivity.
  - rewrite (trimEnd_cons c t Hc). simpl. rewrite Hc.
    rewrite <- (trimEnd_cons c t Hc). apply trimEnd_idem.
Qed.

Lemma trim_sub (s : jsstring) (c : char16) : In c (trim s) -> In c s.
Proof.
  unfold trim, trimEnd. intros Hin.
  apply in_rev in Hin. apply trimStart_suffix in Hin.
  apply in_rev in Hin. now apply trimStart_suffix.
Qed.

Lemma trim_white (s : jsstring) :
  forallb is_white s = true -> trim s = [].
Proof.
  intros Hw. unfold trim. now rewrite (trimStart_white s Hw).
Qed.

(** The pieces of a split hold no separator, and together they are the
    string without its separators. *)
Lemma split_nonempty sep (s : jsstring) : split sep s <> [].
Proof.
  destruct s as [|c s]; simpl; [discriminate|].
  destruct (sep c); [discriminate|].
  destruct (split sep s); discriminate.
Qed.

Lemma split_no_sep sep (s p : jsstring) (c : char16) :
  In p (split sep s) -> In c p -> sep c = false.
Proof.
  revert p. induction s as [|a s IH]; simpl; intros p Hp Hc.
  - destruct Hp as [<-|[]]. destruct Hc.
  - destruct (sep a) eqn:Ea.
    + destruct Hp as [<-|Hp]; [destruct Hc | eauto].
    + destruct (split sep s) as [|q qs] eqn:Es.
      * destruct Hp as [<-|[]]. destruct Hc as [<-|[]]. assumption.
      * destruct Hp as [<-|Hp].
        -- destruct Hc as [<-|Hc]; [assumption|].
           apply (IH q); simpl; auto.
        -- apply (IH p); simpl; auto.
Qed.

Lemma split_sub sep (s p : jsstring) (c : char16) :
  In p (split sep s) -> In c p -> In c s.
Proof.
  revert p. induction s as [|a s IH]; simpl; intros p Hp Hc.
  - destruct Hp as [<-|[]]. destruct Hc.
  - destruct (sep a) eqn:Ea.
    + destruct Hp as [<-|Hp]; [destruct Hc | eauto].
    + destruct (split sep s) as [|q qs] eqn:Es.
      * destruct Hp as [<-|[]]. destruct Hc as [<-|[]]. now left.
      * destruct Hp as [<-|Hp].
        -- destruct Hc as [<-|Hc]; [now left|].
           right. apply (IH q); simpl; auto.
        -- right. apply (IH p); simpl; auto.
Qed.

Lemma split_concat sep (s : jsstring) :
  concat (split sep s) = filter (fun c => negb (sep c)) s.
Proof.
  induction s as [|a s IH]; simpl; [reflexivity|].
  destruct (sep a) eqn:Ea; simpl; [assumption|].
  destruct (split sep s) as [|q qs] eqn:Es.
  - now destruct (split_nonempty sep s).
  - simpl in *. now rewrite IH.
Qed.

Lemma split_ext sep1 sep2 (s : jsstring) :
  (forall c, In c s -> sep1 c = sep2 c) -> split sep1 s = split sep2 s.
Proof.
  induction s as [|a s IH]; simpl; intros Hs; [reflexivity|].
  rewrite <- (Hs a) by now left.
  rewrite <- IH by (intros c Hc; apply Hs; now right).
  reflexivity.
Qed.

Lemma entries_white (pieces : list jsstring) :
  (forall p, In p pieces -> forallb is_white p = true) ->
  entries pieces = [].
Proof.
  unfold entries. induction pieces as [|p ps IH]; simpl; intros Hw.
  - reflexivity.
  - rewrite (trim_white p) by (apply Hw; now left). simpl.
    apply IH. intros q Hq. apply Hw. now right.
Qed.

Lemma forallb_In (f : char16 -> bool) (s : jsstring) :
  forallb f s = true <-> (forall c, In c s -> f c = true).
Proof. apply forallb_forall. Qed.

Lemma entries_of_split_white sep (s : jsstring) :
  forallb is_white s = true -> entries (split sep s) = [].
Proof.
  intros Hw. apply entries_white. intros p Hp.
  apply forallb_In. intros c Hc.
  rewrite forallb_In in Hw. apply Hw. eapply split_sub; eauto.
Qed.

Lemma entries_In sep (s k : jsstring) :
  In k (entries (split sep s)) ->
  k <> [] /\ (forall c, In c k -> sep c = false) /\ trim k = k.
Proof.
  unfold entries. intros Hin.
  apply filter_In in Hin. destruct Hin as [Hin Hne].
  apply in_map_iff in Hin. destruct Hin as (p & <- & Hp).
  split; [|split].
  - intros E. rewrite E in Hne. discriminate.
  - intros c Hc. eapply split_no_sep; eauto using trim_sub.
  - apply trim_idem.
Qed.

Lemma getAllKeys_entries (s : jsstring) :
  getAllKeys (Some s) = entries (split comma_or_newline s).
Proof. destruct s; reflexivity. Qed.

Lemma chatOpenRouterKeys_entries (s : jsstring) :
  chatOpenRouterKeys (Some s) = entries (split is_comma s).
Proof. destruct s; reflexivity. Qed.

(** C4, as stated, fails for the chat client: the [ChatService]
    constructor splits on commas only, so two keys on two lines come out
    as one entry that still holds the line break, where [getAllKeys]
    yields the two keys. *)
Lemma chat_keys_do_not_split_on_newline :
  chatOpenRouterKeys (Some two_lines) = [two_lines]
  /\ chatOpenRouterKeys (Some two_lines) <> [lit "a"; lit "b"]
  /\ getAllKeys (Some two_lines) = [lit "a"; lit "b"].
Proof.
  split; [reflexivity|]. split; [|reflexivity].
  vm_compute. discriminate.
Qed.

(** C4 (amended).  [getAllKeys] splits on commas and newlines, trims each
    entry and drops the empty ones: every key it returns is non-empty,
    holds no comma or newline and has no white space at either end; the
    sample value parses to [a; b; c]; an absent, empty or
    white-space-only value parses to no key.  The [ChatService]
    constructor does the same with the comma as only separator: it
    agrees with [getAllKeys] on the sample value, on white-space-only
    values and on every value without a newline. *)
Theorem credential_parsing :
  (forall s, getAllKeys (Some s)
             = filter nonempty (map trim (split comma_or_newline s)))
  /\ (forall s k, In k (getAllKeys (Some s)) ->
        k <> [] /\ (forall c, In c k -> c <> comma /\ c <> newline)
        /\ trim k = k)
  /\ getAllKeys (Some sample) = [lit "a"; lit "b"; lit "c"]
  /\ getAllKeys None = []
  /\ (forall s, forallb is_white s = true -> getAllKeys (Some s) = [])
  /\ (forall s, chatOpenRouterKeys (Some s)
                = filter nonempty (map trim (split is_comma s)))
  /\ (forall s k, In k (chatOpenRouterKeys (Some s)) ->
        k <> [] /\ (forall c, In c k -> c <> comma) /\ trim k = k)
  /\ chatOpenRouterKeys (Some sample) = [lit "a"; lit "b"; lit "c"]
  /\ chatOpenRouterKeys None = []
  /\ (forall s, forallb is_white s = true -> chatOpenRouterKeys (Some s) = [])
  /\ (forall s, ~ In newline s ->
        chatOpenRouterKeys (Some s) = getAllKeys (Some s)).
Proof.
  split; [exact getAllKeys_entries|].
  split.
  { intros s k Hk. rewrite getAllKeys_entries in Hk.
    destruct (entries_In _ _ _ Hk) as (Hne & Hs & Ht).
    repeat split; trivial; intros ->;
      [specialize (Hs comma H) | specialize (Hs newline H)]; discriminate. }
  split; [reflexivity|]. split; [reflexivity|].
  split.
  { intros s Hw. rewrite getAllKeys_entries.
    now apply entries_of_split_white. }
  split; [exact chatOpenRouterKeys_entries|].
  split.
  { intros s k Hk. rewrite chatOpenRouterKeys_entries in Hk.
    destruct (entries_In _ _ _ Hk) as (Hne & Hs & Ht).
    repeat split; trivial. intros c Hc ->.
    specialize (Hs comma Hc). discriminate. }
  split; [reflexivity|]. split; [reflexivity|].
  split.
  { intros s Hw. rewrite chatOpenRouterKeys_entries.
    now apply entries_of_split_white. }
  intros s Hn. rewrite chatOpenRouterKeys_entries, getAllKeys_entries.
  f_equal. apply split_ext. intros c Hc.
  unfold is_comma, comma_or_newline.
  destruct (char_eqb c newline) eqn:E; [|now rewrite orb_false_r].
  apply N.eqb_eq in E. subst c. contradiction.
Qed.

(** The amended C4 at a white-space-only value and at a value without
    newline. *)
Lemma credential_parsing_witness :
  getAllKeys (Some (lit "  ")) = []
  /\ chatOpenRouterKeys (Some (lit "k1, k2")) = getAllKeys (Some (lit "k1, k2")).
Proof.
  destruct credential_parsing
    as (_ & _ & _ & _ & Hwhite & _ & _ & _ & _ & _ & Hagree).
  split.
  - apply Hwhite. reflexivity.
  - apply Hagree. vm_compute. intuition discriminate.
Defined.

End KeysFacts.

(** ** Running effectful code *)

Module EffFacts.

Section Laws.
Variables St Ev : Type.

Lemma out_eta {A} (o : result A * St * list Ev) :
  o = (value o, final o, events o).
Proof. now destruct o as [[r s] t]. Qed.

Lemma bind_ok {A C} (m : M St Ev A) (f : A -> M St Ev C) s a s1 t1 :
  m s = (Ok a, s1, t1) ->
  bind m f s = (value (f a s1), final (f a s1), t1 ++ events (f a s1)).
Proof.
  intros E. unfold bind. rewrite E.
  now destruct (f a s1) as [[r s2] t2].
Qed.

Lemma bind_throw {A C} (m : M St Ev A) (f : A -> M St Ev C) s e s1 t1 :
  m s = (Throw e, s1, t1) -> bind m f s = (Throw e, s1, t1).
Proof. intros E. unfold bind. now rewrite E. Qed.

Lemma try_ok {A} (m : M St Ev A) h s a s1 t1 :
  m s = (Ok a, s1, t1) -> try_catch m h s = (Ok a, s1, t1).
Proof. intros E. unfold try_catch. now rewrite E. Qed.

Lemma try_throw {A} (m : M St Ev A) h s e s1 t1 :
  m s = (Throw e, s1, t1) ->
  try_catch m h s = (value (h e s1), final (h e s1), t1 ++ events (h e s1)).
Proof.
  intros E. unfold try_catch. rewrite E.
  now destruct (h e s1) as [[r s2] t2].
Qed.

Lemma bind_ret_l {A C} (a : A) (f : A -> M St Ev C) s :
  bind (ret a) f s = f a s.
Proof. unfold bind, ret. now destruct (f a s) as [[r s2] t2]. Qed.

Lemma bind_emit {C} (ev : Ev) (k : M St Ev C) s :
  bind (emit ev) (fun _ => k) s = (value (k s), final (k s), ev :: events (k s)).
Proof. unfold bind, emit. now destruct (k s) as [[r s2] t2]. Qed.

(** A computation that throws error objects only, never [undefined]. *)
Definition throws_objects {A} (m : M St Ev A) : Prop :=
  forall s e, value (m s) = Throw e -> e <> None.

Lemma throws_objects_ret {A} (a : A) : throws_objects (ret a).
Proof. intros s e E. discriminate. Qed.

Lemma throws_objects_throw {A} (err : Error) :
  throws_objects (throw (A := A) (Some err)).
Proof. intros s e E. inversion E. discriminate. Qed.

Lemma throws_objects_emit (ev : Ev) : throws_objects (emit ev).
Proof. intros s e E. discriminate. Qed.

Lemma throws_objects_pure {A} (x : Error + A) :
  throws_objects (pure_or_throw x).
Proof.
  destruct x; [apply throws_objects_throw | apply throws_objects_ret].
Qed.

Lemma throws_objects_bind {A C} (m : M St Ev A) (f : A -> M St Ev C) :
  throws_objects m -> (forall a, throws_objects (f a)) ->
  throws_objects (bind m f).
Proof.
  intros Hm Hf s e. unfold bind.
  destruct (m s) as [[[a|e1] s1] t1] eqn:E.
  - specialize (Hf a s1 e). destruct (f a s1) as [[r s2] t2].
    exact Hf.
  - intros E1. apply (Hm s e). rewrite E. inversion E1. reflexivity.
Qed.

Lemma throws_objects_try {A} (m : M St Ev A) h :
  (forall e, throws_objects (h e)) -> throws_objects (try_catch m h).
Proof.
  intros Hh s e. unfold try_catch.
  destruct (m s) as [[[a|e1] s1] t1] eqn:E.
  - discriminate.
  - specialize (Hh e1 s1 e). destruct (h e1 s1) as [[r s2] t2].
    exact Hh.
Qed.

End Laws.

Arguments throws_objects {St Ev A} m.

End EffFacts.

(** ** The gateway *)

Module GatewayFacts.

Import Gateway EffFacts.
Local Open Scope eff_scope.

(** *** The shuffle is a permutation *)

Section Shuffle.
Context {T : Type}.

Lemma perm_set_nth (t : list T) (j : nat) (x y : T) :
  nth_error t j = Some y -> Permutation (y :: set_nth j x t) (x :: t).
Proof.
  revert j. induction t as [|h t IH]; intros [|j] E; simpl in *;
    try discriminate.
  - inversion E; subst. apply perm_swap.
  - eapply perm_trans; [apply perm_swap|].
    eapply perm_trans; [|apply perm_swap].
    apply perm_skip. now apply IH.
Qed.

Lemma swap_perm (i j : nat) (a : list T) : Permutation (swap i j a) a.
Proof.
  unfold swap.
  destruct (nth_error a i) as [ai|] eqn:Ei; [|reflexivity].
  destruct (nth_error a j) as [aj|] eqn:Ej; [|reflexivity].
  revert i j Ei Ej.
  induction a as [|h t IH]; intros [|i] [|j] Ei Ej; simpl in *;
    try discriminate.
  - inversion Ei; inversion Ej; subst. reflexivity.
  - inversion Ei; subst. now apply perm_set_nth.
  - inversion Ej; subst. now apply perm_set_nth.
  - apply perm_skip. now apply IH.
Qed.

End Shuffle.

Section Facts.
Context `{Runtime}.

Lemma shuffle_from_perm {T} (i : nat) (a : list T) (b : B) :
  exists a' b', shuffle_from i a b = (Ok a', b', [])
                /\ Permutation a' a.
Proof.
  revert a b. induction i as [|i IH]; intros a b; cbn [shuffle_from].
  - exists a, b. split; reflexivity.
  - unfold bind, random_below.
    destruct (Math_random b) as [r b1].
    match goal with
    | |- context [shuffle_from i ?x ?y] =>
        destruct (IH x y) as (a' & b' & E & P)
    end.
    rewrite E. exists a', b'. split; [reflexivity|].
    eapply perm_trans; [exact P | apply swap_perm].
Qed.

Lemma shuffleArray_perm {T} (a : list T) (b : B) :
  exists a' b', shuffleArray a b = (Ok a', b', []) /\ Permutation a' a.
Proof. apply shuffle_from_perm. Qed.

(** A quota error: status 429, or a message that holds [429] or
    [RESOURCE_EXHAUSTED]. *)
Lemma isQuotaError_spec (e : Error) :
  isQuotaError (Some e) = true <->
  status e = Some 429%N
  \/ includes (message e) (lit "429") = true
  \/ includes (message e) (lit "RESOURCE_EXHAUSTED") = true.
Proof.
  unfold isQuotaError. rewrite !orb_true_iff.
  destruct (status e) as [st|].
  - rewrite N.eqb_eq. split.
    + intros [[Hm|Hs]|Hr]; subst; auto.
    + intros [Hs|[Hm|Hr]]; auto. inversion Hs. auto.
  - split.
    + intros [[Hm|Hs]|Hr]; auto. discriminate.
    + intros [Hs|[Hm|Hr]]; auto. discriminate.
Qed.

(** *** The retry loops, one iteration at a time *)

Section RetryLoops.
Variable T : Type.
Variable provider : ModelProvider.
Variable fn : jsstring -> M T.
Variable maxR : nat.
Variable nkeys : nat.

Local Abbreviation retry := (retry_key provider fn maxR nkeys).
Local Abbreviation keys_loop := (each_key provider fn maxR nkeys).

Lemma retry_key_S (k : jsstring) (n i : nat) (last : thrown) (b : B) :
  retry k (S n) i last b =
  match fn k b with
  | (Ok v, b1, t1) => (Ok (Returned v), b1, [EvAttempt provider k t1 None])
  | (Throw e, b1, t1) =>
      if isQuotaError e && (1 <? nkeys) then
        (Ok (NextKey e), b1, [EvAttempt provider k t1 (Some e)])
      else if isQuotaError e && (i <? maxR - 1) then
        let o := retry k n (S i) e b1 in
        (value o, final o,
         EvAttempt provider k t1 (Some e) :: EvDelay 500 :: events o)
      else (Ok (NextKey e), b1, [EvAttempt provider k t1 (Some e)])
  end.
Proof.
  cbn [retry_key]. unfold bind at 1. unfold attempt.
  destruct (fn k b) as [[[v|e] b1] t1]; [reflexivity|].
  destruct (isQuotaError e && (1 <? nkeys)); [reflexivity|].
  destruct (isQuotaError e && (i <? maxR - 1)); [|reflexivity].
  unfold delay. rewrite bind_emit. reflexivity.
Qed.

Lemma each_key_cons (k : jsstring) (rest : list jsstring) (last : thrown)
    (b : B) :
  keys_loop (k :: rest) last b =
  let o := retry k maxR 0 last b in
  match value o with
  | Ok (Returned v) => (Ok v, final o, events o)
  | Ok (NextKey le) =>
      let o2 := keys_loop rest le (final o) in
      (value o2, final o2, events o ++ events o2)
  | Throw e => (Throw e, final o, events o)
  end.
Proof.
  cbn [each_key]. unfold bind.
  destruct (retry k maxR 0 last b) as [[[[v|le]|e] b1] t1]; cbn.
  - now rewrite app_nil_r.
  - now destruct (keys_loop rest le b1) as [[r b2] t2].
  - reflexivity.
Qed.

(** Case analysis on one iteration of the retry loop of a key. *)
Ltac retry_cases k b e b1 t1 :=
  rewrite retry_key_S;
  destruct (fn k b) as [[[?v|e] b1] t1] eqn:?Efn;
  [| destruct (isQuotaError e && (1 <? nkeys)) eqn:?Efast;
     [| destruct (isQuotaError e && (_ <? maxR - 1)) eqn:?Eslow]].

(** The loop of a key always leaves with [return] or by moving on. *)
Lemma retry_key_total (k : jsstring) (n i : nat) (last : thrown) (b : B) :
  exists x, value (retry k n i last b) = Ok x.
Proof.
  revert i last b. induction n as [|n IH]; intros i last b.
  - eexists. reflexivity.
  - retry_cases k b e b1 t1; cbn; eauto.
Qed.

(** Its events are attempts on its key and delays of 500 ms. *)
Lemma retry_key_events (k : jsstring) (n i : nat) (last : thrown) (b : B) :
  Forall (retry_event provider k) (events (retry k n i last b)).
Proof.
  revert i last b. induction n as [|n IH]; intros i last b.
  - constructor.
  - retry_cases k b e b1 t1; cbn;
      repeat (constructor; [unfold retry_event; eauto|]);
      auto.
Qed.

(** It calls the operation at most [n] times. *)
Lemma retry_key_bound (k : jsstring) (n i : nat) (last : thrown) (b : B) :
  length (filter is_attempt (events (retry k n i last b))) <= n.
Proof.
  revert i last b. induction n as [|n IH]; intros i last b.
  - cbn. lia.
  - retry_cases k b e b1 t1; cbn; try lia.
    specialize (IH (S i) e b1). lia.
Qed.

(** With more than one key in the pool it never waits. *)
Lemma retry_key_no_delay (k : jsstring) (n i : nat) (last : thrown) (b : B) :
  1 < nkeys ->
  Forall (fun ev => is_delay ev = false) (events (retry k n i last b)).
Proof.
  intros Hn. revert i last b. induction n as [|n IH]; intros i last b.
  - constructor.
  - retry_cases k b e b1 t1; cbn; try (repeat constructor; fail).
    apply Nat.ltb_lt in Hn. rewrite Hn, andb_true_r in Efast.
    rewrite Efast in Eslow. discriminate.
Qed.

(** When it moves on, [lastError] is what the last attempt threw. *)
Lemma retry_key_last (k : jsstring) (n i : nat) (last : thrown) (b : B)
    (le : thrown) :
  value (retry k n i last b) = Ok (NextKey le) ->
  le = last_failure last (events (retry k n i last b)).
Proof.
  revert i last b. induction n as [|n IH]; intros i last b.
  - cbn. intros E. now inversion E.
  - retry_cases k b e b1 t1; cbn; intros E; try (now inversion E).
    apply IH in E. exact E.
Qed.

(** When it returns, the value is the one of a successful call on its
    key, which is the last event. *)
Lemma retry_key_returned (k : jsstring) (n i : nat) (last : thrown) (b : B)
    (v : T) :
  value (retry k n i last b) = Ok (Returned v) ->
  exists evs b0 t0,
    events (retry k n i last b) = evs ++ [EvAttempt provider k t0 None]
    /\ fn k b0 = (Ok v, final (retry k n i last b), t0).
Proof.
  revert i last b. induction n as [|n IH]; intros i last b.
  - cbn. discriminate.
  - retry_cases k b e b1 t1; cbn; intros E; try discriminate.
    + inversion E; subst. exists [], b, t1. split; [reflexivity|assumption].
    + apply IH in E. destruct E as (evs & b0 & t0 & E1 & E2).
      exists (EvAttempt provider k t1 (Some e) :: EvDelay 500 :: evs), b0, t0.
      rewrite E1. split; [reflexivity|assumption].
Qed.

(** With budget left it calls the operation at least once. *)
Lemma retry_key_first (k : jsstring) (n i : nat) (last : thrown) (b : B) :
  1 <= n ->
  exists rest,
    events (retry k n i last b)
    = EvAttempt provider k (events (fn k b))
        (match value (fn k b) with Ok _ => None | Throw e => Some e end)
      :: rest.
Proof.
  intros Hn. destruct n as [|n]; [lia|].
  retry_cases k b e b1 t1; cbn; eauto.
Qed.

(** With budget left, a successful call returns at once. *)
Lemma retry_key_success (k : jsstring) (n i : nat) (last : thrown) (b : B)
    (v : T) :
  1 <= n -> value (fn k b) = Ok v ->
  retry k n i last b
  = (Ok (Returned v), final (fn k b),
     [EvAttempt provider k (events (fn k b)) None]).
Proof.
  intros Hn Hv. destruct n as [|n]; [lia|]. rewrite retry_key_S.
  destruct (fn k b) as [[r b1] t1]. cbn in Hv. subst r. reflexivity.
Qed.

(** If the operation fails on every call, the loop of a key moves on. *)
Lemma retry_key_fails (k : jsstring) (n i : nat) (last : thrown) (b : B) :
  (forall b0, exists e, value (fn k b0) = Throw e) ->
  exists le, value (retry k n i last b) = Ok (NextKey le).
Proof.
  intros Hfail. revert i last b. induction n as [|n IH]; intros i last b.
  - eexists. reflexivity.
  - destruct (Hfail b) as [e0 He0].
    retry_cases k b e b1 t1; cbn; eauto; discriminate.
Qed.

(** Case analysis on how the loop of the first key ends. *)
Ltac key_cases k last b x Ex :=
  rewrite each_key_cons; cbv zeta;
  destruct (retry_key_total k maxR 0 last b) as [x Ex];
  rewrite Ex; destruct x as [?v|?le]; cbn [value final events fst snd].

Lemma attempts_on_app (k : jsstring) (t1 t2 : list Event) :
  attempts_on k (t1 ++ t2) = attempts_on k t1 + attempts_on k t2.
Proof. unfold attempts_on. now rewrite filter_app, length_app. Qed.

Lemma retry_key_attempts_on (k k' : jsstring) (n i : nat) (last : thrown)
    (b : B) :
  attempts_on k' (events (retry k n i last b))
  <= if key_eq_dec k k' then n else 0.
Proof.
  pose proof (retry_key_events k n i last b) as Hev.
  pose proof (retry_key_bound k n i last b) as Hb.
  unfold attempts_on.
  induction (events (retry k n i last b)) as [|ev evs IH]; cbn in *.
  - destruct (key_eq_dec k k'); lia.
  - inversion Hev as [|? ? Hhd Htl]; subst.
    destruct Hhd as [-> | (t & f & ->)]; cbn in *.
    + now apply IH.
    + destruct (key_eq_dec k' k) as [->|Hne].
      * destruct (key_eq_dec k k) as [_|C]; [|contradiction].
        cbn. specialize (IH Htl).
        destruct (key_eq_dec k k) as [_|C]; [|contradiction].
        assert (length (filter (is_attempt_on k) evs)
                <= length (filter is_attempt evs)) as Hle.
        { clear. induction evs as [|[ ] evs IH]; cbn; try lia.
          destruct (key_eq_dec k apiKey); cbn; lia. }
        lia.
      * destruct (key_eq_dec k k') as [->|_]; [contradiction|].
        apply IH; [assumption|lia].
Qed.

(** Over the whole pool, the operation is called on a key at most
    [maxR] times for each place the key has in the pool. *)
Lemma each_key_bound (k' : jsstring) (keys : list jsstring) (last : thrown)
    (b : B) :
  attempts_on k' (events (keys_loop keys last b))
  <= maxR * count_occ key_eq_dec keys k'.
Proof.
  revert last b. induction keys as [|k keys IH]; intros last b.
  - cbn. lia.
  - pose proof (retry_key_attempts_on k k' maxR 0 last b) as Hk.
    key_cases k last b x Ex; cbn [count_occ];
      try rewrite attempts_on_app;
      try specialize (IH le (final (retry k maxR 0 last b)));
      destruct (key_eq_dec k k'); lia.
Qed.

Lemma each_key_no_delay (keys : list jsstring) (last : thrown) (b : B) :
  1 < nkeys ->
  Forall (fun ev => is_delay ev = false) (events (keys_loop keys last b)).
Proof.
  intros Hn. revert last b. induction keys as [|k keys IH]; intros last b.
  - constructor.
  - pose proof (retry_key_no_delay k maxR 0 last b Hn) as Hk.
    key_cases k last b x Ex; [assumption|].
    apply Forall_app. split; [assumption|apply IH].
Qed.

(** Every event of the loops is an attempt on a key of the pool or a
    delay of 500 ms. *)
Lemma each_key_events (keys : list jsstring) (last : thrown) (b : B) :
  Forall (fun ev => ev = EvDelay 500
                    \/ exists k t f, In k keys
                                     /\ ev = EvAttempt provider k t f)
         (events (keys_loop keys last b)).
Proof.
  revert last b. induction keys as [|k keys IH]; intros last b.
  - constructor.
  - pose proof (retry_key_events k maxR 0 last b) as Hk.
    assert (Forall (fun ev => ev = EvDelay 500
                    \/ exists k0 t f, In k0 (k :: keys)
                                      /\ ev = EvAttempt provider k0 t f)
                   (events (retry k maxR 0 last b))) as Hk'.
    { eapply Forall_impl; [|exact Hk].
      intros ev [->|(t & f & ->)]; [now left|].
      right. exists k, t, f. split; [now left|reflexivity]. }
    key_cases k last b x Ex; [assumption|].
    apply Forall_app. split; [assumption|].
    eapply Forall_impl; [|apply IH].
    intros ev [->|(k0 & t & f & Hin & ->)]; [now left|].
    right. exists k0, t, f. split; [now right|reflexivity].
Qed.

Lemma last_failure_app (init : thrown) (t1 t2 : list Event) :
  last_failure init (t1 ++ t2) = last_failure (last_failure init t1) t2.
Proof. apply fold_left_app. Qed.

(** The loops end in a value or in [throw lastError], and what is thrown
    is what the last failed attempt threw. *)
Lemma each_key_last (keys : list jsstring) (last : thrown) (b : B)
    (e : thrown) :
  value (keys_loop keys last b) = Throw e ->
  e = last_failure last (events (keys_loop keys last b)).
Proof.
  revert last b. induction keys as [|k keys IH]; intros last b.
  - cbn. intros E. now inversion E.
  - pose proof (retry_key_last k maxR 0 last b) as Hk.
    key_cases k last b x Ex; [discriminate|].
    intros E. apply IH in E. rewrite last_failure_app.
    now rewrite <- (Hk le Ex).
Qed.

(** A value the loops return is the value of a successful call on a key
    of the pool, and that call is the last event. *)
Lemma each_key_returned (keys : list jsstring) (last : thrown) (b : B)
    (v : T) :
  value (keys_loop keys last b) = Ok v ->
  exists evs k b0 t0,
    In k keys
    /\ events (keys_loop keys last b) = evs ++ [EvAttempt provider k t0 None]
    /\ fn k b0 = (Ok v, final (keys_loop keys last b), t0).
Proof.
  revert last b. induction keys as [|k keys IH]; intros last b.
  - cbn. discriminate.
  - pose proof (retry_key_returned k maxR 0 last b) as Hk.
    key_cases k last b x Ex.
    + intros E. inversion E; subst.
      destruct (Hk v Ex) as (evs & b0 & t0 & E1 & E2).
      exists evs, k, b0, t0. split; [now left|]. split; assumption.
    + intros E. destruct (IH _ _ E) as (evs & k0 & b0 & t0 & Hin & E1 & E2).
      exists (events (retry k maxR 0 last b) ++ evs), k0, b0, t0.
      split; [now right|]. split; [|assumption].
      rewrite E1. now rewrite app_assoc.
Qed.

(** Fast failover: a quota error with more than one key in the pool
    ends the loop of the key at once, with no delay. *)
Lemma retry_key_fast (k : jsstring) (n i : nat) (last : thrown) (b : B)
    (e : thrown) :
  1 <= n -> 1 < nkeys -> value (fn k b) = Throw e -> isQuotaError e = true ->
  retry k n i last b
  = (Ok (NextKey e), final (fn k b),
     [EvAttempt provider k (events (fn k b)) (Some e)]).
Proof.
  intros Hb Hn Hv Hq. destruct n as [|n]; [lia|]. rewrite retry_key_S.
  destruct (fn k b) as [[r b1] t1]. cbn in Hv. subst r.
  cbv iota beta. cbn [final events fst snd].
  apply Nat.ltb_lt in Hn. now rewrite Hq, Hn.
Qed.

(** Retry in place: a quota error on a single-key pool with budget left
    is followed by a delay of 500 ms and another call on the same key. *)
Lemma retry_key_slow (k : jsstring) (n i : nat) (last : thrown) (b : B)
    (e : thrown) :
  nkeys <= 1 -> value (fn k b) = Throw e -> isQuotaError e = true ->
  i < maxR - 1 -> 2 <= n ->
  exists f rest,
    events (retry k n i last b)
    = EvAttempt provider k (events (fn k b)) (Some e)
      :: EvDelay 500
      :: EvAttempt provider k (events (fn k (final (fn k b)))) f
      :: rest.
Proof.
  intros Hn Hv Hq Hi Hb. destruct n as [|[|n]]; try lia.
  rewrite retry_key_S.
  destruct (fn k b) as [[r b1] t1] eqn:Efn. cbn in Hv. subst r.
  cbv iota beta.
  assert ((1 <? nkeys) = false) as -> by (apply Nat.ltb_ge; lia).
  assert ((i <? maxR - 1) = true) as -> by (now apply Nat.ltb_lt).
  rewrite Hq. cbn [andb value final events fst snd].
  destruct (retry_key_first k (S n) (S i) e b1) as [rest ->]; [lia|].
  eauto.
Qed.

(** A single key that keeps failing with quota errors is called [maxR]
    times, with a delay between two calls. *)
Lemma retry_key_single (k : jsstring) (n i : nat) (last : thrown) (b : B) :
  nkeys <= 1 ->
  (forall b0, exists e, value (fn k b0) = Throw e /\ isQuotaError e = true) ->
  i + n = maxR ->
  map is_delay (events (retry k n i last b)) = alternating n.
Proof.
  intros Hn Hq. revert i last b.
  induction n as [|n IH]; intros i last b Hi; [reflexivity|].
  rewrite retry_key_S.
  destruct (Hq b) as (e & He & Hqe).
  destruct (fn k b) as [[r b1] t1]. cbn in He. subst r.
  cbv iota beta.
  assert ((1 <? nkeys) = false) as -> by (apply Nat.ltb_ge; lia).
  rewrite Hqe. cbn [andb].
  destruct n as [|n].
  - assert ((i <? maxR - 1) = false) as -> by (apply Nat.ltb_ge; lia).
    reflexivity.
  - assert ((i <? maxR - 1) = true) as -> by (apply Nat.ltb_lt; lia).
    cbn [value final events fst snd map is_delay].
    rewrite IH by lia. reflexivity.
Qed.

(** If the operation fails on every call on a key, no attempt of the
    loop of that key is a success. *)
Lemma retry_key_all_failed (k : jsstring) (n i : nat) (last : thrown)
    (b : B) :
  (forall b0, exists e, value (fn k b0) = Throw e) ->
  Forall (fun ev => is_attempt ev = true -> is_failure ev = true)
         (events (retry k n i last b)).
Proof.
  intros Hfail. revert i last b.
  induction n as [|n IHn]; intros i last b; [constructor|].
  destruct (Hfail b) as [e0 He0].
  retry_cases k b e b1 t1; cbn; try discriminate;
    repeat (constructor; [reflexivity|]); auto.
Qed.

(** When the loop of a key moves on, none of its attempts succeeded. *)
Lemma retry_key_moved_failed (k : jsstring) (n i : nat) (last : thrown)
    (b : B) (le : thrown) :
  value (retry k n i last b) = Ok (NextKey le) ->
  Forall (fun ev => is_attempt ev = true -> is_failure ev = true)
         (events (retry k n i last b)).
Proof.
  revert i last b. induction n as [|n IHn]; intros i last b; [constructor|].
  retry_cases k b e b1 t1; cbn; intros E; try discriminate;
    repeat (constructor; [reflexivity|]); eauto.
Qed.

(** When the loops throw, none of the attempts succeeded. *)
Lemma each_key_thrown_failed (keys : list jsstring) (last : thrown) (b : B)
    (e : thrown) :
  value (keys_loop keys last b) = Throw e ->
  Forall (fun ev => is_attempt ev = true -> is_failure ev = true)
         (events (keys_loop keys last b)).
Proof.
  revert last b. induction keys as [|k keys IH]; intros last b.
  - intros _. constructor.
  - pose proof (retry_key_moved_failed k maxR 0 last b) as Hk.
    key_cases k last b x Ex; [discriminate|].
    intros E. apply Forall_app. split; [now apply (Hk le)|now apply IH].
Qed.

(** When the loops throw and the budget is at least one attempt, the
    operation was called on every key. *)
Lemma each_key_thrown_all (keys : list jsstring) (last : thrown) (b : B)
    (e : thrown) :
  1 <= maxR ->
  value (keys_loop keys last b) = Throw e ->
  forall k, In k keys ->
            1 <= attempts_on k (events (keys_loop keys last b)).
Proof.
  intros Hb. revert last b. induction keys as [|k keys IH]; intros last b.
  - intros _ k [].
  - destruct (retry_key_first k maxR 0 last b Hb) as [rest Hrest].
    key_cases k last b x Ex; [discriminate|].
    intros E k' [<-|Hin]; rewrite attempts_on_app.
    + rewrite Hrest. unfold attempts_on. cbn [filter is_attempt_on].
      destruct (key_eq_dec k k) as [_|C]; [cbn; lia|contradiction].
    + specialize (IH _ _ E k' Hin). lia.
Qed.

(** Some keys of the pool always fail with a quota error, the others
    always succeed: the loops return from the first good key. *)
Section Scenario.
Variable pool : list jsstring.
Variable bad : jsstring -> bool.
Hypothesis Hbudget : 1 <= maxR.
Hypothesis Hbad : forall k b0, In k pool -> bad k = true ->
  exists e, value (fn k b0) = Throw e /\ isQuotaError e = true.
Hypothesis Hgood : forall k b0, In k pool -> bad k = false ->
  exists v, value (fn k b0) = Ok v.

Lemma each_key_scenario (keys : list jsstring) (last : thrown) (b : B) :
  incl keys pool ->
  (exists k, In k keys /\ bad k = false) ->
  exists v pre k post evs t0,
    keys = pre ++ k :: post
    /\ Forall (fun k' => bad k' = true) pre
    /\ bad k = false
    /\ value (keys_loop keys last b) = Ok v
    /\ events (keys_loop keys last b) = evs ++ [EvAttempt provider k t0 None]
    /\ Forall (fun ev => is_attempt ev = true -> is_failure ev = true) evs
    /\ (1 < nkeys -> attempted_keys evs = pre).
Proof.
  revert last b. induction keys as [|k keys IH]; intros last b Hincl Hex.
  - destruct Hex as (k & [] & _).
  - assert (In k pool) as Hk by (apply Hincl; now left).
    assert (incl keys pool) as Hincl'
      by (intros k' Hin; apply Hincl; now right).
    destruct (bad k) eqn:Ek.
    + (* a bad key: move on *)
      assert (exists k0, In k0 keys /\ bad k0 = false) as Hex'.
      { destruct Hex as (k0 & [<-|Hin] & Hk0); [congruence|eauto]. }
      assert (forall b0, exists e, value (fn k b0) = Throw e) as Hfail.
      { intros b0. destruct (Hbad k b0 Hk Ek) as (e & He & _). eauto. }
      destruct (retry_key_fails k maxR 0 last b Hfail) as [le0 Hle].
      pose proof (retry_key_all_failed k maxR 0 last b Hfail) as Hnosucc.
      key_cases k last b x Ex; [rewrite Hle in Ex; discriminate|].
      destruct (IH le (final (retry k maxR 0 last b)) Hincl' Hex')
        as (v & pre & k1 & post & evs & t0 & -> & Hpre & Hk1 & Hv & Hevs
            & Hfailed & Hfastpre).
      exists v, (k :: pre), k1, post,
        (events (retry k maxR 0 last b) ++ evs), t0.
      repeat split; trivial.
      * constructor; assumption.
      * rewrite Hevs. now rewrite app_assoc.
      * apply Forall_app. split; assumption.
      * intros Hmany. unfold attempted_keys. rewrite flat_map_app.
        fold (attempted_keys evs). rewrite (Hfastpre Hmany).
        destruct (Hbad k b Hk Ek) as (e & He & Hq).
        rewrite (retry_key_fast k maxR 0 last b e Hbudget Hmany He Hq).
        reflexivity.
    + (* a good key: return *)
      destruct (Hgood k b Hk Ek) as (v & Hv).
      rewrite each_key_cons. cbv zeta.
      rewrite (retry_key_success k maxR 0 last b v Hbudget Hv).
      cbn [value final events fst snd].
      exists v, [], k, keys, [], (events (fn k b)).
      repeat split; trivial; constructor.
Qed.

End Scenario.

(** If the operation fails on every call on the keys, no attempt of the
    loops is a success. *)
Lemma each_key_all_failed (keys : list jsstring) (last : thrown) (b : B) :
  (forall k b0, In k keys -> exists e, value (fn k b0) = Throw e) ->
  Forall (fun ev => is_attempt ev = true -> is_failure ev = true)
         (events (keys_loop keys last b)).
Proof.
  revert last b. induction keys as [|k keys IH]; intros last b Hfail.
  - constructor.
  - pose proof (retry_key_all_failed k maxR 0 last b
                  (fun b0 => Hfail k b0 (or_introl eq_refl))) as Hretry.
    key_cases k last b x Ex; [assumption|].
    apply Forall_app. split; [assumption|].
    apply IH. intros k' b0 Hin. apply Hfail. now right.
Qed.

(** With budget and a key, the loops start with a call on the first
    key. *)
Lemma each_key_first (k : jsstring) (keys : list jsstring) (last : thrown)
    (b : B) :
  1 <= maxR ->
  exists t f rest,
    events (keys_loop (k :: keys) last b) = EvAttempt provider k t f :: rest.
Proof.
  intros Hb.
  destruct (retry_key_first k maxR 0 last b Hb) as [rest Hrest].
  rewrite each_key_cons. cbv zeta.
  destruct (retry_key_total k maxR 0 last b) as [x Ex].
  rewrite Ex. destruct x; cbn [value final events fst snd];
    rewrite Hrest; cbn; eauto.
Qed.

End RetryLoops.

(** *** The retry policy as a whole *)

Lemma withProviderRetry_run {T} (p : ModelProvider) (fn : jsstring -> M T)
    (maxR : nat) (b : B) :
  keysOf p <> [] ->
  exists shuffled b1,
    Permutation shuffled (keysOf p)
    /\ withProviderRetry p fn maxR b
       = each_key p fn maxR (length (keysOf p)) shuffled None b1.
Proof.
  intros Hne. unfold withProviderRetry.
  destruct (keysOf p) as [|k0 ks] eqn:Ek; [contradiction|].
  cbn [length Nat.eqb].
  destruct (shuffleArray_perm (k0 :: ks) b) as (sh & b1 & Esh & Hperm).
  exists sh, b1. split; [assumption|].
  unfold bind. rewrite Esh.
  rewrite (Permutation_length Hperm). cbn [length].
  now destruct (each_key p fn maxR (S (length ks)) sh None b1) as [[r b2] t2].
Qed.

Lemma withProviderRetry_no_keys {T} (p : ModelProvider) (fn : jsstring -> M T)
    (maxR : nat) (b : B) :
  keysOf p = [] ->
  withProviderRetry p fn maxR b
  = (Throw (Some (new_Error
       (lit "No API keys available for provider: " ++ provider_name p))),
     b, []).
Proof. intros E. unfold withProviderRetry. now rewrite E. Qed.

(** *** What the attempts hold, and a budget of one attempt *)

Section Calls.
Variable T : Type.
Variable provider : ModelProvider.
Variable fn : jsstring -> M T.

Lemma retry_key_calls (maxR nkeys : nat) (k : jsstring) (n i : nat)
    (last : thrown) (b : B) :
  Forall (fun ev => ev = EvDelay 500 \/ call_of provider fn k ev)
         (events (retry_key provider fn maxR nkeys k n i last b)).
Proof.
  revert i last b. induction n as [|n IH]; intros i last b.
  - constructor.
  - rewrite retry_key_S.
    destruct (fn k b) as [[[v|e] b1] t1] eqn:Efn;
      [| destruct (isQuotaError e && (1 <? nkeys));
         [| destruct (isQuotaError e && (i <? maxR - 1))]];
      cbn;
      repeat (constructor;
              [first [now left
                     | right; exists b; rewrite Efn; reflexivity]|]);
      auto.
Qed.

Lemma each_key_calls (maxR nkeys : nat) (keys : list jsstring)
    (last : thrown) (b : B) :
  Forall (fun ev => ev = EvDelay 500 \/ exists k, In k keys /\ call_of provider fn k ev)
         (events (each_key provider fn maxR nkeys keys last b)).
Proof.
  revert last b. induction keys as [|k keys IH]; intros last b.
  - constructor.
  - pose proof (retry_key_calls maxR nkeys k maxR 0 last b) as Hk.
    assert (Forall (fun ev => ev = EvDelay 500
                      \/ exists k0, In k0 (k :: keys) /\ call_of provider fn k0 ev)
              (events (retry_key provider fn maxR nkeys k maxR 0 last b)))
      as Hk'.
    { eapply Forall_impl; [|exact Hk].
      intros ev [->|Hc]; [now left|]. right. exists k. split; [now left|easy]. }
    rewrite each_key_cons. cbv zeta.
    destruct (retry_key_total T provider fn maxR nkeys k maxR 0 last b)
      as [x Ex].
    rewrite Ex. destruct x as [v|le]; cbn [value final events fst snd];
      [assumption|].
    apply Forall_app. split; [assumption|].
    eapply Forall_impl; [|apply IH].
    intros ev [->|(k0 & Hin & Hc)]; [now left|].
    right. exists k0. split; [now right|assumption].
Qed.

(** With a budget of one attempt per key, the loops call the operation
    once on each key in turn, until one call succeeds. *)
Lemma each_key_once (nkeys : nat) (k : jsstring) (rest : list jsstring)
    (last : thrown) (b : B) :
  each_key provider fn 1 nkeys (k :: rest) last b =
  match fn k b with
  | (Ok v, b1, t1) => (Ok v, b1, [EvAttempt provider k t1 None])
  | (Throw e, b1, t1) =>
      let o := each_key provider fn 1 nkeys rest e b1 in
      (value o, final o, EvAttempt provider k t1 (Some e) :: events o)
  end.
Proof.
  rewrite each_key_cons. cbv zeta. rewrite retry_key_S.
  destruct (fn k b) as [[[v|e] b1] t1]; [reflexivity|].
  replace (0 <? 1 - 1) with false by reflexivity.
  rewrite andb_false_r.
  destruct (isQuotaError e && (1 <? nkeys)); reflexivity.
Qed.

(** When they end in a throw, every key was called, once, in order. *)
Lemma each_key_once_exhausts (nkeys : nat) (keys : list jsstring)
    (last : thrown) (b : B) (e : thrown) :
  value (each_key provider fn 1 nkeys keys last b) = Throw e ->
  attempted_keys (events (each_key provider fn 1 nkeys keys last b)) = keys.
Proof.
  revert last b. induction keys as [|k keys IH]; intros last b.
  - reflexivity.
  - rewrite each_key_once.
    destruct (fn k b) as [[[v|e1] b1] t1]; cbn; [discriminate|].
    intros E. f_equal. now apply IH.
Qed.

(** If the operation throws error objects only, so do they. *)
Lemma each_key_once_objects (nkeys : nat) (keys : list jsstring)
    (last : thrown) (b : B) (e : thrown) :
  (forall k, throws_objects (fn k)) ->
  last <> None \/ keys <> [] ->
  value (each_key provider fn 1 nkeys keys last b) = Throw e -> e <> None.
Proof.
  intros Hfn. revert last b.
  induction keys as [|k keys IH]; intros last b Hor.
  - cbn. intros E. inversion E; subst. destruct Hor; congruence.
  - rewrite each_key_once.
    destruct (fn k b) as [[[v|e1] b1] t1] eqn:Efn; cbn; [discriminate|].
    apply IH. left. apply (Hfn k b). now rewrite Efn.
Qed.

End Calls.

Lemma once_exhausts {T} (p : ModelProvider) (fn : jsstring -> M T) (b : B)
    (e : thrown) :
  value (withProviderRetry p fn 1 b) = Throw e ->
  Permutation (attempted_keys (events (withProviderRetry p fn 1 b)))
              (keysOf p).
Proof.
  destruct (keysOf p) as [|k0 ks] eqn:Ek.
  - rewrite withProviderRetry_no_keys by assumption. reflexivity.
  - assert (keysOf p <> []) as Hne by (rewrite Ek; discriminate).
    destruct (withProviderRetry_run p fn 1 b Hne)
      as (sh & b1 & Hperm & ->).
    intros E. rewrite (each_key_once_exhausts _ _ _ _ _ _ _ _ E).
    now rewrite <- Ek.
Qed.

Lemma once_objects {T} (p : ModelProvider) (fn : jsstring -> M T) :
  (forall k, throws_objects (fn k)) ->
  throws_objects (withProviderRetry p fn 1).
Proof.
  intros Hfn b e.
  destruct (keysOf p) as [|k0 ks] eqn:Ek.
  - rewrite withProviderRetry_no_keys by assumption.
    cbn. intros E. inversion E. discriminate.
  - assert (keysOf p <> []) as Hne by (rewrite Ek; discriminate).
    destruct (withProviderRetry_run p fn 1 b Hne)
      as (sh & b1 & Hperm & ->).
    apply each_key_once_objects; [assumption|]. right.
    intros ->. apply Permutation_nil in Hperm. congruence.
Qed.

(** What the retry policy emits are delays of 500 ms and records of
    calls of the operation on keys of the pool. *)
Lemma withProviderRetry_calls {T} (p : ModelProvider) (fn : jsstring -> M T)
    (maxR : nat) (b : B) :
  Forall (fun ev => ev = EvDelay 500
                    \/ exists k, In k (keysOf p) /\ call_of p fn k ev)
         (events (withProviderRetry p fn maxR b)).
Proof.
  destruct (keysOf p) as [|k0 ks] eqn:Ek.
  - rewrite withProviderRetry_no_keys by assumption. constructor.
  - assert (keysOf p <> []) as Hne by (rewrite Ek; discriminate).
    destruct (withProviderRetry_run p fn maxR b Hne)
      as (sh & b1 & Hperm & ->).
    eapply Forall_impl; [|apply each_key_calls].
    intros ev [->|(k & Hin & Hc)]; [now left|].
    right. exists k. split; [|assumption].
    rewrite <- Ek. eapply Permutation_in; eassumption.
Qed.

(** A value the retry policy returns is the value of a successful call
    on a key of the pool. *)
Lemma withProviderRetry_returned {T} (p : ModelProvider)
    (fn : jsstring -> M T) (maxR : nat) (b : B) (v : T) :
  value (withProviderRetry p fn maxR b) = Ok v ->
  exists k b0, In k (keysOf p) /\ value (fn k b0) = Ok v.
Proof.
  destruct (keysOf p) as [|k0 ks] eqn:Ek.
  - rewrite withProviderRetry_no_keys by assumption. discriminate.
  - assert (keysOf p <> []) as Hne by (rewrite Ek; discriminate).
    destruct (withProviderRetry_run p fn maxR b Hne)
      as (sh & b1 & Hperm & ->).
    intros E.
    destruct (each_key_returned _ _ _ _ _ _ _ _ _ E)
      as (evs & k & b0 & t0 & Hin & _ & Efn).
    exists k, b0. split.
    + rewrite <- Ek. eapply Permutation_in; eassumption.
    + now rewrite Efn.
Qed.

(** *** The operations of the chains *)

Lemma throws_objects_call {A} (op : B -> (Error + A) * B) :
  throws_objects (call op).
Proof.
  intros b e. unfold call. destruct (op b) as [[err|a] b1]; cbn.
  - intros E. inversion E. discriminate.
  - discriminate.
Qed.

(** Closes a goal [throws_objects m] for code built from the monad
    operations and the outside calls. *)
Ltac objects :=
  repeat first
    [ apply throws_objects_ret
    | apply throws_objects_throw
    | apply throws_objects_emit
    | apply throws_objects_pure
    | apply throws_objects_call
    | apply throws_objects_bind; [|intros]
    | apply throws_objects_try; intros
    | match goal with
      | |- throws_objects (if ?c then _ else _) => destruct c
      end ].

Lemma scanPrimary_objects files modelName k :
  throws_objects (scanPrimary files modelName k).
Proof. unfold scanPrimary, console, gemini_call. objects. Qed.

Lemma scanFallback_objects files k : throws_objects (scanFallback files k).
Proof. unfold scanFallback, console, gemini_call. objects. Qed.

Lemma scanOpenRouter_objects fs promptText k :
  throws_objects (scanOpenRouter fs promptText k).
Proof. unfold scanOpenRouter, http_call. objects. Qed.

Lemma callGroq_objects k promptText fs model :
  throws_objects (callGroq k promptText fs model).
Proof. unfold callGroq, http_call. objects. Qed.

Lemma analyzeWithGroq_objects fs promptText :
  throws_objects (analyzeWithGroq fs promptText).
Proof.
  unfold analyzeWithGroq.
  destruct (negb (truthy getGroqApiKey)).
  - apply throws_objects_throw.
  - apply throws_objects_try. intros e.
    apply throws_objects_bind; [apply throws_objects_emit|].
    intros _. apply callGroq_objects.
Qed.

Lemma analyzeWithOpenRouter_objects fs promptText :
  throws_objects (analyzeWithOpenRouter fs promptText).
Proof.
  unfold analyzeWithOpenRouter. apply once_objects.
  intros k. apply scanOpenRouter_objects.
Qed.

(** The four links throw error objects. *)
Lemma link_objects files modelName b :
  (forall e, value (link1 files modelName b) = Throw e -> e <> None)
  /\ (forall e, value (link2 files modelName b) = Throw e -> e <> None)
  /\ (forall e, value (link3 files modelName b) = Throw e -> e <> None)
  /\ (forall e, value (link4 files modelName b) = Throw e -> e <> None).
Proof.
  repeat split; intros e.
  - apply (once_objects gemini _ (scanPrimary_objects files modelName)).
  - apply (once_objects gemini _ (scanFallback_objects files)).
  - apply analyzeWithGroq_objects.
  - apply analyzeWithOpenRouter_objects.
Qed.

(** A link whose handler logs the message of the error and lets the
    chain go on. *)
Lemma layer_run {A} (m : M A) (warn : thrown -> Event) (h : thrown -> M unit)
    (b : B) :
  throws_objects m ->
  (forall err b1, h (Some err) b1 = (Ok tt, b1, [warn (Some err)])) ->
  layer m h b =
  match value (m b) with
  | Ok v => (Ok (Some v), final (m b), events (m b))
  | Throw e => (Ok None, final (m b), events (m b) ++ [warn e])
  end.
Proof.
  intros Hobj Hh. unfold layer, try_catch, bind at 1.
  pose proof (Hobj b) as Ho.
  destruct (m b) as [[[v|e] b1] t1]; cbn [value final events fst snd] in *.
  - unfold ret. now rewrite app_nil_r.
  - destruct e as [err|]; [|now destruct (Ho None)].
    unfold bind. rewrite Hh. reflexivity.
Qed.

Lemma layer1_run files modelName b :
  layer1 files modelName b =
  match value (link1 files modelName b) with
  | Ok v => (Ok (Some v), final (link1 files modelName b),
             events (link1 files modelName b))
  | Throw e => (Ok None, final (link1 files modelName b),
                events (link1 files modelName b) ++ [warn1 e])
  end.
Proof.
  unfold layer1, link1. apply layer_run.
  - apply once_objects. intros k. apply scanPrimary_objects.
  - reflexivity.
Qed.

Lemma layer2_run files b :
  let r := withProviderRetry gemini (scanFallback files) 1 b in
  layer2 files b =
  match value r with
  | Ok v => (Ok (Some v), final r, events r)
  | Throw e => (Ok None, final r, events r ++ [warn2 e])
  end.
Proof.
  unfold layer2. apply layer_run.
  - apply once_objects. intros k. apply scanFallback_objects.
  - reflexivity.
Qed.

Lemma layer3_run files b :
  let r := analyzeWithGroq (visionFiles files) analysisPrompt b in
  layer3 files b =
  match value r with
  | Ok v => (Ok (Some v), final r, log3 :: events r)
  | Throw e => (Ok None, final r, log3 :: events r ++ [warn3 e])
  end.
Proof.
  intros r. unfold layer3.
  rewrite (layer_run _ warn3).
  - unfold console. rewrite bind_emit. fold r.
    cbn [value final events fst snd]. now destruct (value r).
  - apply throws_objects_bind; [apply throws_objects_emit|].
    intros _. apply analyzeWithGroq_objects.
  - reflexivity.
Qed.

Lemma layer4_run files b :
  let r := analyzeWithOpenRouter (visionFiles files) analysisPrompt b in
  layer4 files b =
  match value r with
  | Ok v => (Ok v, final r, log4 :: events r)
  | Throw e => (Throw (option_map scan_failed e), final r,
                log4 :: events r ++ [all_failed])
  end.
Proof.
  intros r. unfold layer4, try_catch, console. rewrite bind_emit. fold r.
  pose proof (analyzeWithOpenRouter_objects (visionFiles files)
                analysisPrompt b) as Ho. fold r in Ho.
  destruct r as [[[v|e] b1] t1]; cbn [value final events fst snd] in *.
  - reflexivity.
  - destruct e as [err|]; [|now destruct (Ho None)].
    reflexivity.
Qed.

(** [analyzeExamPaper] in terms of its four links. *)
Lemma analyzeExamPaper_links files modelName b :
  let r1 := link1 files modelName b in
  let r2 := link2 files modelName b in
  let r3 := link3 files modelName b in
  let r4 := link4 files modelName b in
  analyzeExamPaper files modelName b =
  match value r1 with
  | Ok v => (Ok v, final r1, events r1)
  | Throw e1 =>
    match value r2 with
    | Ok v => (Ok v, final r2, events r1 ++ warn1 e1 :: events r2)
    | Throw e2 =>
      match value r3 with
      | Ok v =>
          (Ok v, final r3,
           events r1 ++ warn1 e1 :: events r2 ++ warn2 e2 :: log3 :: events r3)
      | Throw e3 =>
        match value r4 with
        | Ok v =>
            (Ok v, final r4,
             events r1 ++ warn1 e1 :: events r2 ++ warn2 e2 :: log3
             :: events r3 ++ warn3 e3 :: log4 :: events r4)
        | Throw e4 =>
            (Throw (option_map scan_failed e4), final r4,
             events r1 ++ warn1 e1 :: events r2 ++ warn2 e2 :: log3
             :: events r3 ++ warn3 e3 :: log4 :: events r4 ++ [all_failed])
        end
      end
    end
  end.
Proof.
  intros r1 r2 r3 r4. unfold analyzeExamPaper.
  pose proof (layer1_run files modelName b) as E1. fold r1 in E1.
  destruct (value r1) as [v1|e1].
  { rewrite (bind_ok _ _ _ _ _ _ _ _ E1). cbn. now rewrite app_nil_r. }
  rewrite (bind_ok _ _ _ _ _ _ _ _ E1).
  pose proof (layer2_run files (final r1)) as E2. cbv zeta in E2.
  change (withProviderRetry gemini (scanFallback files) 1 (final r1))
    with r2 in E2.
  destruct (value r2) as [v2|e2].
  { rewrite (bind_ok _ _ _ _ _ _ _ _ E2). cbn.
    rewrite app_nil_r. now rewrite <- app_assoc. }
  rewrite (bind_ok _ _ _ _ _ _ _ _ E2).
  pose proof (layer3_run files (final r2)) as E3. cbv zeta in E3.
  change (analyzeWithGroq (visionFiles files) analysisPrompt (final r2))
    with r3 in E3.
  destruct (value r3) as [v3|e3].
  { rewrite (bind_ok _ _ _ _ _ _ _ _ E3). cbn.
    rewrite app_nil_r. now rewrite <- !app_assoc. }
  rewrite (bind_ok _ _ _ _ _ _ _ _ E3).
  pose proof (layer4_run files (final r3)) as E4. cbv zeta in E4.
  change (analyzeWithOpenRouter (visionFiles files) analysisPrompt (final r3))
    with r4 in E4.
  rewrite E4.
  destruct (value r4) as [v4|e4]; cbn; now rewrite <- !app_assoc.
Qed.

(** With a budget of one attempt the retry policy never waits: its
    events are records of calls on keys of the pool. *)
Lemma each_key_once_calls {T} (p : ModelProvider) (fn : jsstring -> M T)
    (nkeys : nat) (keys : list jsstring) (last : thrown) (b : B) :
  Forall (fun ev => exists k, In k keys /\ call_of p fn k ev)
         (events (each_key p fn 1 nkeys keys last b)).
Proof.
  revert last b. induction keys as [|k keys IH]; intros last b.
  - constructor.
  - rewrite each_key_once.
    assert (exists k0, In k0 (k :: keys)
              /\ call_of p fn k0
                   (EvAttempt p k (events (fn k b))
                      (match value (fn k b) with
                       | Ok _ => None
                       | Throw e => Some e
                       end))) as Hhead.
    { exists k. split; [now left|]. now exists b. }
    destruct (fn k b) as [[[v|e] b1] t1]; cbn in *.
    + constructor; [assumption|constructor].
    + constructor; [assumption|].
      eapply Forall_impl; [|apply IH].
      intros ev (k0 & Hin & Hc). exists k0. split; [now right|assumption].
Qed.

Lemma once_calls {T} (p : ModelProvider) (fn : jsstring -> M T) (b : B) :
  Forall (fun ev => exists k, In k (keysOf p) /\ call_of p fn k ev)
         (events (withProviderRetry p fn 1 b)).
Proof.
  destruct (keysOf p) as [|k0 ks] eqn:Ek.
  - rewrite withProviderRetry_no_keys by assumption. constructor.
  - assert (keysOf p <> []) as Hne by (rewrite Ek; discriminate).
    destruct (withProviderRetry_run p fn 1 b Hne)
      as (sh & b1 & Hperm & ->).
    eapply Forall_impl; [|apply each_key_once_calls].
    intros ev (k & Hin & Hc). exists k. split; [|assumption].
    rewrite <- Ek. eapply Permutation_in; eassumption.
Qed.

(** What the operations of the chains emit. *)
Lemma scanPrimary_events files modelName k b :
  events (scanPrimary files modelName k b)
  = [EvConsole (lit "Attempting scan with primary model: " ++ modelName);
     EvGemini k (primary_request files modelName)].
Proof.
  unfold scanPrimary, console, gemini_call, call, primary_request.
  rewrite bind_emit. cbn [events snd]. f_equal.
  unfold bind, emit.
  destruct (generateContent k _ b) as [[err|r] b1]; [reflexivity|].
  now destruct (JSON_parse _).
Qed.

Lemma scanFallback_events files k b :
  events (scanFallback files k b)
  = [EvConsole (lit "Attempting scan with Layer 2: gemini-2.0-flash-exp");
     EvGemini k (fallback_request files)].
Proof.
  unfold scanFallback, console, gemini_call, call, fallback_request.
  rewrite bind_emit. cbn [events snd]. f_equal.
  unfold bind, emit.
  destruct (generateContent k _ b) as [[err|r] b1]; [reflexivity|].
  now destruct (JSON_parse _).
Qed.

Lemma callGroq_events files k model b :
  events (callGroq k analysisPrompt (visionFiles files) model b)
  = [EvFetch (groq_request files k model)].
Proof.
  unfold callGroq, http_call, call, groq_request.
  unfold bind, emit.
  destruct (fetch _ b) as [[err|r] b1]; [reflexivity|].
  destruct (negb (ok r)); [reflexivity|]. cbn.
  destruct (response_json (body r)) as [err|d]; [reflexivity|]. cbn.
  destruct (choices0_content_strict d) as [err|c]; [reflexivity|]. cbn.
  now destruct (JSON_parse _).
Qed.

Lemma scanOpenRouter_events files k b :
  events (scanOpenRouter (visionFiles files) analysisPrompt k b)
  = [EvFetch (vision_request files k)].
Proof.
  unfold scanOpenRouter, http_call, call, vision_request.
  unfold bind, emit.
  destruct (fetch _ b) as [[err|r] b1]; [reflexivity|].
  destruct (negb (ok r)); [reflexivity|]. cbn.
  destruct (response_json (body r)) as [err|d]; [reflexivity|]. cbn.
  destruct (choices0_content_strict d) as [err|c]; [reflexivity|]. cbn.
  now destruct (JSON_parse _).
Qed.

(** The Groq link: requests to the Groq endpoint with the stored key
    string as it is, one per model at most, and no retry policy. *)
Lemma analyzeWithGroq_events files b :
  let evs := events (analyzeWithGroq (visionFiles files) analysisPrompt b) in
  Forall (fun ev => is_attempt ev = false) evs
  /\ Forall (fun ev => is_network ev = true ->
               exists model, ev = EvFetch (groq_request files
                                             (or_default getGroqApiKey [])
                                             model)
                             /\ Some (bearer_of ev) = getGroqApiKey) evs
  /\ map bearer_of (filter is_network evs)
     = firstn (length (filter is_network evs))
         [or_default getGroqApiKey []; or_default getGroqApiKey []].
Proof.
  unfold analyzeWithGroq.
  destruct getGroqApiKey as [[|c key]|] eqn:Ekey; cbn [truthy negb];
    try (cbn; repeat split; constructor).
  cbn [or_default].
  unfold try_catch.
  pose proof (callGroq_events files (c :: key) model_llama4 b) as E1.
  destruct (callGroq (c :: key) analysisPrompt (visionFiles files)
              model_llama4 b) as [[[v|e] b1] t1];
    cbn [events snd] in E1; subst t1.
  - cbn. repeat split; repeat constructor.
    intros _. exists model_llama4. split; reflexivity.
  - unfold console. rewrite bind_emit.
    rewrite (callGroq_events files (c :: key) model_llama32 b1).
    cbn. repeat split; repeat constructor; try discriminate.
    + intros _. exists model_llama4. split; reflexivity.
    + intros _. exists model_llama32. split; reflexivity.
Qed.

(** *** Answer refinement and chat titles *)

Lemma io_all_app (t1 t2 : list Event) :
  io_all (t1 ++ t2) = io_all t1 ++ io_all t2.
Proof. apply flat_map_app. Qed.

(** A kind of event that no call of the operation emits is emitted by
    no attempt. *)
Lemma io_all_calls {T} (p : ModelProvider) (fn : jsstring -> M T)
    (keys : list jsstring) (Q : Event -> bool) (evs : list Event) :
  Forall (fun ev => exists k, In k keys /\ call_of p fn k ev) evs ->
  (forall k b0, existsb Q (io_all (events (fn k b0))) = false) ->
  existsb Q (io_all evs) = false.
Proof.
  intros Hall HQ. induction Hall as [|ev evs (k & _ & b0 & ->) _ IH].
  - reflexivity.
  - change (io_all (EvAttempt p k (events (fn k b0))
                      match value (fn k b0) with
                      | Ok _ => None
                      | Throw e => Some e
                      end :: evs))
      with (io_all (events (fn k b0)) ++ io_all evs).
    rewrite existsb_app, HQ, IH. reflexivity.
Qed.

Lemma callOpenRouter_events q k model b :
  exists req, events (callOpenRouter q k model b) = [EvFetch req].
Proof.
  eexists. unfold callOpenRouter, http_call, call, bind, emit.
  destruct (fetch _ b) as [[err|r] b1]; [reflexivity|].
  destruct (negb (ok r)); [reflexivity|]. cbn.
  now destruct (response_json (body r)).
Qed.

Lemma callGemini_events q k model b :
  exists req, events (callGemini q k model b) = [EvGemini k req].
Proof.
  eexists. unfold callGemini, gemini_call, call, bind, emit.
  now destruct (generateContent _ _ b) as [[err|r] b1].
Qed.

Lemma openrouter_run_io q modelName provider b :
  existsb is_gemini_call
    (io_all (events (openrouter_run q modelName provider b))) = false.
Proof.
  eapply io_all_calls; [apply once_calls|].
  intros k b0. cbv beta.
  destruct (callOpenRouter_events q k
              (match provider with
               | openrouter => modelName
               | gemini => model_or_default
               end) b0) as [req ->].
  reflexivity.
Qed.

Lemma gemini_run_io q modelName provider b :
  existsb is_fetch
    (io_all (events (gemini_run q modelName provider b))) = false.
Proof.
  eapply io_all_calls; [apply once_calls|].
  intros k b0. cbv beta.
  destruct (callGemini_events q k
              (match provider with
               | gemini => modelName
               | openrouter => model_gemini2
               end) b0) as [req ->].
  reflexivity.
Qed.

(** [refineAcademicAnswer] in terms of its two runs of the retry
    policy. *)
Lemma refineAcademicAnswer_runs q modelName provider b :
  refineAcademicAnswer q modelName provider b =
  if 0 <? length getOpenRouterKeys then
    let r := openrouter_run q modelName provider b in
    match value r with
    | Ok v => (Ok v, final r, events r)
    | Throw e1 =>
        let g := gemini_run q modelName provider (final r) in
        match value g with
        | Ok v => (Ok v, final g, events r ++ fallback_warning :: events g)
        | Throw e2 =>
            (Throw e2, final g,
             events r ++ fallback_warning :: events g ++ [providers_failed])
        end
    end
  else
    let g := gemini_run q modelName provider b in
    match value g with
    | Ok v => (Ok v, final g, events g)
    | Throw e2 => (Throw e2, final g, events g ++ [providers_failed])
    end.
Proof.
  unfold refineAcademicAnswer, layer, openrouter_run, gemini_run.
  unfold bind, try_catch, ret, console, emit, throw.
  destruct (0 <? length getOpenRouterKeys).
  - destruct (withProviderRetry openrouter _ 1 b) as [[[v|e1] b1] t1];
      cbn [value final events fst snd].
    + now rewrite !app_nil_r.
    + destruct (withProviderRetry gemini _ 1 b1) as [[[v|e2] b2] t2];
        cbn [value final events fst snd]; cbn [app];
        now rewrite ?app_nil_r, <- ?app_assoc.
  - destruct (withProviderRetry gemini _ 1 b) as [[[v|e2] b2] t2];
      cbn [value final events fst snd]; cbn [app];
      now rewrite ?app_nil_r.
Qed.

Lemma titleOp_returned prompt k b v :
  value (titleOp prompt k b) = Ok v ->
  exists response,
    fst (generateContent k (mkGeminiReq model_gemini2 [] prompt false false) b)
    = inr response
    /\ v = or_default (option_map trim response) (lit "New Chat").
Proof.
  unfold titleOp, gemini_call, call, bind, emit, ret.
  destruct (generateContent k _ b) as [[err|r] b1]; cbn; [discriminate|].
  intros E. inversion E. eauto.
Qed.

(** The chronologically last failed attempt of a run in which every
    attempt failed and at least one was made. *)
Lemma last_failure_split (evs : list Event) (init : thrown) :
  Forall (fun ev => is_attempt ev = true -> is_failure ev = true) evs ->
  (exists ev, In ev evs /\ is_attempt ev = true) ->
  exists pre p k t e rest,
    evs = pre ++ EvAttempt p k t (Some e) :: rest
    /\ Forall (fun ev => is_attempt ev = false) rest
    /\ last_failure init evs = e.
Proof.
  induction evs as [|ev evs IH] using rev_ind; intros Hall Hex.
  - destruct Hex as (ev & [] & _).
  - apply Forall_app in Hall. destruct Hall as [Hall Hev].
    inversion Hev as [|? ? Hev1 _]; subst.
    destruct (is_attempt ev) eqn:Eatt.
    + specialize (Hev1 eq_refl).
      destruct ev as [p k t [e|]| | | |]; try discriminate.
      exists evs, p, k, t, e, []. repeat split.
      * constructor.
      * unfold last_failure. now rewrite fold_left_app.
    + assert (exists ev0, In ev0 evs /\ is_attempt ev0 = true) as Hex'.
      { destruct Hex as (ev0 & Hin & Hatt).
        apply in_app_or in Hin. destruct Hin as [Hin|[<-|[]]]; [eauto|].
        congruence. }
      destruct (IH Hall Hex') as (pre & p & k & t & e & rest & -> & Hrest & Hl).
      exists pre, p, k, t, e, (rest ++ [ev]). repeat split.
      * now rewrite <- app_assoc.
      * apply Forall_app. split; [assumption|]. now constructor.
      * rewrite last_failure_app, Hl.
        destruct ev as [? ? ? [?|]| | | |]; try discriminate; reflexivity.
Qed.

End Facts.

(** C1.  When the key pool of the provider parses to no credential,
    [withProviderRetry] throws the error that names the provider, and
    nothing else happens: the operation is not called, no event is
    emitted (so no network call is made) and the world is left as it
    was. *)
Theorem no_keys_fails_before_any_call `{Runtime} (T : Type)
    (p : ModelProvider) (fn : jsstring -> M T) (maxRetriesPerKey : nat)
    (b : B) :
  keysOf p = [] ->
  value (withProviderRetry p fn maxRetriesPerKey b)
  = Throw (Some (new_Error
      (lit "No API keys available for provider: " ++ provider_name p)))
  /\ events (withProviderRetry p fn maxRetriesPerKey b) = []
  /\ final (withProviderRetry p fn maxRetriesPerKey b) = b.
Proof.
  intros E. rewrite (withProviderRetry_no_keys p fn maxRetriesPerKey b E).
  repeat split.
Qed.

(** C1 in a browser where only white space is stored for OpenRouter. *)
Lemma no_keys_fails_before_any_call_witness :
  let R := Fixture.offline (Fixture.stored None (Some (lit " , ")) None) in
  value (withProviderRetry openrouter (Fixture.picky (fun _ => false)) 1 0)
  = Throw (Some (new_Error
      (lit "No API keys available for provider: openrouter")))
  /\ events (withProviderRetry openrouter
               (Fixture.picky (fun _ => false)) 1 0) = []
  /\ final (withProviderRetry openrouter
              (Fixture.picky (fun _ => false)) 1 0) = 0.
Proof.
  intros R.
  apply (@no_keys_fails_before_any_call R jsstring openrouter
           (Fixture.picky (fun _ => false)) 1 0).
  reflexivity.
Defined.

(** C2, as stated, fails in two ways.  A key that is listed twice has
    two places in the pool, and each place has its own budget: with
    [k1, k1] stored and a budget of one attempt, the operation is called
    twice on [k1].  And with a budget of no attempt the operation is not
    called at all, so a pool whose keys would all succeed gives no
    result. *)
Lemma duplicate_key_is_called_twice :
  let R := Fixture.offline
             (Fixture.stored None (Some (lit "k1, k1")) None) in
  let o := withProviderRetry openrouter (Fixture.picky (fun _ => true)) 1 0 in
  let idle :=
    withProviderRetry openrouter (Fixture.picky (fun _ => false)) 0 0 in
  keysOf openrouter = [lit "k1"; lit "k1"]
  /\ attempts_on (lit "k1") (events o) = 2
  /\ ~ attempts_on (lit "k1") (events o) <= 1
  /\ idle = (Throw None, 1, []).
Proof.
  vm_compute. repeat split. intros C.
  apply Nat.leb_le in C. discriminate.
Qed.

(** C2 (amended).  In [withProviderRetry] the operation is called on a
    key at most [maxRetriesPerKey] times for each place the key has in
    the pool, so at most [maxRetriesPerKey] times when no key is listed
    twice (the retry loop of one place makes at most that many calls).
    With more than one key in the pool, an attempt that fails with a
    quota error ends the loop of its key at once, and the run has no
    delay at all.  With one key, a quota failure with budget left is
    followed by a delay of 500 ms and a new call on the same key, so a
    key that keeps failing is called [maxRetriesPerKey] times with a
    delay between calls.  When some keys of the pool always fail with a
    quota error and the other keys of the pool always succeed, and at
    least one does, a call with a budget of at least one attempt returns
    the result of one of the good keys; with several keys, the bad keys
    met before it were each called once. *)
Theorem retry_policy `{Runtime} (T : Type) (p : ModelProvider)
    (fn : jsstring -> M T) (maxRetriesPerKey : nat) (b : B) :
  keysOf p <> [] ->
  let o := withProviderRetry p fn maxRetriesPerKey b in
  (forall e, isQuotaError (Some e) = true <->
             status e = Some 429%N
             \/ includes (message e) (lit "429") = true
             \/ includes (message e) (lit "RESOURCE_EXHAUSTED") = true)
  /\ (forall k, attempts_on k (events o)
                <= maxRetriesPerKey * count_occ key_eq_dec (keysOf p) k)
  /\ (NoDup (keysOf p) ->
      forall k, attempts_on k (events o) <= maxRetriesPerKey)
  /\ (forall nkeys k last b0,
        length (filter is_attempt
                  (events (retry_key p fn maxRetriesPerKey nkeys k
                             maxRetriesPerKey 0 last b0)))
        <= maxRetriesPerKey)
  /\ (1 < length (keysOf p) ->
        Forall (fun ev => is_delay ev = false) (events o))
  /\ (forall nkeys k n i last b0 e,
        1 <= n -> 1 < nkeys ->
        value (fn k b0) = Throw e -> isQuotaError e = true ->
        retry_key p fn maxRetriesPerKey nkeys k n i last b0
        = (Ok (NextKey e), final (fn k b0),
           [EvAttempt p k (events (fn k b0)) (Some e)]))
  /\ (forall k n i last b0 e,
        value (fn k b0) = Throw e -> isQuotaError e = true ->
        i < maxRetriesPerKey - 1 -> 2 <= n ->
        exists f rest,
          events (retry_key p fn maxRetriesPerKey 1 k n i last b0)
          = EvAttempt p k (events (fn k b0)) (Some e)
            :: EvDelay 500
            :: EvAttempt p k (events (fn k (final (fn k b0)))) f
            :: rest)
  /\ (forall k,
        keysOf p = [k] ->
        (forall b0, exists e,
            value (fn k b0) = Throw e /\ isQuotaError e = true) ->
        map is_delay (events o) = alternating maxRetriesPerKey
        /\ Forall (fun ev => ev = EvDelay 500
                             \/ exists t f, ev = EvAttempt p k t f)
                  (events o))
  /\ (forall bad : jsstring -> bool,
        1 <= maxRetriesPerKey ->
        (forall k b0, In k (keysOf p) -> bad k = true ->
           exists e, value (fn k b0) = Throw e /\ isQuotaError e = true) ->
        (forall k b0, In k (keysOf p) -> bad k = false ->
           exists v, value (fn k b0) = Ok v) ->
        (exists k, In k (keysOf p) /\ bad k = false) ->
        exists v pre k post evs t0,
          Permutation (pre ++ k :: post) (keysOf p)
          /\ Forall (fun k' => bad k' = true) pre
          /\ In k (keysOf p) /\ bad k = false
          /\ value o = Ok v
          /\ events o = evs ++ [EvAttempt p k t0 None]
          /\ Forall (fun ev => is_attempt ev = true -> is_failure ev = true)
                    evs
          /\ (1 < length (keysOf p) -> attempted_keys evs = pre)).
Proof.
  intros Hne o.
  destruct (withProviderRetry_run p fn maxRetriesPerKey b Hne)
    as (sh & b1 & Hperm & Erun).
  subst o. rewrite Erun.
  split; [exact isQuotaError_spec|].
  split.
  { intros k.
    pose proof (proj1 (Permutation_count_occ key_eq_dec _ _) Hperm k) as Hc.
    rewrite <- Hc. apply each_key_bound. }
  split.
  { intros Hnd k.
    pose proof (proj1 (Permutation_count_occ key_eq_dec _ _) Hperm k) as Hc.
    pose proof (proj1 (NoDup_count_occ key_eq_dec (keysOf p)) Hnd k) as Hone.
    pose proof (each_key_bound T p fn maxRetriesPerKey (length (keysOf p))
                  k sh None b1) as Hb.
    rewrite Hc in Hb. nia. }
  split; [intros; apply retry_key_bound|].
  split; [intros Hmany; now apply each_key_no_delay|].
  split; [intros; now apply retry_key_fast|].
  split.
  { intros k n i last b0 e Hv Hq Hi Hn.
    apply retry_key_slow; trivial. }
  split.
  { intros k Ek Hq. rewrite Ek in *.
    apply Permutation_sym, Permutation_length_1_inv in Hperm. subst sh.
    cbn [length].
    rewrite each_key_cons. cbv zeta.
    assert (forall b0, exists e, value (fn k b0) = Throw e) as Hfail.
    { intros b0. destruct (Hq b0) as (e & He & _). eauto. }
    destruct (retry_key_fails T p fn maxRetriesPerKey 1 k maxRetriesPerKey 0
                None b1 Hfail) as [le Hle].
    rewrite Hle. cbn [value final events fst snd each_key throw].
    rewrite app_nil_r. split.
    - apply retry_key_single; [lia|assumption|reflexivity].
    - apply retry_key_events. }
  intros bad Hbudget Hbad Hgood Hex.
  assert (incl sh (keysOf p)) as Hincl.
  { intros k Hin. eapply Permutation_in; [exact Hperm|exact Hin]. }
  assert (exists k, In k sh /\ bad k = false) as Hex'.
  { destruct Hex as (k & Hin & Hk). exists k. split; [|assumption].
    eapply Permutation_in; [apply Permutation_sym; exact Hperm|assumption]. }
  destruct (each_key_scenario T p fn maxRetriesPerKey (length (keysOf p))
              (keysOf p) bad Hbudget Hbad Hgood sh None b1 Hincl Hex')
    as (v & pre & k & post & evs & t0 & Esh & Hpre & Hk & Hv & Hevs
        & Hfailed & Hfast).
  exists v, pre, k, post, evs, t0. subst sh.
  repeat split; trivial.
  eapply Permutation_in; [exact Hperm|].
  apply in_or_app. right. now left.
Qed.

(** C2 (amended) on a pool of three keys of which two are rate
    limited. *)
Lemma retry_policy_witness :
  let R := Fixture.offline
             (Fixture.stored None (Some (lit "k1,k2,k3")) None) in
  let bad := fun k => negb (str_eqb k (lit "k2")) in
  exists v k evs t0,
    value (withProviderRetry openrouter (Fixture.picky bad) 1 0) = Ok v
    /\ bad k = false
    /\ events (withProviderRetry openrouter (Fixture.picky bad) 1 0)
       = evs ++ [EvAttempt openrouter k t0 None].
Proof.
  intros R bad.
  assert (keysOf openrouter <> []) as Hne by (vm_compute; discriminate).
  destruct (@retry_policy R jsstring openrouter (Fixture.picky bad) 1 0 Hne)
    as (_ & _ & _ & _ & _ & _ & _ & _ & Hscenario).
  destruct (Hscenario bad) as (v & pre & k & post & evs & t0 & _ & _ & _
                               & Hk & Hv & Hevs & _).
  - lia.
  - intros k b0 _ Hk. exists (Some Fixture.quota_error).
    unfold Fixture.picky. rewrite Hk. split; reflexivity.
  - intros k b0 _ Hk. exists k. unfold Fixture.picky. now rewrite Hk.
  - exists (lit "k2"). split; [vm_compute; tauto|reflexivity].
  - exists v, k, evs, t0. repeat split; assumption.
Defined.

(** The run on that pool: the shuffle, after two draws, puts [k3] first;
    its quota error moves the loop on at once, and [k2] answers. *)
Example failover_run :
  let R := Fixture.offline
             (Fixture.stored None (Some (lit "k1,k2,k3")) None) in
  let bad := fun k => negb (str_eqb k (lit "k2")) in
  withProviderRetry openrouter (Fixture.picky bad) 1 0
  = (Ok (lit "k2"), 2,
     [EvAttempt openrouter (lit "k3") [] (Some (Some Fixture.quota_error));
      EvAttempt openrouter (lit "k2") [] None]).
Proof. vm_compute. reflexivity. Qed.

(** A single key that is rate limited, with a budget of three attempts:
    three calls, 500 ms apart, and the quota error is thrown. *)
Example single_key_run :
  let R := Fixture.offline (Fixture.stored None (Some (lit "k1")) None) in
  withProviderRetry openrouter (Fixture.picky (fun _ => true)) 3 0
  = (Throw (Some Fixture.quota_error), 0,
     [EvAttempt openrouter (lit "k1") [] (Some (Some Fixture.quota_error));
      EvDelay 500;
      EvAttempt openrouter (lit "k1") [] (Some (Some Fixture.quota_error));
      EvDelay 500;
      EvAttempt openrouter (lit "k1") [] (Some (Some Fixture.quota_error))]).
Proof. vm_compute. reflexivity. Qed.

(** C3.  On a pool with at least one key, [withProviderRetry] throws
    exactly when every attempt of the run failed, and then it throws what
    the chronologically last attempt threw: the thrown value is the
    failure of an attempt on a key of the pool after which no other
    attempt was made, and before it the operation was called on every
    key of the pool (with no budget at all there is no attempt, and
    [lastError] is thrown as it was declared).  In particular this is so
    for an operation that fails on every call on the keys of the pool. *)
Theorem last_error_is_thrown `{Runtime} (T : Type) (p : ModelProvider)
    (fn : jsstring -> M T) (maxRetriesPerKey : nat) (b : B) :
  keysOf p <> [] ->
  let o := withProviderRetry p fn maxRetriesPerKey b in
  ((exists e, value o = Throw e) <->
   Forall (fun ev => is_attempt ev = true -> is_failure ev = true)
          (events o))
  /\ (forall e, value o = Throw e ->
        e = last_failure None (events o)
        /\ (1 <= maxRetriesPerKey ->
            (forall k, In k (keysOf p) -> 1 <= attempts_on k (events o))
            /\ exists pre k t rest,
                 events o = pre ++ EvAttempt p k t (Some e) :: rest
                 /\ In k (keysOf p)
                 /\ Forall (fun ev => is_attempt ev = false) rest))
  /\ ((forall k b0, In k (keysOf p) ->
         exists e, value (fn k b0) = Throw e) ->
      exists e, value o = Throw e).
Proof.
  intros Hne o.
  destruct (withProviderRetry_run p fn maxRetriesPerKey b Hne)
    as (sh & b1 & Hperm & Erun).
  subst o. rewrite Erun.
  set (o := each_key p fn maxRetriesPerKey (length (keysOf p)) sh None b1).
  assert ((exists e, value o = Throw e) <->
          Forall (fun ev => is_attempt ev = true -> is_failure ev = true)
                 (events o)) as Hiff.
  { split.
    - intros [e He].
      exact (each_key_thrown_failed T p fn maxRetriesPerKey
               (length (keysOf p)) sh None b1 e He).
    - intros Hall. destruct (value o) as [v|e] eqn:Hv; [|eauto].
      destruct (each_key_returned T p fn maxRetriesPerKey
                  (length (keysOf p)) sh None b1 v Hv)
        as (evs & k & b0 & t0 & _ & Eev & _).
      fold o in Eev. rewrite Eev in Hall.
      apply Forall_app in Hall. destruct Hall as [_ Hlast].
      inversion Hlast as [|? ? Hhd _]; subst.
      specialize (Hhd eq_refl). discriminate. }
  split; [exact Hiff|]. split.
  - intros e He.
    pose proof (each_key_last T p fn maxRetriesPerKey (length (keysOf p))
                  sh None b1 e He) as Hlast.
    fold o in Hlast. split; [exact Hlast|].
    intros Hbudget. split.
    { intros k Hin.
      apply (each_key_thrown_all T p fn maxRetriesPerKey
               (length (keysOf p)) sh None b1 e Hbudget He).
      eapply Permutation_in; [apply Permutation_sym; exact Hperm|exact Hin]. }
    pose proof (proj1 Hiff (ex_intro _ e He)) as Hall.
    pose proof (each_key_events T p fn maxRetriesPerKey
                  (length (keysOf p)) sh None b1) as Hev.
    fold o in Hev.
    assert (exists ev, In ev (events o) /\ is_attempt ev = true) as Hex.
    { destruct sh as [|k sh].
      - apply Permutation_nil in Hperm. now destruct Hne.
      - destruct (each_key_first T p fn maxRetriesPerKey
                    (length (keysOf p)) k sh None b1 Hbudget)
          as (t & f & rest & Efirst).
        fold o in Efirst. rewrite Efirst.
        eexists. split; [now left|reflexivity]. }
    destruct (last_failure_split _ None Hall Hex)
      as (pre & p' & k & t & e' & rest & Eev & Hrest & Hl).
    rewrite Forall_forall in Hev.
    destruct (Hev (EvAttempt p' k t (Some e')))
      as [C|(k0 & t1 & f1 & Hin & Eq)].
    { rewrite Eev. apply in_or_app. right. now left. }
    { discriminate. }
    inversion Eq; subst p' k0 t1 f1.
    exists pre, k, t, rest. rewrite Hlast, Hl. repeat split; trivial.
    eapply Permutation_in; [exact Hperm|assumption].
  - intros Hfail. apply Hiff.
    apply each_key_all_failed. intros k b0 Hin. apply Hfail.
    eapply Permutation_in; [exact Hperm|exact Hin].
Qed.

(** C3 on a pool of two keys and an operation that fails each time with
    a new error: the error thrown is the one of the second call, not of
    the first. *)
Lemma last_error_is_thrown_witness :
  let e := Fixture.stored (Some (lit "k1,k2")) None None in
  let R := Fixture.offline e in
  let o := withProviderRetry gemini (Fixture.failing e) 1 0 in
  value o = Throw (Some (Fixture.server_error 2))
  /\ Some (Fixture.server_error 2) = last_failure None (events o)
  /\ 1 <= attempts_on (lit "k1") (events o)
  /\ 1 <= attempts_on (lit "k2") (events o)
  /\ value (Fixture.failing e (lit "k1") 1)
     = Throw (Some (Fixture.server_error 1)).
Proof.
  intros e R o.
  assert (keysOf gemini <> []) as Hne by (vm_compute; discriminate).
  assert (value o = Throw (Some (Fixture.server_error 2))) as Hv
    by (vm_compute; reflexivity).
  destruct (@last_error_is_thrown R jsstring gemini (Fixture.failing e) 1 0
              Hne) as (_ & Hlast & _).
  destruct (Hlast _ Hv) as (Hl & Hall).
  destruct (Hall (le_n 1)) as (Hkeys & _).
  split; [exact Hv|]. split; [exact Hl|].
  split; [apply Hkeys; vm_compute; tauto|].
  split; [apply Hkeys; vm_compute; tauto|].
  vm_compute. reflexivity.
Defined.

(** C5.  When the four links of [analyzeExamPaper] fail one after the
    other, it throws an error whose message is
    [Scan failed after 4 types of fallback. Last error: ] followed by the
    message of what the fourth link threw; and it throws in no other
    case. *)
Theorem scan_failure_wraps_last_error `{Runtime} (files : list File)
    (modelName : jsstring) (b : B) :
  let r1 := link1 files modelName b in
  let r2 := link2 files modelName b in
  let r3 := link3 files modelName b in
  let r4 := link4 files modelName b in
  let o := analyzeExamPaper files modelName b in
  (forall e1 e2 e3 e4,
      value r1 = Throw e1 -> value r2 = Throw e2 ->
      value r3 = Throw e3 -> value r4 = Throw e4 ->
      exists err4,
        e4 = Some err4
        /\ value o
           = Throw (Some (new_Error
               (lit "Scan failed after 4 types of fallback. Last error: "
                ++ message err4))))
  /\ (forall e, value o = Throw e ->
      exists e1 e2 e3 err4,
        value r1 = Throw e1 /\ value r2 = Throw e2
        /\ value r3 = Throw e3 /\ value r4 = Throw (Some err4)
        /\ e = Some (new_Error
               (lit "Scan failed after 4 types of fallback. Last error: "
                ++ message err4))).
Proof.
  intros r1 r2 r3 r4 o.
  pose proof (analyzeExamPaper_links files modelName b) as E.
  cbv zeta in E. fold r1 r2 r3 r4 o in E.
  destruct (link_objects files modelName b) as (_ & _ & _ & Ho4).
  fold r4 in Ho4.
  split.
  - intros e1 e2 e3 e4 E1 E2 E3 E4.
    rewrite E1, E2, E3, E4 in E.
    destruct e4 as [err4|]; [|now destruct (Ho4 None)].
    exists err4. split; [reflexivity|]. now rewrite E.
  - intros e He. rewrite E in He.
    destruct (value r1) as [v1|e1]; [discriminate|].
    destruct (value r2) as [v2|e2]; [discriminate|].
    destruct (value r3) as [v3|e3]; [discriminate|].
    destruct (value r4) as [v4|e4] eqn:E4; [discriminate|].
    destruct e4 as [err4|]; [|now destruct (Ho4 None)].
    exists e1, e2, e3, err4. repeat split. cbn in He. now inversion He.
Qed.

(** C5 with every provider down: the message wrapped is the one of the
    last call, made for the fourth link. *)
Lemma scan_failure_wraps_last_error_witness :
  let R := Fixture.down Fixture.three_vendors in
  value (link1 [] model_gemini3 0) = Throw (Some (Fixture.server_error 0))
  /\ value (link4 [] model_gemini3 0) = Throw (Some (Fixture.server_error 4))
  /\ exists err4,
       Some (Fixture.server_error 4) = Some err4
       /\ value (analyzeExamPaper [] model_gemini3 0)
          = Throw (Some (new_Error
              (lit "Scan failed after 4 types of fallback. Last error: "
               ++ message err4))).
Proof.
  intros R. split; [vm_compute; reflexivity|].
  split; [vm_compute; reflexivity|].
  destruct (@scan_failure_wraps_last_error R [] model_gemini3 0)
    as [Hall _].
  apply (Hall (Some (Fixture.server_error 0)) (Some (Fixture.server_error 1))
              (Some (Fixture.server_error 3)) (Some (Fixture.server_error 4)));
    vm_compute; reflexivity.
Defined.

(** C6, as stated, fails for the third link: with the two keys [g1,g2]
    stored for Groq, the scan calls the Groq endpoint twice with the whole
    stored string as credential, never with [g1] or [g2], and none of
    these calls is made inside an attempt of the retry policy. *)
Lemma groq_link_bypasses_retry_policy :
  let R := Fixture.down Fixture.three_vendors in
  let o := analyzeExamPaper [] model_gemini3 0 in
  Keys.getAllKeys (Some (lit "g1,g2")) = [lit "g1"; lit "g2"]
  /\ map bearer_of (filter is_groq_fetch (io_all (events o)))
     = [lit "g1,g2"; lit "g1,g2"]
  /\ existsb (fun ev => is_attempt ev && existsb is_groq_fetch (io ev))
             (events o) = false.
Proof. vm_compute. repeat split. Qed.

(** C6 (amended).  The first, second and fourth link of
    [analyzeExamPaper] run through the retry policy on the pool of their
    provider: the events of such a link are attempts on keys of that
    pool, each holding the call made with that key, and when the link
    fails every key of the pool was attempted once before the chain moved
    on.  The third link is a direct call: no attempt of the retry policy,
    at most two requests, to the Groq endpoint, with the stored Groq key
    as it is. *)
Theorem chain_links `{Runtime} (files : list File) (modelName : jsstring)
    (b : B) :
  let r1 := link1 files modelName b in
  let r2 := link2 files modelName b in
  let r3 := link3 files modelName b in
  let r4 := link4 files modelName b in
  let o := analyzeExamPaper files modelName b in
  (exists rest, events o = events r1 ++ rest)
  /\ Forall (fun ev => exists k f,
               In k getGeminiKeys
               /\ ev = EvAttempt gemini k
                    [EvConsole (lit "Attempting scan with primary model: "
                                ++ modelName);
                     EvGemini k (primary_request files modelName)] f)
            (events r1)
  /\ Forall (fun ev => exists k f,
               In k getGeminiKeys
               /\ ev = EvAttempt gemini k
                    [EvConsole
                       (lit "Attempting scan with Layer 2: gemini-2.0-flash-exp");
                     EvGemini k (fallback_request files)] f)
            (events r2)
  /\ Forall (fun ev => exists k f,
               In k getOpenRouterKeys
               /\ ev = EvAttempt openrouter k
                         [EvFetch (vision_request files k)] f)
            (events r4)
  /\ (forall e1, value r1 = Throw e1 ->
        Permutation (attempted_keys (events r1)) getGeminiKeys
        /\ exists rest, events o = events r1 ++ warn1 e1 :: events r2 ++ rest)
  /\ (forall e1 e2, value r1 = Throw e1 -> value r2 = Throw e2 ->
        Permutation (attempted_keys (events r2)) getGeminiKeys
        /\ exists rest,
             events o = events r1 ++ warn1 e1 :: events r2
                        ++ warn2 e2 :: log3 :: events r3 ++ rest)
  /\ (forall e1 e2 e3,
        value r1 = Throw e1 -> value r2 = Throw e2 -> value r3 = Throw e3 ->
        exists rest,
          events o = events r1 ++ warn1 e1 :: events r2
                     ++ warn2 e2 :: log3 :: events r3
                     ++ warn3 e3 :: log4 :: events r4 ++ rest)
  /\ (forall e4, value r4 = Throw e4 ->
        Permutation (attempted_keys (events r4)) getOpenRouterKeys)
  /\ Forall (fun ev => is_attempt ev = false) (events r3)
  /\ Forall (fun ev => is_network ev = true ->
               exists model,
                 ev = EvFetch (groq_request files
                                 (or_default getGroqApiKey []) model)
                 /\ Some (bearer_of ev) = getGroqApiKey)
            (events r3)
  /\ length (filter is_network (events r3)) <= 2.
Proof.
  intros r1 r2 r3 r4 o.
  pose proof (analyzeExamPaper_links files modelName b) as E.
  cbv zeta in E. fold r1 r2 r3 r4 o in E.
  split.
  { rewrite E. destruct (value r1); [|destruct (value r2);
      [|destruct (value r3); [|destruct (value r4)]]];
      cbn [events snd]; eauto using app_nil_r. }
  split.
  { eapply Forall_impl; [|apply once_calls].
    intros ev (k & Hin & b0 & ->). rewrite scanPrimary_events. eauto. }
  split.
  { eapply Forall_impl; [|apply once_calls].
    intros ev (k & Hin & b0 & ->). rewrite scanFallback_events. eauto. }
  split.
  { eapply Forall_impl; [|apply once_calls].
    intros ev (k & Hin & b0 & ->). rewrite scanOpenRouter_events. eauto. }
  split.
  { intros e1 E1. split; [now apply (once_exhausts gemini _ b e1)|].
    rewrite E, E1. destruct (value r2); [|destruct (value r3);
      [|destruct (value r4)]]; cbn [events snd].
    - exists []. now rewrite app_nil_r.
    - eexists. reflexivity.
    - eexists. reflexivity.
    - eexists. reflexivity. }
  split.
  { intros e1 e2 E1 E2.
    split; [now apply (once_exhausts gemini _ (final r1) e2)|].
    rewrite E, E1, E2. destruct (value r3); [|destruct (value r4)];
      cbn [events snd].
    - exists []. now rewrite app_nil_r.
    - eexists. reflexivity.
    - eexists. reflexivity. }
  split.
  { intros e1 e2 e3 E1 E2 E3. rewrite E, E1, E2, E3.
    destruct (value r4); cbn [events snd].
    - exists []. now rewrite app_nil_r.
    - eexists. reflexivity. }
  split.
  { intros e4 E4. now apply (once_exhausts openrouter _ (final r3) e4). }
  destruct (analyzeWithGroq_events files (final r2)) as (Hno & Hreq & Hlen).
  fold (link3 files modelName b) in Hno, Hreq, Hlen. fold r3 in Hno, Hreq, Hlen.
  split; [assumption|]. split; [assumption|].
  apply (f_equal (@length _)) in Hlen.
  rewrite length_map, length_firstn in Hlen. cbn [length] in Hlen.
  change (length (filter is_network
            (events (analyzeWithGroq (visionFiles files) analysisPrompt
                       (final r2)))) <= 2).
  lia.
Qed.

(** C6 (amended) with every provider down: the single Gemini key is
    attempted by the first link before the second link starts. *)
Lemma chain_links_witness :
  let R := Fixture.down Fixture.three_vendors in
  Permutation (attempted_keys (events (link1 [] model_gemini3 0)))
              getGeminiKeys
  /\ exists rest,
       events (analyzeExamPaper [] model_gemini3 0)
       = events (link1 [] model_gemini3 0)
         ++ warn1 (Some (Fixture.server_error 0))
         :: events (link2 [] model_gemini3 0) ++ rest.
Proof.
  intros R.
  destruct (@chain_links R [] model_gemini3 0)
    as (_ & _ & _ & _ & Hadv & _).
  apply (Hadv (Some (Fixture.server_error 0))).
  vm_compute. reflexivity.
Defined.

(** C7.  [refineAcademicAnswer] tries OpenRouter before Gemini: with an
    OpenRouter key configured, its run starts with the run of the retry
    policy on the OpenRouter pool, which makes no Gemini call, and when
    that run succeeds its result is returned and nothing else happens;
    Gemini is called only when no OpenRouter key exists or that run
    failed; and the outcome of the Gemini run, value or error, is then the
    outcome of the call. *)
Theorem refine_tries_openrouter_first `{Runtime} (question : ExamQuestion)
    (modelName : jsstring) (provider : ModelProvider) (b : B) :
  let r := openrouter_run question modelName provider b in
  let o := refineAcademicAnswer question modelName provider b in
  (getOpenRouterKeys <> [] ->
     (exists rest, events o = events r ++ rest)
     /\ existsb is_gemini_call (io_all (events r)) = false
     /\ (forall v, value r = Ok v -> o = (Ok v, final r, events r))
     /\ (forall e1, value r = Throw e1 ->
           let g := gemini_run question modelName provider (final r) in
           value o = value g /\ final o = final g
           /\ exists rest,
                events o = events r ++ fallback_warning :: events g ++ rest))
  /\ (getOpenRouterKeys = [] ->
        let g := gemini_run question modelName provider b in
        value o = value g /\ final o = final g
        /\ (exists rest, events o = events g ++ rest)
        /\ existsb is_fetch (io_all (events o)) = false)
  /\ (existsb is_gemini_call (io_all (events o)) = true ->
        getOpenRouterKeys = [] \/ exists e1, value r = Throw e1).
Proof.
  intros r o.
  pose proof (refineAcademicAnswer_runs question modelName provider b) as E.
  fold o in E. cbv zeta in E. fold r in E.
  pose proof (openrouter_run_io question modelName provider b) as Hio.
  fold r in Hio.
  split; [|split].
  - intros Hne.
    assert ((0 <? length getOpenRouterKeys) = true) as Hlen.
    { destruct getOpenRouterKeys; [contradiction|reflexivity]. }
    rewrite Hlen in E.
    split; [|split; [assumption|split]].
    + rewrite E. destruct (value r);
        [|destruct (value (gemini_run question modelName provider (final r)))];
        cbn [events snd].
      * exists []. now rewrite app_nil_r.
      * eexists. reflexivity.
      * eexists. reflexivity.
    + intros v Hv. now rewrite E, Hv.
    + intros e1 He1 g. rewrite E, He1. fold g.
      destruct (value g); cbn; repeat split; eauto using app_nil_r.
      exists []. now rewrite app_nil_r.
  - intros Hnone g.
    rewrite Hnone in E. cbn [length Nat.ltb Nat.leb] in E. fold g in E.
    pose proof (gemini_run_io question modelName provider b) as Hg.
    fold g in Hg.
    rewrite E. destruct (value g); cbn [value final events fst snd].
    + repeat split; trivial. exists []. now rewrite app_nil_r.
    + repeat split; eauto.
      rewrite io_all_app, existsb_app, Hg. reflexivity.
  - intros Hcall.
    destruct getOpenRouterKeys as [|k0 ks] eqn:Ekeys; [now left|right].
    cbn [length Nat.ltb Nat.leb] in E.
    destruct (value r) as [v|e1] eqn:Hv; [|eauto].
    rewrite E in Hcall. cbn [events snd] in Hcall. congruence.
Qed.

(** C7 with OpenRouter down and one key for each vendor: the Gemini run
    is made after the OpenRouter run failed, and its error is the one
    thrown. *)
Lemma refine_tries_openrouter_first_witness :
  let R := Fixture.down Fixture.three_vendors in
  let q := mkQuestion (lit "1") (lit "Q1") (lit "Define a group.") 5 []
             false None true None in
  value (refineAcademicAnswer q model_gemini3 gemini 0)
  = Throw (Some (Fixture.server_error 1))
  /\ value (refineAcademicAnswer q model_gemini3 gemini 0)
     = value (gemini_run q model_gemini3 gemini
                (final (openrouter_run q model_gemini3 gemini 0))).
Proof.
  intros R q. split; [vm_compute; reflexivity|].
  destruct (@refine_tries_openrouter_first R q model_gemini3 gemini 0)
    as [Hfirst _].
  destruct Hfirst as (_ & _ & _ & Hfail).
  - vm_compute. discriminate.
  - apply (Hfail (Some (Fixture.server_error 0))).
    vm_compute. reflexivity.
Defined.

Lemma titleOp_run `{Runtime} (prompt k : jsstring) (b : B) :
  titleOp prompt k b =
  match generateContent k (mkGeminiReq model_gemini2 [] prompt false false) b
  with
  | (inr response, b1) =>
      (Ok (or_default (option_map trim response) (lit "New Chat")), b1,
       [EvGemini k (mkGeminiReq model_gemini2 [] prompt false false)])
  | (inl err, b1) =>
      (Throw (Some err), b1,
       [EvGemini k (mkGeminiReq model_gemini2 [] prompt false false)])
  end.
Proof.
  unfold titleOp, gemini_call, call, bind, emit, ret.
  now destruct (generateContent k _ b) as [[err|r] b1].
Qed.

(** The loop over the keys, for the title: it returns the trimmed text
    of the first answer of the provider, and throws when there is
    none. *)
Lemma each_key_title `{Runtime} (provider : ModelProvider)
    (prompt : jsstring) (nkeys : nat) (keys : list jsstring) (last : thrown)
    (b : B) :
  let request := mkGeminiReq model_gemini2 [] prompt false false in
  let r := each_key provider (titleOp prompt) 1 nkeys keys last b in
  final r = snd (Routing.first_answer request keys b)
  /\ match fst (Routing.first_answer request keys b) with
     | Some response =>
         value r = Ok (or_default (option_map trim response) (lit "New Chat"))
     | None => exists e, value r = Throw e
     end.
Proof.
  cbv zeta. revert last b.
  induction keys as [|k keys IH]; intros last b.
  - cbn. split; [reflexivity|eauto].
  - rewrite each_key_once, titleOp_run. cbn [Routing.first_answer].
    destruct (generateContent k _ b) as [[err|response] b1].
    + cbv zeta. cbn [value final fst snd]. apply IH.
    + cbn. split; reflexivity.
Qed.

(** C10.  [generateChatTitle] always returns a title, never throws: for
    no message it returns [New Chat] at once, with no event and no change
    of state.  Otherwise it asks the provider for the title with the
    keys of the pool, in the order the shuffle puts them, until one call
    is answered: the title is the trimmed text of that first answer, or
    [New Chat] if the text is absent or empty, and it is [New Chat] when
    the provider rejects the call for every key (or there is no key). *)
Theorem chat_title_never_throws `{Runtime} (messages : list ChatTurn)
    (provider : ModelProvider) (b : B) :
  let o := generateChatTitle messages provider b in
  (exists title, value o = Ok title /\ title <> [])
  /\ (messages = [] -> o = (Ok (lit "New Chat"), b, []))
  /\ (messages <> [] ->
      let prompt :=
        titlePrompt
          (or_default
             (option_map (fun m => substring0 100 (content m))
                (find is_user messages))
             (lit "Chat")) in
      let request := mkGeminiReq model_gemini2 [] prompt false false in
      exists shuffled b1,
        shuffleArray (keysOf provider) b = (Ok shuffled, b1, [])
        /\ value o
           = Ok match fst (Routing.first_answer request shuffled b1) with
                | Some response =>
                    or_default (option_map trim response) (lit "New Chat")
                | None => lit "New Chat"
                end
        /\ final o = snd (Routing.first_answer request shuffled b1)).
Proof.
  intros o.
  assert (forall response,
            or_default (option_map trim response) (lit "New Chat") <> [])
    as Hdefault.
  { intros [t|]; cbn; [destruct (trim t)|]; discriminate. }
  destruct messages as [|m ms] eqn:Em.
  { split; [|split].
    - exists (lit "New Chat"). split; [reflexivity|discriminate].
    - reflexivity.
    - intros C. now destruct C. }
  rewrite <- Em in *.
  assert (o = try_catch
                (withProviderRetry provider
                   (titleOp (titlePrompt
                      (or_default
                         (option_map (fun m => substring0 100 (content m))
                            (find is_user messages))
                         (lit "Chat")))) 1)
                (fun e =>
                   console (lit "Title generation failed, using default") ;;;
                   ret (lit "New Chat")) b) as Eo.
  { subst o. unfold generateChatTitle. rewrite Em. reflexivity. }
  set (prompt := titlePrompt _) in Eo.
  set (request := mkGeminiReq model_gemini2 [] prompt false false).
  assert (exists shuffled b1,
            shuffleArray (keysOf provider) b = (Ok shuffled, b1, [])
            /\ value o
               = Ok match fst (Routing.first_answer request shuffled b1) with
                    | Some response =>
                        or_default (option_map trim response) (lit "New Chat")
                    | None => lit "New Chat"
                    end
            /\ final o = snd (Routing.first_answer request shuffled b1))
    as Hrun.
  { destruct (shuffleArray_perm (keysOf provider) b)
      as (sh & b1 & Esh & Hperm).
    exists sh, b1. split; [exact Esh|].
    rewrite Eo. unfold try_catch, withProviderRetry.
    destruct (keysOf provider) as [|k0 ks] eqn:Ek.
    - apply Permutation_sym, Permutation_nil in Hperm. subst sh.
      cbn in Esh. inversion Esh; subst b1. cbn. split; reflexivity.
    - cbn [length Nat.eqb].
      assert ((shuffledKeys <- shuffleArray (k0 :: ks) ;;
               each_key provider (titleOp prompt) 1 (length shuffledKeys)
                 shuffledKeys None) b
              = each_key provider (titleOp prompt) 1 (length sh) sh None b1)
        as ->.
      { unfold bind. rewrite Esh.
        now destruct (each_key provider (titleOp prompt) 1 (length sh) sh
                        None b1) as [[rv b2] t2]. }
      destruct (each_key_title provider prompt (length sh) sh None b1)
        as [Hfinal Hvalue].
      cbv zeta in Hfinal, Hvalue. fold request in Hfinal, Hvalue.
      destruct (each_key provider (titleOp prompt) 1 (length sh) sh None b1)
        as [[rv b2] t2].
      cbn [value final fst snd app] in *. subst b2.
      destruct (fst (Routing.first_answer request sh b1)) as [response|].
      + subst rv. split; reflexivity.
      + destruct Hvalue as [e ->]. cbn. split; reflexivity. }
  split; [|split].
  - destruct Hrun as (sh & b1 & _ & Hv & _). eexists. split; [exact Hv|].
    destruct (fst (Routing.first_answer request sh b1));
      [apply Hdefault|discriminate].
  - intros C. rewrite C in Em. discriminate.
  - intros _. exact Hrun.
Qed.

(** C10 with a Gemini that answers: the title is the trimmed answer. *)
Lemma chat_title_never_throws_witness :
  value (@generateChatTitle Scenes.answering
           [mkTurn (lit "user") (lit "hello")] gemini 0)
  = Ok (lit "My chat").
Proof.
  destruct (proj2 (proj2
              (@chat_title_never_throws Scenes.answering
                 [mkTurn (lit "user") (lit "hello")] gemini 0))
              ltac:(discriminate))
    as (sh & b1 & Esh & Hv & _).
  rewrite Hv. vm_compute in Esh. inversion Esh; subst sh b1.
  reflexivity.
Defined.

(** With Gemini down, and with no message at all, the title is the
    default. *)
Example chat_title_defaults :
  let R := Fixture.down Fixture.three_vendors in
  generateChatTitle [] gemini 0 = (Ok (lit "New Chat"), 0, [])
  /\ value (generateChatTitle [mkTurn (lit "user") (lit "hello")] gemini 0)
     = Ok (lit "New Chat").
Proof. vm_compute. split; reflexivity. Qed.

End GatewayFacts.

(** ** The streaming chat client *)

Module ChatFacts.

Import Chat EffFacts.
Local Open Scope eff_scope.

Section Facts.
Context `{Provider}.

Lemma yield_all_run (chunks : list (option jsstring)) (s : ChatService * P) :
  yield_all chunks s = (Ok tt, s, yields chunks).
Proof.
  induction chunks as [|c chunks IH]; [reflexivity|].
  cbn [yield_all yields flat_map]. unfold bind.
  destruct (0 <? length (or_default c [])); cbn; rewrite IH; reflexivity.
Qed.

Lemma open_stream_run (client : Client) (model : jsstring)
    (messages : list ChatMessage) (mode : ChatMode) (self : ChatService)
    (p : P) :
  open_stream client model messages mode (self, p) =
  match create client model messages mode p with
  | (chunks, failure, p1) =>
      (match failure with
       | Some e => Throw (Some e)
       | None => Ok tt
       end, (self, p1), EvCreate client model :: yields chunks)
  end.
Proof.
  unfold open_stream, call_create, bind, emit. cbn [fst snd].
  destruct (create client model messages mode p) as [[chunks failure] p1].
  cbn [fst snd]. rewrite yield_all_run.
  destruct failure as [e|]; cbn; now rewrite app_nil_r.
Qed.

(** One request: the stream is opened, its deltas are handed over, and
    the error that ends it, if any, is logged and rethrown. *)
Lemma makeRequest_run (client : Client) (model : jsstring)
    (messages : list ChatMessage) (mode : ChatMode) (self : ChatService)
    (p : P) :
  makeRequest client model messages mode (self, p) =
  match create client model messages mode p with
  | (chunks, None, p1) =>
      (Ok tt, (self, p1), EvCreate client model :: yields chunks)
  | (chunks, Some e, p1) =>
      (Throw (Some (rethrown model e)), (self, p1),
       EvCreate client model :: yields chunks ++ [EvLog (Some e)])
  end.
Proof.
  unfold makeRequest, try_catch. rewrite open_stream_run.
  destruct (create client model messages mode p) as [[chunks failure] p1].
  destruct failure as [e|]; [|reflexivity].
  unfold bind, emit, rethrown, has_status, status_is, invalidated.
  destruct (status e) as [st|]; [|reflexivity].
  destruct (st =? 404)%N; [reflexivity|].
  destruct (st =? 401)%N; reflexivity.
Qed.

Lemma getOpenRouterClient_run (self : ChatService) (p : P) :
  openRouterKeys self <> [] ->
  getOpenRouterClient (self, p) = (Ok (Some (current_client self)), (self, p), []).
Proof.
  intros Hne. unfold getOpenRouterClient, this, bind, get, ret. cbn.
  destruct (openRouterKeys self) eqn:E; [contradiction|].
  unfold current_client. now rewrite E.
Qed.

Lemma rotate_run (self : ChatService) (p : P) :
  rotateOpenRouterKey (self, p) = (Ok tt, (rotated self, p), []).
Proof. reflexivity. Qed.

Lemma status_is_rethrown (model : jsstring) (e : Error) :
  status_is (Some (rethrown model e)) 401 = has_status e 401.
Proof.
  unfold rethrown, status_is, has_status, invalidated.
  destruct (status e) as [st|] eqn:Est; cbn; [|now rewrite Est].
  destruct (st =? 404)%N eqn:E404.
  - apply N.eqb_eq in E404. subst st. reflexivity.
  - destruct (st =? 401)%N eqn:E401; cbn; [assumption|].
    now rewrite Est.
Qed.

(** One iteration of the OpenRouter loop. *)
Lemma key_loop_S (model : jsstring) (messages : list ChatMessage)
    (mode : ChatMode) (n : nat) (last : thrown) (self : ChatService) (p : P) :
  openRouterKeys self <> [] ->
  key_loop model messages mode (S n) last (self, p) =
  match create (current_client self) model messages mode p with
  | (chunks, None, p1) =>
      (Ok (inl tt), (self, p1),
       EvCreate (current_client self) model :: yields chunks)
  | (chunks, Some e, p1) =>
      if has_status e 401 then
        let o := key_loop model messages mode n (Some (invalidated e))
                   (rotated self, p1) in
        (value o, final o,
         EvCreate (current_client self) model
         :: yields chunks ++ EvLog (Some e) :: events o)
      else
        (Throw (Some (rethrown model e)), (self, p1),
         EvCreate (current_client self) model
         :: yields chunks ++ [EvLog (Some e)])
  end.
Proof.
  intros Hne. cbn [key_loop]. unfold bind at 1.
  rewrite (getOpenRouterClient_run self p Hne). cbn [app].
  unfold try_catch, bind at 1. rewrite makeRequest_run.
  destruct (create (current_client self) model messages mode p)
    as [[chunks [e|]] p1].
  - rewrite status_is_rethrown.
    destruct (has_status e 401) eqn:E401.
    + unfold bind. rewrite rotate_run.
      assert (rethrown model e = invalidated e) as ->.
      { unfold rethrown. rewrite E401.
        unfold has_status in *. destruct (status e) as [st|]; [|discriminate].
        apply N.eqb_eq in E401. subst st. reflexivity. }
      destruct (key_loop model messages mode n (Some (invalidated e))
                  (rotated self, p1)) as [[r s2] t2].
      cbn. now rewrite <- app_assoc.
    + unfold throw. now rewrite app_nil_r.
  - cbn. now rewrite app_nil_r.
Qed.

Lemma created_yields (chunks : list (option jsstring)) :
  created (yields chunks) = [].
Proof.
  induction chunks as [|c chunks IH]; [reflexivity|].
  unfold yields, created in *. cbn [flat_map].
  rewrite flat_map_app, IH.
  destruct (0 <? length (or_default c [])); reflexivity.
Qed.

Lemma created_app (t1 t2 : list ChatEvent) :
  created (t1 ++ t2) = created t1 ++ created t2.
Proof. apply flat_map_app. Qed.

Lemma rotation_S (self : ChatService) (m : nat) :
  rotation self (S m) = current_client self :: rotation (rotated self) m.
Proof.
  unfold rotation, current_client. cbn [seq map].
  rewrite Nat.add_0_r. f_equal.
  rewrite <- seq_shift, map_map. apply map_ext. intros j.
  cbn [rotated openRouterKeys currentOpenRouterIndex].
  rewrite Nat.Div0.add_mod_idemp_l.
  now replace (currentOpenRouterIndex self + 1 + j)
    with (currentOpenRouterIndex self + S j) by lia.
Qed.


(** With budget left the loop starts with a call on the key under the
    cursor. *)
Lemma key_loop_first (model : jsstring) (messages : list ChatMessage)
    (mode : ChatMode) (n : nat) (last : thrown) (self : ChatService) (p : P) :
  openRouterKeys self <> [] -> 1 <= n ->
  exists rest,
    events (key_loop model messages mode n last (self, p))
    = EvCreate (current_client self) model :: rest.
Proof.
  intros Hne Hn. destruct n as [|n]; [lia|].
  rewrite key_loop_S by assumption.
  destruct (create (current_client self) model messages mode p)
    as [[chunks [e|]] p1]; [destruct (has_status e 401)|];
    cbn [events snd]; eauto.
Qed.

Lemma last_logged_from_app (init : thrown) (t1 t2 : list ChatEvent) :
  last_logged_from init (t1 ++ t2)
  = last_logged_from (last_logged_from init t1) t2.
Proof. apply fold_left_app. Qed.

(** When every stream fails with status 401, the loop uses every turn of
    the cursor and leaves with the error of the last stream. *)
Lemma key_loop_all_401 (model : jsstring) (messages : list ChatMessage)
    (mode : ChatMode) (n : nat) (last : thrown) (self : ChatService) (p : P) :
  openRouterKeys self <> [] ->
  (forall c m ms md p0, exists chunks e p1,
      create c m ms md p0 = (chunks, Some e, p1) /\ has_status e 401 = true) ->
  let o := key_loop model messages mode (S n) last (self, p) in
  exists e,
    value o = Ok (inr (Some (invalidated e)))
    /\ (forall init, last_logged_from init (events o) = Some e)
    /\ created (events o) = rotation self (S n).
Proof.
  intros Hne Hall. revert last self p Hne.
  induction n as [|n IH]; intros last self p Hne o; subst o;
    rewrite key_loop_S by assumption;
    destruct (Hall (current_client self) model messages mode p)
      as (chunks & e & p1 & -> & E401);
    rewrite E401; cbv zeta.
  - exists e. cbn [key_loop ret value final events fst snd].
    repeat split.
    + intros init.
      change (EvCreate (current_client self) model
              :: yields chunks ++ [EvLog (Some e)])
        with ((EvCreate (current_client self) model :: yields chunks)
              ++ [EvLog (Some e)]).
      now rewrite last_logged_from_app.
    + rewrite rotation_S.
      change (created (EvCreate (current_client self) model
                       :: yields chunks ++ [EvLog (Some e)]))
        with (current_client self
              :: created (yields chunks ++ [EvLog (Some e)])).
      rewrite created_app, created_yields. reflexivity.
  - destruct (IH (Some (invalidated e)) (rotated self) p1 Hne)
      as (e' & Hv & Hl & Hc).
    exists e'. cbn [value final events fst snd]. repeat split.
    + exact Hv.
    + intros init.
      change (EvCreate (current_client self) model
              :: yields chunks ++ EvLog (Some e)
              :: events (key_loop model messages mode (S n)
                           (Some (invalidated e)) (rotated self, p1)))
        with ((EvCreate (current_client self) model :: yields chunks)
              ++ EvLog (Some e)
              :: events (key_loop model messages mode (S n)
                           (Some (invalidated e)) (rotated self, p1))).
      rewrite last_logged_from_app. apply Hl.
    + rewrite (rotation_S self (S n)).
      change (created (EvCreate (current_client self) model
                       :: yields chunks ++ EvLog (Some e)
                       :: events (key_loop model messages mode (S n)
                                    (Some (invalidated e))
                                    (rotated self, p1))))
        with (current_client self
              :: created (yields chunks ++ EvLog (Some e)
                          :: events (key_loop model messages mode (S n)
                                       (Some (invalidated e))
                                       (rotated self, p1)))).
      rewrite created_app, created_yields. cbn [app].
      change (created (EvLog (Some e) :: ?x)) with (created x).
      f_equal. exact Hc.
Qed.

(** The OpenRouter branch of [streamChat]. *)
Lemma streamChat_openrouter (messages : list ChatMessage) (mode : ChatMode)
    (self : ChatService) (p : P) :
  on_openrouter self mode -> openRouterKeys self <> [] ->
  streamChat messages mode (self, p) =
  let o := key_loop (MODELS mode) messages mode
             (length (openRouterKeys self)) None (self, p) in
  (match value o with
   | Ok (inl _) => Ok tt
   | Ok (inr last) => Throw (or_all_failed last)
   | Throw e => Throw e
   end, final o, events o).
Proof.
  intros Hon Hne. unfold streamChat, this.
  unfold bind at 1. unfold bind at 1. unfold get, ret. cbn [fst snd app].
  assert ((length (openRouterKeys self) =? 0) = false) as Hlen.
  { destruct (openRouterKeys self); [contradiction|reflexivity]. }
  assert (forall (A : Type) (x y : A),
            match (if match mode with uncensored => false | _ => true end
                   then groqClient self else None) with
            | Some groq => x
            | None => y
            end = y) as Hgroq.
  { intros A x y. destruct mode; cbn in Hon; try rewrite Hon; reflexivity. }
  assert ((if match mode with uncensored => false | _ => true end
           then match OPENROUTER_FALLBACKS (MODELS mode) with
                | Some m => if 0 <? length m then m else MODELS mode
                | None => MODELS mode
                end
           else MODELS mode) = MODELS mode) as Hmodel.
  { destruct mode; reflexivity. }
  destruct mode; cbn in Hon; try rewrite Hon; rewrite Hlen;
    cbv zeta; unfold bind, ret, throw;
    match goal with
    | |- context [key_loop ?m messages ?md ?n None (self, p)] =>
        change (key_loop m messages md n None (self, p))
          with (key_loop (MODELS md) messages md n None (self, p));
        destruct (key_loop (MODELS md) messages md n None (self, p))
          as [[[[u|l]|e] s1] t1]
    end; cbn [value final events fst snd app]; now rewrite ?app_nil_r.
Qed.


Lemma last_logged_from_stream (c : Client) (model : jsstring)
    (chunks : list (option jsstring)) (e : thrown) (rest : list ChatEvent)
    (init : thrown) :
  last_logged_from init (EvCreate c model :: yields chunks ++ EvLog e :: rest)
  = last_logged_from e rest.
Proof.
  change (EvCreate c model :: yields chunks ++ EvLog e :: rest)
    with ((EvCreate c model :: yields chunks) ++ EvLog e :: rest).
  now rewrite last_logged_from_app.
Qed.

Lemma created_stream (c : Client) (model : jsstring)
    (chunks : list (option jsstring)) (e : thrown) (rest : list ChatEvent) :
  created (EvCreate c model :: yields chunks ++ EvLog e :: rest)
  = c :: created rest.
Proof.
  change (created (EvCreate c model :: yields chunks ++ EvLog e :: rest))
    with (c :: created (yields chunks ++ EvLog e :: rest)).
  now rewrite created_app, created_yields.
Qed.

(** How the loop over the keys ends when it does not end with a
    stream that completed: either it has gone through its [n] turns, each
    of which failed with status 401, and holds the error of the last
    one; or a stream failed with another status, and what it rethrows is
    thrown.  In both cases the error is the last one logged. *)
Lemma key_loop_thrown (model : jsstring) (messages : list ChatMessage)
    (mode : ChatMode) (n : nat) (last : thrown) (self : ChatService) (p : P) :
  openRouterKeys self <> [] ->
  let o := key_loop model messages mode n last (self, p) in
  match value o with
  | Ok (inl _) => True
  | Ok (inr l) =>
      created (events o) = rotation self n
      /\ ((n = 0 /\ l = last)
          \/ exists e, has_status e 401 = true
                       /\ l = Some (invalidated e)
                       /\ forall init,
                            last_logged_from init (events o) = Some e)
  | Throw x =>
      exists e, has_status e 401 = false
                /\ x = Some (rethrown model e)
                /\ forall init, last_logged_from init (events o) = Some e
  end.
Proof.
  intros Hne. revert last self p Hne.
  induction n as [|n IH]; intros last self p Hne; cbv zeta.
  - cbn. split; [reflexivity|]. left. split; reflexivity.
  - rewrite key_loop_S by assumption.
    destruct (create (current_client self) model messages mode p)
      as [[chunks [e|]] p1]; [|exact I].
    destruct (has_status e 401) eqn:E401.
    + specialize (IH (Some (invalidated e)) (rotated self) p1 Hne).
      cbv zeta in *. cbn [value final events fst snd].
      destruct (value (key_loop model messages mode n
                         (Some (invalidated e)) (rotated self, p1)))
        as [[u|l]|x]; [exact I| |].
      * destruct IH as [Hc Hl].
        split; [now rewrite created_stream, Hc, <- rotation_S|].
        right. destruct Hl as [[-> ->]|(e' & H' & -> & Hlast)].
        -- exists e. repeat split; trivial.
           intros init. now rewrite last_logged_from_stream.
        -- exists e'. repeat split; trivial.
           intros init. rewrite last_logged_from_stream. apply Hlast.
      * destruct IH as (e' & H' & -> & Hlast).
        exists e'. repeat split; trivial.
        intros init. rewrite last_logged_from_stream. apply Hlast.
    + cbn [value final events fst snd]. exists e. repeat split; trivial.
      intros init. now rewrite last_logged_from_stream.
Qed.


End Facts.




End ChatFacts.

(** ** The batch driver *)

Module AppFacts.

Import Gateway App.

Section Facts.
Context `{Workers}.

Lemma slice_wave (i : nat) (qs : list ExamQuestion) :
  slice i (i + batchSize) qs = firstn batchSize (skipn i qs).
Proof. unfold slice. now rewrite Nat.add_comm, Nat.add_sub. Qed.

(** The loop over indices is a fold over the waves. *)
Lemma generation_loop_waves (fuel : nat) (qs : list ExamQuestion) (i : nat)
    (l : Loop) :
  generation_loop fuel qs i l
  = fold_left (fun acc batch => wave_step (length qs) batch acc)
      (waves fuel (skipn i qs)) l.
Proof.
  revert i l. induction fuel as [|fuel IH]; intros i l; [reflexivity|].
  cbn [generation_loop waves].
  destruct (i <? length qs) eqn:Ei.
  - apply Nat.ltb_lt in Ei.
    destruct (skipn i qs) as [|q t] eqn:Es.
    + apply (f_equal (@length _)) in Es. rewrite length_skipn in Es.
      cbn in Es. lia.
    + cbn [fold_left]. rewrite IH. rewrite slice_wave, Es.
      rewrite Nat.add_comm, <- skipn_skipn, Es. reflexivity.
  - apply Nat.ltb_ge in Ei. now rewrite skipn_all2.
Qed.

(** With enough fuel the waves are the batch cut in pieces of one to
    three questions. *)
Lemma waves_concat (fuel : nat) (qs : list ExamQuestion) :
  length qs <= fuel -> concat (waves fuel qs) = qs.
Proof.
  revert qs. induction fuel as [|fuel IH]; intros qs Hlen.
  - destruct qs; [reflexivity|cbn in Hlen; lia].
  - destruct qs as [|q t]; [reflexivity|].
    cbn [waves concat]. rewrite IH.
    + apply firstn_skipn.
    + rewrite length_skipn. unfold batchSize. cbn [length] in *. lia.
Qed.

Lemma waves_width (fuel : nat) (qs : list ExamQuestion) :
  Forall (fun batch => 1 <= length batch <= batchSize) (waves fuel qs).
Proof.
  revert qs. induction fuel as [|fuel IH]; intros qs; [constructor|].
  destruct qs as [|q t]; [constructor|].
  cbn [waves]. constructor; [|apply IH].
  rewrite length_firstn. unfold batchSize. cbn [length]. lia.
Qed.

Lemma wave_results_spec (w : W) (batch : list ExamQuestion) (j : nat)
    (rest : list ExamQuestion) :
  wave_results w batch j rest
  = map (fun jq => guarded (snd jq) (settle w batch (fst jq) (snd jq)))
        (combine (seq j (length rest)) rest).
Proof.
  revert j. induction rest as [|q rest IH]; intros j; [reflexivity|].
  cbn. now rewrite IH.
Qed.

Lemma settled_wave_length (w : W) (batch : list ExamQuestion) :
  length (settled_wave w batch) = length batch.
Proof.
  unfold settled_wave. rewrite length_map, length_combine, length_seq. lia.
Qed.

Lemma settled_length (w : W) (ws : list (list ExamQuestion)) :
  length (settled w ws) = length (concat ws).
Proof.
  revert w. induction ws as [|batch ws IH]; intros w; [reflexivity|].
  cbn. now rewrite !length_app, settled_wave_length, IH.
Qed.

Lemma combine_append {A C : Type} (l1 l1' : list A) (l2 l2' : list C) :
  length l1 = length l2 ->
  combine (l1 ++ l1') (l2 ++ l2') = combine l1 l2 ++ combine l1' l2'.
Proof.
  revert l2. induction l1 as [|a l1 IH]; intros [|c l2] Hlen;
    cbn in *; try discriminate; [reflexivity|].
  f_equal. apply IH. now inversion Hlen.
Qed.

Lemma guarded_spec (w : W) (whole : list ExamQuestion) (j : nat)
    (rest : list ExamQuestion) :
  let outs := map (fun jq => settle w whole (fst jq) (snd jq))
                  (combine (seq j (length rest)) rest) in
  let resolved := map (fun jq => guarded (snd jq)
                                   (settle w whole (fst jq) (snd jq)))
                      (combine (seq j (length rest)) rest) in
  map fst resolved
  = map (fun qo => result_for (fst qo) (snd qo)) (combine rest outs)
  /\ list_sum (map snd resolved) = length (filter is_failed outs).
Proof.
  revert j. induction rest as [|q rest IH]; intros j; [split; reflexivity|].
  destruct (IH (S j)) as [IH1 IH2]. cbv zeta in IH1, IH2.
  cbn [length seq combine map fst snd].
  split.
  - rewrite IH1. now destruct (settle w whole j q).
  - match goal with
    | |- list_sum (?a :: ?l) = _ => change (list_sum (a :: l)) with (a + list_sum l)
    end.
    rewrite IH2. now destruct (settle w whole j q).
Qed.

(** What a wave resolves to, question by question. *)
Lemma promise_all_spec (w : W) (batch : list ExamQuestion) :
  map fst (promise_all w batch)
  = map (fun qo => result_for (fst qo) (snd qo))
        (combine batch (settled_wave w batch))
  /\ list_sum (map snd (promise_all w batch))
     = length (filter is_failed (settled_wave w batch)).
Proof.
  unfold promise_all, settled_wave. rewrite wave_results_spec.
  apply guarded_spec.
Qed.

(** The loop as a whole: the results are those of the questions in
    order, the failures are counted, the progress counter follows the
    number of questions done. *)
Lemma waves_fold (n : nat) (ws : list (list ExamQuestion)) (l : Loop) :
  let l' := fold_left (fun acc batch => wave_step n batch acc) ws l in
  results l'
  = results l ++ map (fun qo => result_for (fst qo) (snd qo))
                     (combine (concat ws) (settled (world l) ws))
  /\ failureCount l'
     = failureCount l + length (filter is_failed (settled (world l) ws))
  /\ world l' = fold_left after_wave ws (world l)
  /\ (currentGenStep (ui l) <= n ->
      currentGenStep (ui l')
      = Nat.min (currentGenStep (ui l) + length (concat ws)) n)
  /\ analysis (ui l') = analysis (ui l)
  /\ state (ui l') = state (ui l)
  /\ error (ui l') = error (ui l)
  /\ totalGenSteps (ui l') = totalGenSteps (ui l)
  /\ refinedQuestions (ui l') = refinedQuestions (ui l).
Proof.
  revert l. induction ws as [|batch ws IH]; intros l.
  - cbn. rewrite app_nil_r, !Nat.add_0_r. repeat split; trivial.
    intros Hle. lia.
  - cbn [fold_left concat settled].
    destruct (IH (wave_step n batch l))
      as (Hr & Hf & Hw & Hc & Ha & Hs & He & Ht & Hq).
    cbv zeta in *.
    destruct (promise_all_spec (world l) batch) as [Hres Hsum].
    cbn [wave_step results failureCount ui world] in *.
    split; [|split; [|split; [|split]]].
    + rewrite Hr, Hres, <- app_assoc. f_equal.
      rewrite <- map_app. f_equal.
      rewrite combine_append; [reflexivity|].
      now rewrite settled_wave_length.
    + rewrite Hf, Hsum, filter_app, length_app. lia.
    + exact Hw.
    + intros Hle. rewrite Hc; cbn [setCurrentGenStep currentGenStep].
      * rewrite length_app. lia.
      * lia.
    + repeat split; assumption.
Qed.

Lemma nth_error_combine {A C : Type} (l1 : list A) (l2 : list C) (i : nat)
    (x : A) :
  length l2 = length l1 -> nth_error l1 i = Some x ->
  exists y, nth_error l2 i = Some y /\ nth_error (combine l1 l2) i = Some (x, y).
Proof.
  revert l2 i. induction l1 as [|a l1 IH]; intros [|c l2] [|i] Hlen Hx;
    cbn in *; try discriminate.
  - inversion Hx; subst. eauto.
  - apply IH; [now inversion Hlen|assumption].
Qed.

End Facts.

(** C9.  For a batch of N enabled questions, [startGeneration] works
    through them in waves of one to three questions, in order, and ends
    with exactly N results in the order of the questions: the result at
    a place is the value the [processQuestion] call of that question
    settled with, or the failure placeholder of that question if the call
    failed, whatever the other calls did.  It then is in state
    [COMPLETED], with the progress counter at N and the number of
    failures reported. *)
Theorem batch_completes `{Workers} (m : Model) (w : W) (a : ExamAnalysis) :
  analysis m = Some a ->
  let enabled := filter q_enabled (questions a) in
  let ws := waves (length enabled) enabled in
  let outs := settled w ws in
  let m' := fst (startGeneration m w) in
  concat ws = enabled
  /\ Forall (fun batch => 1 <= length batch <= 3) ws
  /\ length outs = length enabled
  /\ refinedQuestions m'
     = map (fun qo => result_for (fst qo) (snd qo)) (combine enabled outs)
  /\ length (refinedQuestions m') = length enabled
  /\ (forall i q, nth_error enabled i = Some q ->
        exists o, nth_error outs i = Some o
                  /\ nth_error (refinedQuestions m') i
                     = Some (result_for q o))
  /\ state m' = COMPLETED
  /\ totalGenSteps m' = length enabled
  /\ currentGenStep m' = length enabled
  /\ error m' = failure_message (length (filter is_failed outs))
  /\ snd (startGeneration m w) = fold_left after_wave ws w.
Proof.
  intros Ha enabled ws outs m'.
  assert (concat ws = enabled) as Hconcat by (apply waves_concat; lia).
  assert (length outs = length enabled) as Hlen.
  { subst outs. now rewrite settled_length, Hconcat. }
  set (l0 := mkLoop []
               0
               (setCurrentGenStep (fun _ => 0)
                  (setTotalGenSteps (length enabled)
                     (setError None (setState GENERATING m))))
               w).
  set (l := generation_loop (length enabled) enabled 0 l0).
  assert (startGeneration m w
          = ((if 0 <? failureCount l
              then setError
                     (Some (of_nat (failureCount l)
                            ++ lit " question(s) failed to generate, but the rest are available below."))
                     (setState COMPLETED
                        (setRefinedQuestions (results l) (ui l)))
              else setState COMPLETED
                     (setRefinedQuestions (results l) (ui l))),
             world l)) as Erun.
  { unfold startGeneration. rewrite Ha. reflexivity. }
  assert (l = fold_left (fun acc batch => wave_step (length enabled) batch acc)
                ws l0) as El.
  { subst l. now rewrite generation_loop_waves. }
  destruct (waves_fold (length enabled) ws l0)
    as (Hr & Hf & Hw & Hc & _ & _ & He & Ht & _).
  cbv zeta in Hr, Hf, Hw, Hc, He, Ht. rewrite <- El in *.
  cbn [l0 results failureCount world ui] in Hr, Hf, Hw.
  fold outs in Hr, Hf. rewrite Hconcat in Hr.
  assert (currentGenStep (ui l) = length enabled) as Hstep.
  { rewrite Hc by (cbn; lia). rewrite Hconcat. cbn. lia. }
  assert (refinedQuestions m'
          = map (fun qo => result_for (fst qo) (snd qo))
                (combine enabled outs)) as Hres.
  { subst m'. rewrite Erun. cbn [fst].
    destruct (0 <? failureCount l); cbn; exact Hr. }
  split; [assumption|]. split; [apply waves_width|].
  split; [assumption|]. split; [assumption|].
  split. { rewrite Hres, length_map, length_combine. lia. }
  split.
  { intros i q Hq.
    destruct (nth_error_combine enabled outs i q Hlen Hq) as (o & Ho & Hqo).
    exists o. split; [assumption|].
    rewrite Hres, nth_error_map, Hqo. reflexivity. }
  subst m'. rewrite Erun. cbn [fst snd].
  split. { destruct (0 <? failureCount l); reflexivity. }
  split. { destruct (0 <? failureCount l); cbn; exact Ht. }
  split. { destruct (0 <? failureCount l); cbn; exact Hstep. }
  split; [|exact Hw].
  unfold failure_message. cbn [Nat.add] in Hf. rewrite <- Hf.
  destruct (0 <? failureCount l); cbn; [reflexivity|exact He].
Qed.

(** C9 on five enabled questions of which the third always fails: five
    results, in order, the third one the placeholder of its question. *)
Lemma batch_completes_witness :
  let R := Fixture.graders (fun id => str_eqb id (lit "3")) in
  let m' := fst (startGeneration
                   (Fixture.reviewing Fixture.six_questions) 0) in
  length (refinedQuestions m') = 5
  /\ nth_error (refinedQuestions m') 2
     = Some (placeholder (Fixture.exam_question (lit "3") true))
  /\ map label (refinedQuestions m')
     = [lit "Q1"; lit "Q2"; lit "Q3"; lit "Q4"; lit "Q5"]
  /\ length (filter (fun r => str_eqb (refinedAnswer r) failed_answer)
               (refinedQuestions m')) = 1
  /\ error m' = failure_message 1.
Proof.
  intros R m'.
  destruct (@batch_completes R (Fixture.reviewing Fixture.six_questions) 0
              Fixture.six_questions eq_refl)
    as (_ & _ & _ & _ & Hlen & _ & _ & _ & _ & Herr & _).
  split; [exact Hlen|].
  split; [vm_compute; reflexivity|].
  split; [vm_compute; reflexivity|].
  split; [vm_compute; reflexivity|].
  exact Herr.
Defined.

End AppFacts.

(** ** Single keys and stored settings *)

Module PoolFacts.

Import Keys Gateway Pools KeysFacts EffFacts GatewayFacts.
Local Open Scope eff_scope.

Lemma trimEnd_snoc_white (x : jsstring) (c : char16) :
  is_white c = true -> trimEnd (x ++ [c]) = trimEnd x.
Proof.
  intros Hc. unfold trimEnd. rewrite rev_app_distr. cbn. now rewrite Hc.
Qed.

Lemma trimEnd_snoc_black (x : jsstring) (c : char16) :
  is_white c = false -> trimEnd (x ++ [c]) = x ++ [c].
Proof.
  intros Hc. unfold trimEnd. rewrite rev_app_distr. cbn. rewrite Hc.
  cbn. now rewrite rev_involutive.
Qed.

Lemma trimStart_snoc_white (p : jsstring) (c : char16) :
  is_white c = true ->
  trimStart (p ++ [c])
  = if forallb is_white p then [] else trimStart p ++ [c].
Proof.
  intros Hc. induction p as [|a p IH]; cbn.
  - now rewrite Hc.
  - destruct (is_white a); cbn; [assumption|reflexivity].
Qed.

Lemma trim_snoc_white (p : jsstring) (c : char16) :
  is_white c = true -> trim (p ++ [c]) = trim p.
Proof.
  intros Hc. unfold trim. rewrite trimStart_snoc_white by assumption.
  destruct (forallb is_white p) eqn:E.
  - now rewrite (trimStart_white p E).
  - now apply trimEnd_snoc_white.
Qed.

Lemma trim_cons_white (c : char16) (p : jsstring) :
  is_white c = true -> trim (c :: p) = trim p.
Proof. intros Hc. unfold trim. cbn. now rewrite Hc. Qed.

Lemma entries_app (a b : list jsstring) :
  entries (a ++ b) = entries a ++ entries b.
Proof. unfold entries. now rewrite map_app, filter_app. Qed.

(** Splitting a string that has one more character at its end. *)
Lemma split_snoc sep (l : jsstring) (c : char16) :
  split sep (l ++ [c])
  = if sep c then split sep l ++ [[]]
    else removelast (split sep l) ++ [last (split sep l) [] ++ [c]].
Proof.
  induction l as [|a l IH]; cbn.
  - destruct (sep c); reflexivity.
  - rewrite IH.
    destruct (split sep l) as [|p ps] eqn:E;
      [now destruct (split_nonempty sep l)|].
    destruct (sep a), (sep c); try reflexivity;
      destruct ps; reflexivity.
Qed.

Lemma entries_trimStart sep (s : jsstring) :
  entries (split sep (trimStart s)) = entries (split sep s).
Proof.
  induction s as [|c s IH]; [reflexivity|].
  cbn [trimStart]. destruct (is_white c) eqn:Hc; [|reflexivity].
  rewrite IH. cbn [split]. destruct (sep c); [reflexivity|].
  destruct (split sep s) as [|p ps] eqn:E;
    [now destruct (split_nonempty sep s)|].
  unfold entries. cbn [map]. now rewrite (trim_cons_white c p Hc).
Qed.

Lemma entries_trimEnd sep (s : jsstring) :
  entries (split sep (trimEnd s)) = entries (split sep s).
Proof.
  induction s as [|c l IH] using rev_ind; [reflexivity|].
  destruct (is_white c) eqn:Hc.
  - rewrite (trimEnd_snoc_white l c Hc), IH, split_snoc.
    destruct (sep c).
    + rewrite entries_app. cbn. now rewrite app_nil_r.
    + assert (split sep l <> []) as HX by apply split_nonempty.
      rewrite (app_removelast_last [] HX) at 1.
      rewrite !entries_app. f_equal.
      unfold entries. cbn [map]. now rewrite (trim_snoc_white _ c Hc).
  - now rewrite (trimEnd_snoc_black l c Hc).
Qed.

(** A key string means the same pool with or without the white space
    around it. *)
Lemma getAllKeys_trim (s : jsstring) :
  getAllKeys (Some (trim s)) = getAllKeys (Some s).
Proof.
  rewrite !getAllKeys_entries. unfold trim.
  now rewrite entries_trimEnd, entries_trimStart.
Qed.

Lemma entries_separators sep (s : jsstring) :
  forallb (fun c => is_white c || sep c) s = true ->
  entries (split sep s) = [].
Proof.
  intros Hall. apply entries_white. intros p Hp.
  apply forallb_In. intros c Hc.
  pose proof (split_no_sep sep s p c Hp Hc) as Hsep.
  pose proof (split_sub sep s p c Hp Hc) as Hin.
  rewrite forallb_forall in Hall. specialize (Hall c Hin).
  rewrite Hsep, orb_false_r in Hall. exact Hall.
Qed.

Lemma draws_S `{Runtime} (n : nat) (b : B) :
  draws (S n) b = draws n (snd (Math_random b)).
Proof. unfold draws. now rewrite Nat.iter_succ_r. Qed.

Lemma shuffle_from_run `{Runtime} {T} (i : nat) (a : list T) (b : B) :
  exists a', shuffle_from i a b = (Ok a', draws i b, [])
             /\ Permutation a' a.
Proof.
  revert a b. induction i as [|i IH]; intros a b.
  - exists a. split; [reflexivity|apply Permutation_refl].
  - cbn [shuffle_from]. unfold bind, random_below.
    destruct (Math_random b) as [r b1] eqn:Er.
    destruct (IH (swap (S i) (r mod (S i + 1)) a) b1) as (a' & E & Hp).
    rewrite E. exists a'. split.
    + rewrite draws_S, Er. reflexivity.
    + eapply Permutation_trans; [exact Hp|apply swap_perm].
Qed.

(** X1.  [shuffleArray] returns a rearrangement of its argument: the
    same keys, each as many times as before, so no key is lost and none
    is added.  It calls [Math.random()] once for each position but the
    first, emits nothing and never throws. *)
Theorem shuffle_is_a_rearrangement `{Runtime} {T} (array : list T) (b : B) :
  exists shuffled,
    shuffleArray array b = (Ok shuffled, draws (length array - 1) b, [])
    /\ Permutation shuffled array
    /\ length shuffled = length array.
Proof.
  destruct (shuffle_from_run (length array - 1) array b) as (a' & E & Hp).
  exists a'. repeat split; trivial. now apply Permutation_length.
Qed.

(** The random pick: nothing for an empty pool, a member of any
    other. *)
Lemma pick_run `{Runtime} (keys : list jsstring) (b : B) :
  (keys = [] -> pick keys b = (Ok None, b, []))
  /\ (keys <> [] ->
      exists k, In k keys /\ pick keys b = (Ok (Some k), draws 1 b, [])).
Proof.
  split.
  - intros ->. reflexivity.
  - intros Hne. unfold pick.
    destruct keys as [|k0 keys]; [now destruct Hne|].
    change (0 <? length (k0 :: keys)) with true. cbv iota.
    unfold bind, random_below, ret.
    assert (draws 1 b = snd (Math_random b)) as -> by reflexivity.
    destruct (Math_random b) as [r b1]. cbn [snd].
    assert (r mod length (k0 :: keys) < length (k0 :: keys)) as Hlt
      by (apply Nat.mod_upper_bound; discriminate).
    destruct (nth_error (k0 :: keys) (r mod length (k0 :: keys)))
      as [k|] eqn:Ek.
    + exists k. split; [eapply nth_error_In; eassumption|reflexivity].
    + apply nth_error_None in Ek. lia.
Qed.

(** The keys of a pool are not empty strings. *)
Lemma pool_key_nonempty `{Runtime} (p : ModelProvider) (k : jsstring) :
  In k (keysOf p) -> k <> [].
Proof.
  assert (forall x, In k (getAllKeys x) -> k <> []) as Hall.
  { intros [s|]; [|intros []].
    rewrite getAllKeys_entries. intros Hin.
    now destruct (entries_In _ _ _ Hin). }
  destruct p; apply Hall.
Qed.

(** X2.  [getGeminiApiKey] and [getOpenRouterApiKey] return [undefined]
    for an empty pool, without a call of [Math.random()]; for any other
    pool they return one of its keys, after one call: the index they
    compute is never outside the pool. *)
Theorem single_key_is_drawn_from_the_pool `{Runtime} (p : ModelProvider)
    (b : B) :
  let getKey := match p with
                | gemini => getGeminiApiKey
                | openrouter => getOpenRouterApiKey
                end in
  (keysOf p = [] -> getKey b = (Ok None, b, []))
  /\ (keysOf p <> [] ->
      exists k, In k (keysOf p)
                /\ getKey b = (Ok (Some k), draws 1 b, [])).
Proof.
  cbv zeta. destruct (pick_run (keysOf p) b) as [Hempty Hpick]. split.
  - intros E. destruct p; exact (Hempty E).
  - intros Hne. destruct (Hpick Hne) as (k & Hin & Erun).
    exists k. split; [exact Hin|]. destruct p; exact Erun.
Qed.

Lemma single_key_is_drawn_from_the_pool_witness :
  exists k,
    In k (@keysOf (Fixture.offline
                     (Fixture.stored (Some (lit "k1,k2")) None None)) gemini)
    /\ @getGeminiApiKey
         (Fixture.offline (Fixture.stored (Some (lit "k1,k2")) None None)) 1
       = (Ok (Some k), 2, []).
Proof.
  apply (single_key_is_drawn_from_the_pool
           (H := Fixture.offline
                   (Fixture.stored (Some (lit "k1,k2")) None None))
           gemini 1).
  vm_compute. discriminate.
Defined.

(** X3.  The key sources of a provider are never merged.  In a browser,
    a stored key string that is not empty is the only source of the
    pool, whatever the build-time variables hold; when that string has
    nothing but separators and white space, the pool is empty and every
    call of [withProviderRetry] for the provider fails with the
    missing-keys error, without a call of the operation. *)
Theorem stored_keys_shadow_the_environment `{Runtime} (p : ModelProvider) :
  has_window env = true ->
  truthy (stored_of p env) = true ->
  keysOf p = getAllKeys (stored_of p env)
  /\ (forall s,
        stored_of p env = Some s ->
        forallb (fun c => is_white c || comma_or_newline c) s = true ->
        keysOf p = []
        /\ forall (T : Type) (fn : jsstring -> M T) (n : nat) (b : B),
             withProviderRetry p fn n b
             = (Throw (Some (new_Error
                  (lit "No API keys available for provider: "
                   ++ provider_name p))), b, [])).
Proof.
  intros Hwin Htruthy.
  assert (keysOf p = getAllKeys (stored_of p env)) as Ekeys.
  { destruct p; unfold keysOf, getGeminiKeys, getOpenRouterKeys,
      from_window, or_undefined; cbn [stored_of] in *;
      rewrite Hwin, Htruthy; cbn [negb]; now rewrite Htruthy. }
  split; [exact Ekeys|].
  intros s Es Hall.
  assert (keysOf p = []) as Hempty.
  { rewrite Ekeys, Es, getAllKeys_entries.
    now apply entries_separators. }
  split; [exact Hempty|].
  intros T fn n b. now apply withProviderRetry_no_keys.
Qed.

Lemma stored_keys_shadow_the_environment_witness :
  @keysOf (Fixture.offline
             (mkEnv true (Some (lit " , ")) None None
                (Some (lit "k1")) None None false None None)) gemini = [].
Proof.
  apply (proj2 (stored_keys_shadow_the_environment
                  (H := Fixture.offline
                          (mkEnv true (Some (lit " , ")) None None
                             (Some (lit "k1")) None None false None None))
                  gemini eq_refl eq_refl) (lit " , ") eq_refl eq_refl).
Defined.

(** X4.  What the settings panel saves is what the gateway uses.  After
    [saveLocalKeys], in a browser, the pool of a provider is the parse of
    the text typed for it, white space around the text included or not;
    a field left blank leaves the pool as it was, and so keeps a key
    saved before.  A Groq key is stored trimmed. *)
Theorem saved_keys_reach_the_gateway (R : Runtime)
    (geminiKeyInput openRouterKeyInput groqKeyInput : jsstring)
    (p : ModelProvider) :
  let input := match p with
               | gemini => geminiKeyInput
               | openrouter => openRouterKeyInput
               end in
  let R' := with_env R (saveLocalKeys geminiKeyInput openRouterKeyInput
                          groqKeyInput (@env R)) in
  (has_window (@env R) = true -> trim input <> [] ->
   @keysOf R' p = getAllKeys (Some input))
  /\ (trim input = [] -> @keysOf R' p = @keysOf R p)
  /\ (has_window (@env R) = true -> trim groqKeyInput <> [] ->
      @getGroqApiKey R' = Some (trim groqKeyInput)).
Proof.
  cbv zeta. repeat split.
  - intros Hwin Hne.
    destruct p; unfold keysOf, getGeminiKeys, getOpenRouterKeys,
      from_window, or_undefined;
      cbn [env with_env saveLocalKeys has_window local_gemini
           local_openrouter];
      rewrite Hwin; unfold setItem_trimmed.
    + rewrite <- getAllKeys_trim.
      destruct (trim geminiKeyInput) as [|c t]; [now destruct Hne|].
      reflexivity.
    + rewrite <- getAllKeys_trim.
      destruct (trim openRouterKeyInput) as [|c t]; [now destruct Hne|].
      reflexivity.
  - intros Hblank.
    destruct p; unfold keysOf, getGeminiKeys, getOpenRouterKeys,
      from_window;
      cbn [env with_env saveLocalKeys has_window local_gemini
           local_openrouter vite_gemini vite_openrouter has_process
           node_API_KEY node_GEMINI_API_KEY];
      unfold setItem_trimmed; rewrite Hblank; reflexivity.
  - intros Hwin Hne.
    unfold getGroqApiKey, from_window, or_undefined.
    cbn [env with_env saveLocalKeys has_window local_groq].
    rewrite Hwin. unfold setItem_trimmed.
    destruct (trim groqKeyInput) as [|c t]; [now destruct Hne|].
    reflexivity.
Qed.

Lemma saved_keys_reach_the_gateway_witness :
  @keysOf (with_env (Fixture.offline (Fixture.stored None None None))
             (saveLocalKeys (lit " k1, k2 ") [] []
                (Fixture.stored None None None))) gemini
  = getAllKeys (Some (lit " k1, k2 ")).
Proof.
  apply (proj1 (saved_keys_reach_the_gateway
                  (Fixture.offline (Fixture.stored None None None))
                  (lit " k1, k2 ") [] [] gemini)).
  - reflexivity.
  - vm_compute. discriminate.
Defined.

(** X5.  The number of keys the settings badge shows for a saved key
    string is the number of keys [getAllKeys] makes of it: the badge
    counts the pieces that are not blank, the gateway trims the pieces
    and drops the empty ones. *)
Theorem shown_key_count_is_pool_size (saved : jsstring) :
  shownKeyCount saved = length (getAllKeys (Some saved)).
Proof.
  rewrite getAllKeys_entries. unfold shownKeyCount, entries.
  generalize (split comma_or_newline saved). intros pieces.
  induction pieces as [|piece pieces IH]; [reflexivity|].
  cbn [filter map]. destruct (trim piece) as [|c t].
  - change (nonempty []) with false. cbn [truthy]. exact IH.
  - change (nonempty (c :: t)) with true. cbn [truthy length].
    f_equal. exact IH.
Qed.

End PoolFacts.

(** ** More on the retry policy *)

Module RetryFacts.

Import Keys Gateway EffFacts GatewayFacts.
Local Open Scope eff_scope.

Section Facts.
Context `{Runtime}.
Variable T : Type.
Variable provider : ModelProvider.
Variable fn : jsstring -> M T.

Local Abbreviation failed_or_other :=
  (fun ev => is_attempt ev = true -> is_failure ev = true).

(** The loop of one key ends with the first call that succeeds. *)
Lemma retry_key_shape (maxR nkeys : nat) (k : jsstring) (n i : nat)
    (last : thrown) (b : B) :
  let o := retry_key provider fn maxR nkeys k n i last b in
  match value o with
  | Ok (Returned v) =>
      exists evs t0 b0,
        events o = evs ++ [EvAttempt provider k t0 None]
        /\ Forall failed_or_other evs
        /\ fn k b0 = (Ok v, final o, t0)
  | Ok (NextKey _) => Forall failed_or_other (events o)
  | Throw _ => False
  end.
Proof.
  revert i last b. induction n as [|n IH]; intros i last b; cbv zeta.
  - cbn. constructor.
  - rewrite retry_key_S.
    destruct (fn k b) as [[[v|e] b1] t1] eqn:Efn.
    + cbn [value final events fst snd].
      exists [], t1, b. repeat split; [constructor|assumption].
    + destruct (isQuotaError e && (1 <? nkeys)).
      { cbn [value final events fst snd].
        constructor; [intros _; reflexivity|constructor]. }
      destruct (isQuotaError e && (i <? maxR - 1)).
      2:{ cbn [value final events fst snd].
          constructor; [intros _; reflexivity|constructor]. }
      specialize (IH (S i) e b1). cbv zeta in *.
      cbn [value final events fst snd].
      destruct (value (retry_key provider fn maxR nkeys k n (S i) e b1))
        as [[v|le]|e']; [| |exact IH].
      * destruct IH as (evs & t0 & b0 & E1 & Hall & E2).
        exists (EvAttempt provider k t1 (Some e) :: EvDelay 500 :: evs),
          t0, b0.
        rewrite E1. repeat split; [|assumption].
        constructor; [intros _; reflexivity|].
        constructor; [discriminate|assumption].
      * constructor; [intros _; reflexivity|].
        constructor; [discriminate|assumption].
Qed.

Lemma each_key_shape (maxR nkeys : nat) (keys : list jsstring)
    (last : thrown) (b : B) (v : T) :
  let o := each_key provider fn maxR nkeys keys last b in
  value o = Ok v ->
  exists evs k t0 b0,
    In k keys
    /\ events o = evs ++ [EvAttempt provider k t0 None]
    /\ Forall failed_or_other evs
    /\ fn k b0 = (Ok v, final o, t0).
Proof.
  revert last b. induction keys as [|k keys IH]; intros last b; cbv zeta.
  - cbn. discriminate.
  - pose proof (retry_key_shape maxR nkeys k maxR 0 last b) as Hk.
    cbv zeta in Hk. rewrite each_key_cons. cbv zeta.
    destruct (value (retry_key provider fn maxR nkeys k maxR 0 last b))
      as [[v1|le]|e'] eqn:Ex; [| |destruct Hk];
      cbn [value final events fst snd].
    + intros E. inversion E; subst v1.
      destruct Hk as (evs & t0 & b0 & E1 & Hall & E2).
      exists evs, k, t0, b0. repeat split; trivial. now left.
    + intros E.
      destruct (IH _ _ E) as (evs & k0 & t0 & b0 & Hin & E1 & Hall & E2).
      exists (events (retry_key provider fn maxR nkeys k maxR 0 last b)
              ++ evs), k0, t0, b0.
      split; [now right|]. split; [rewrite E1; now rewrite app_assoc|].
      split; [|assumption]. apply Forall_app. now split.
Qed.

(** With a budget of no attempt, no key is tried. *)
Lemma each_key_zero (nkeys : nat) (keys : list jsstring) (last : thrown)
    (b : B) :
  each_key provider fn 0 nkeys keys last b = (Throw last, b, []).
Proof.
  revert last b. induction keys as [|k keys IH]; intros last b;
    [reflexivity|].
  rewrite each_key_cons. cbn. now rewrite IH.
Qed.

Section Plain.
Hypothesis Hplain : forall k b0 e,
  value (fn k b0) = Throw e -> isQuotaError e = false.

(** When no failure is a quota error, a key is called once, whatever
    the budget. *)
Lemma each_key_plain (m nkeys : nat) (k : jsstring) (rest : list jsstring)
    (last : thrown) (b : B) :
  each_key provider fn (S m) nkeys (k :: rest) last b =
  match fn k b with
  | (Ok v, b1, t1) => (Ok v, b1, [EvAttempt provider k t1 None])
  | (Throw e, b1, t1) =>
      let o := each_key provider fn (S m) nkeys rest e b1 in
      (value o, final o, EvAttempt provider k t1 (Some e) :: events o)
  end.
Proof.
  rewrite each_key_cons. cbv zeta. rewrite retry_key_S.
  pose proof (Hplain k b) as Hq.
  destruct (fn k b) as [[[v|e] b1] t1]; [reflexivity|].
  rewrite (Hq e eq_refl). reflexivity.
Qed.

Lemma each_key_plain_events (m nkeys : nat) (keys : list jsstring)
    (last : thrown) (b : B) :
  let o := each_key provider fn (S m) nkeys keys last b in
  Forall (fun ev => is_delay ev = false) (events o)
  /\ (forall k, attempts_on k (events o) <= count_occ key_eq_dec keys k)
  /\ (forall e, value o = Throw e -> attempted_keys (events o) = keys).
Proof.
  revert last b. induction keys as [|k keys IH]; intros last b; cbv zeta.
  - cbn. repeat split; [constructor|lia].
  - rewrite each_key_plain.
    destruct (fn k b) as [[[v|e] b1] t1].
    + cbn [value final events fst snd]. repeat split.
      * constructor; [reflexivity|constructor].
      * intros k'. unfold attempts_on. cbn.
        destruct (key_eq_dec k' k), (key_eq_dec k k'); cbn; try lia.
        congruence.
      * discriminate.
    + destruct (IH e b1) as (Hd & Hc & Hx). cbv zeta in *.
      cbn [value final events fst snd]. repeat split.
      * constructor; [reflexivity|assumption].
      * intros k'. specialize (Hc k'). unfold attempts_on in *. cbn.
        destruct (key_eq_dec k' k), (key_eq_dec k k'); cbn; try lia.
        congruence.
      * intros e' E. cbn. f_equal. now apply (Hx e').
Qed.

End Plain.

End Facts.

(** X6.  A call of [withProviderRetry] that returns made exactly one
    successful call of the operation, and it was the last thing it did:
    every attempt before it failed, the value returned and the state
    left are those of that call, made with a key of the pool. *)
Theorem success_is_the_last_attempt `{Runtime} (T : Type)
    (p : ModelProvider) (fn : jsstring -> M T) (maxRetriesPerKey : nat)
    (b : B) (v : T) :
  let o := withProviderRetry p fn maxRetriesPerKey b in
  value o = Ok v ->
  exists evs k t0 b0,
    In k (keysOf p)
    /\ events o = evs ++ [EvAttempt p k t0 None]
    /\ Forall (fun ev => is_attempt ev = true -> is_failure ev = true) evs
    /\ fn k b0 = (Ok v, final o, t0).
Proof.
  cbv zeta. destruct (keysOf p) as [|k0 ks] eqn:Ek.
  - rewrite withProviderRetry_no_keys by assumption. discriminate.
  - assert (keysOf p <> []) as Hne by (rewrite Ek; discriminate).
    destruct (withProviderRetry_run p fn maxRetriesPerKey b Hne)
      as (sh & b1 & Hperm & ->).
    intros E.
    destruct (each_key_shape T p fn maxRetriesPerKey _ sh None b1 v E)
      as (evs & k & t0 & b0 & Hin & E1 & Hall & E2).
    exists evs, k, t0, b0. repeat split; trivial.
    rewrite <- Ek. eapply Permutation_in; eassumption.
Qed.

Lemma success_is_the_last_attempt_witness :
  exists evs k t0 b0,
    In k (@keysOf Scenes.two_keys gemini)
    /\ events (@withProviderRetry Scenes.two_keys _ gemini
                 (Fixture.picky (fun k => str_eqb k (lit "k1"))) 3 0)
       = evs ++ [EvAttempt gemini k t0 None]
    /\ Forall (fun ev => is_attempt ev = true -> is_failure ev = true) evs
    /\ Fixture.picky (fun k => str_eqb k (lit "k1")) k b0
       = (Ok (lit "k2"),
          final (@withProviderRetry Scenes.two_keys _ gemini
                   (Fixture.picky (fun k => str_eqb k (lit "k1"))) 3 0),
          t0).
Proof.
  apply (success_is_the_last_attempt (H := Scenes.two_keys) jsstring gemini
           (Fixture.picky (fun k => str_eqb k (lit "k1"))) 3 0 (lit "k2")).
  vm_compute. reflexivity.
Defined.

(** X7.  Failures that are no quota error are never retried on the same
    key: when the operation only fails with other errors, a run has no
    delay and calls the operation at most once for each place a key has
    in the pool, whatever [maxRetriesPerKey] is; and when the run fails,
    with a budget of at least one attempt, every key of the pool was
    called exactly once. *)
Theorem other_errors_move_to_the_next_key `{Runtime} (T : Type)
    (p : ModelProvider) (fn : jsstring -> M T) (maxRetriesPerKey : nat)
    (b : B) :
  (forall k b0 e, value (fn k b0) = Throw e -> isQuotaError e = false) ->
  let o := withProviderRetry p fn maxRetriesPerKey b in
  Forall (fun ev => is_delay ev = false) (events o)
  /\ (forall k, attempts_on k (events o)
                <= count_occ key_eq_dec (keysOf p) k)
  /\ (1 <= maxRetriesPerKey ->
      forall e, value o = Throw e ->
                Permutation (attempted_keys (events o)) (keysOf p)).
Proof.
  intros Hplain. cbv zeta.
  destruct (keysOf p) as [|k0 ks] eqn:Ek.
  - rewrite withProviderRetry_no_keys by assumption.
    cbn. repeat split; [constructor|lia|constructor].
  - assert (keysOf p <> []) as Hne by (rewrite Ek; discriminate).
    destruct (withProviderRetry_run p fn maxRetriesPerKey b Hne)
      as (sh & b1 & Hperm & ->).
    rewrite Ek in Hperm.
    destruct maxRetriesPerKey as [|m].
    + rewrite each_key_zero. cbn.
      repeat split; [constructor|lia|lia].
    + destruct (each_key_plain_events T p fn Hplain m (length (keysOf p))
                  sh None b1)
        as (Hd & Hc & Hx). cbv zeta in *.
      repeat split; [assumption| |].
      * intros k. rewrite <- (proj1 (Permutation_count_occ key_eq_dec _ _)
                                Hperm k). apply Hc.
      * intros _ e E. now rewrite (Hx e E).
Qed.

Lemma other_errors_move_to_the_next_key_witness :
  Permutation
    (attempted_keys
       (events (@withProviderRetry Scenes.two_keys _ gemini
                  Scenes.refused 3 0)))
    (@keysOf Scenes.two_keys gemini).
Proof.
  refine (proj2 (proj2 (other_errors_move_to_the_next_key
                          (H := Scenes.two_keys) jsstring gemini
                          Scenes.refused 3 0 _)) _
            (Some (new_Error (lit "invalid request"))) _).
  - intros k b0 e E. vm_compute in E. inversion E. reflexivity.
  - lia.
  - vm_compute. reflexivity.
Defined.

End RetryFacts.

(** ** The requests of the fallback chains *)

Module RoutingFacts.

Import Keys Gateway Routing EffFacts GatewayFacts.
Local Open Scope eff_scope.

Section Facts.
Context `{Runtime}.

Lemma io_all_cons (ev : Event) (evs : list Event) :
  io_all (ev :: evs) = io ev ++ io_all evs.
Proof. reflexivity. Qed.

(** Without attempts there is nothing to open up. *)
Lemma io_all_flat (evs : list Event) :
  Forall (fun ev => is_attempt ev = false) evs -> io_all evs = evs.
Proof.
  induction 1 as [|ev evs Hev _ IH]; [reflexivity|].
  rewrite io_all_cons, IH. now destruct ev.
Qed.

(** What holds of the events of every call of the operation holds of
    the opened events of a run of the retry policy. *)
Lemma io_all_Forall {T} (p : ModelProvider) (fn : jsstring -> M T)
    (keys : list jsstring) (Q : Event -> Prop) (evs : list Event) :
  Forall (fun ev => exists k, In k keys /\ call_of p fn k ev) evs ->
  (forall k b0, In k keys -> Forall Q (io_all (events (fn k b0)))) ->
  Forall Q (io_all evs).
Proof.
  intros Hall HQ. induction Hall as [|ev evs (k & Hin & b0 & ->) _ IH].
  - constructor.
  - rewrite io_all_cons. apply Forall_app. split; [|exact IH].
    apply (HQ k b0 Hin).
Qed.

Lemma callGroq_request key promptText fs model b :
  events (callGroq key promptText fs model b)
  = [EvFetch (groq_call_request key promptText fs model)].
Proof.
  unfold callGroq, http_call, call, groq_call_request.
  unfold bind, emit.
  destruct (fetch _ b) as [[err|r] b1]; [reflexivity|].
  destruct (negb (ok r)); [reflexivity|]. cbn.
  destruct (response_json (body r)) as [err|d]; [reflexivity|]. cbn.
  destruct (choices0_content_strict d) as [err|c]; [reflexivity|]. cbn.
  now destruct (JSON_parse _).
Qed.

Lemma callOpenRouter_request q k model b :
  events (callOpenRouter q k model b)
  = [EvFetch (openrouter_answer_request q k model)].
Proof.
  unfold callOpenRouter, http_call, call, bind, emit,
    openrouter_answer_request, prompt.
  destruct (fetch _ b) as [[err|r] b1]; [reflexivity|].
  destruct (negb (ok r)); [reflexivity|]. cbn.
  now destruct (response_json (body r)).
Qed.

Lemma callGemini_request q k model b :
  events (callGemini q k model b)
  = [EvGemini k (gemini_answer_request q model)].
Proof.
  unfold callGemini, gemini_call, call, bind, emit, gemini_answer_request,
    prompt.
  now destruct (generateContent _ _ b) as [[err|r] b1].
Qed.

Lemma openrouter_run_calls q modelName provider b :
  Forall (answer_call q provider modelName)
    (io_all (events (openrouter_run q modelName provider b))).
Proof.
  eapply io_all_Forall; [apply once_calls|].
  intros k b0 Hin. cbv beta. rewrite callOpenRouter_request.
  constructor; [|constructor].
  exists k. split; [exact Hin|]. now destruct provider.
Qed.

Lemma gemini_run_calls q modelName provider b :
  Forall (answer_call q provider modelName)
    (io_all (events (gemini_run q modelName provider b))).
Proof.
  eapply io_all_Forall; [apply once_calls|].
  intros k b0 Hin. cbv beta. rewrite callGemini_request.
  constructor; [|constructor].
  split; [exact Hin|]. now destruct provider.
Qed.

Lemma link1_no_fetch files modelName b (Q : Event -> bool) :
  (forall ev, Q ev = true -> is_fetch ev = true) ->
  existsb Q (io_all (events (link1 files modelName b))) = false.
Proof.
  intros HQ. eapply io_all_calls; [apply once_calls|].
  assert (forall ev, is_fetch ev = false -> Q ev = false) as HQ'.
  { intros ev Hev. destruct (Q ev) eqn:E; [|reflexivity].
    apply HQ in E. congruence. }
  intros k b0. rewrite scanPrimary_events.
  cbn [io_all flat_map io app existsb].
  now rewrite !HQ' by reflexivity.
Qed.

Lemma link2_no_fetch files modelName b (Q : Event -> bool) :
  (forall ev, Q ev = true -> is_fetch ev = true) ->
  existsb Q (io_all (events (link2 files modelName b))) = false.
Proof.
  intros HQ. eapply io_all_calls; [apply once_calls|].
  assert (forall ev, is_fetch ev = false -> Q ev = false) as HQ'.
  { intros ev Hev. destruct (Q ev) eqn:E; [|reflexivity].
    apply HQ in E. congruence. }
  intros k b0. rewrite scanFallback_events.
  cbn [io_all flat_map io app existsb].
  now rewrite !HQ' by reflexivity.
Qed.

Lemma link3_no_openrouter files modelName b :
  existsb is_openrouter_fetch (io_all (events (link3 files modelName b)))
  = false.
Proof.
  unfold link3.
  destruct (analyzeWithGroq_events files (final (link2 files modelName b)))
    as (Hflat & Hnet & _).
  rewrite (io_all_flat _ Hflat).
  induction Hnet as [|ev evs Hev _ IH]; [reflexivity|].
  inversion Hflat; subst. cbn [existsb]. rewrite IH by assumption.
  rewrite orb_false_r.
  destruct ev as [| | |req|]; try reflexivity.
  destruct (Hev eq_refl) as (model & E & _). now inversion E.
Qed.

End Facts.

(** X8.  Every request [refineAcademicAnswer] makes is a request for the
    answer of its question with a key of the pool of the vendor it goes
    to, and the model the user chose is named only in requests to the
    provider it was chosen for: the other vendor is asked for its fixed
    default model ([google/gemini-2.0-flash-001] at OpenRouter,
    [gemini-2.0-flash-exp] at Gemini).  No request carries an image or
    asks for JSON, and the function never waits. *)
Theorem refine_names_the_chosen_model_to_its_provider `{Runtime}
    (question : ExamQuestion) (modelName : jsstring)
    (provider : ModelProvider) (b : B) :
  Forall (answer_call question provider modelName)
    (io_all (events (refineAcademicAnswer question modelName provider b))).
Proof.
  rewrite refineAcademicAnswer_runs.
  pose proof (openrouter_run_calls question modelName provider b) as Ho.
  destruct (0 <? length getOpenRouterKeys); cbv zeta.
  - destruct (value (openrouter_run question modelName provider b));
      cbn [events snd]; [exact Ho|].
    pose proof (gemini_run_calls question modelName provider
                  (final (openrouter_run question modelName provider b)))
      as Hg.
    destruct (value (gemini_run question modelName provider _));
      cbn [events snd];
      rewrite ?io_all_app, ?io_all_cons, ?io_all_app;
      repeat (apply Forall_app; split); trivial;
      repeat constructor.
  - pose proof (gemini_run_calls question modelName provider b) as Hg.
    destruct (value (gemini_run question modelName provider b));
      cbn [events snd]; [exact Hg|].
    rewrite io_all_app. apply Forall_app. split; [exact Hg|].
    repeat constructor.
Qed.

(** X9.  [analyzeWithGroq] without a stored or build-time Groq key fails
    with [No Groq API key available] before any request.  With a key it
    sends one request for [llama-4-maverick]; when that succeeds it is
    the whole call; when it fails, for whatever reason, a warning is
    logged and one request for [llama-3.2-90b-vision-preview] is sent
    with the same key, and its outcome is the outcome of the call: the
    first error is dropped.  A response that is not OK is thrown as
    [Groq Error (model): body]. *)
Theorem groq_scan_tries_two_models `{Runtime}
    (fs : list (jsstring * option jsstring)) (promptText : jsstring)
    (b : B) :
  let o := analyzeWithGroq fs promptText b in
  (truthy getGroqApiKey = false ->
   o = (Throw (Some (new_Error (lit "No Groq API key available"))), b, []))
  /\ (forall key,
        getGroqApiKey = Some key -> key <> [] ->
        let first := callGroq key promptText fs model_llama4 b in
        let second :=
          callGroq key promptText fs model_llama32 (final first) in
        events first
        = [EvFetch (groq_call_request key promptText fs model_llama4)]
        /\ events second
           = [EvFetch (groq_call_request key promptText fs model_llama32)]
        /\ (forall v, value first = Ok v -> o = first)
        /\ (forall e, value first = Throw e ->
              o = (value second, final second,
                   events first ++ groq_fallback_warning :: events second)))
  /\ (forall key model b0 resp b1,
        fetch (groq_call_request key promptText fs model) b0
        = (inr resp, b1) ->
        ok resp = false ->
        callGroq key promptText fs model b0
        = (Throw (Some (new_Error
             (lit "Groq Error (" ++ model ++ lit "): " ++ body resp))),
           b1, [EvFetch (groq_call_request key promptText fs model)])).
Proof.
  cbv zeta. split; [|split].
  - intros Hno. unfold analyzeWithGroq. now rewrite Hno.
  - intros key Ekey Hne.
    split; [apply callGroq_request|]. split; [apply callGroq_request|].
    unfold analyzeWithGroq. rewrite Ekey.
    destruct key as [|c key]; [now destruct Hne|].
    cbn [truthy negb or_default]. unfold try_catch, console.
    destruct (callGroq (c :: key) promptText fs model_llama4 b)
      as [[[v|e] b1] t1]; cbn [value final events fst snd].
    + split; [intros v' _; reflexivity|discriminate].
    + split; [discriminate|]. intros e' _. now rewrite bind_emit.
  - intros key model b0 resp b1 Ef Hok.
    unfold callGroq, http_call, call, bind, emit.
    fold (groq_call_request key promptText fs model).
    rewrite Ef, Hok. reflexivity.
Qed.

Lemma groq_scan_tries_two_models_witness :
  @analyzeWithGroq (Fixture.down Fixture.three_vendors) [] (lit "scan") 0
  = (Throw (Some (Fixture.server_error 1)), 2,
     [EvFetch (groq_call_request (lit "g1,g2") (lit "scan") []
                 model_llama4);
      groq_fallback_warning;
      EvFetch (groq_call_request (lit "g1,g2") (lit "scan") []
                 model_llama32)]).
Proof.
  refine (proj2 (proj2 (proj2 (proj1 (proj2
            (groq_scan_tries_two_models
               (H := Fixture.down Fixture.three_vendors) []
               (lit "scan") 0)) (lit "g1,g2") eq_refl _)))
            (Some (Fixture.server_error 0)) eq_refl).
  discriminate.
Defined.

(** X10.  [analyzeExamPaper] turns to another vendor only when Gemini
    has failed twice.  When the first link returns, the scan is that
    link and nothing more; a request to Groq or OpenRouter is made only
    when the first and the second link both failed, and a request to
    OpenRouter only when the Groq link failed as well. *)
Theorem scan_leaves_gemini_only_after_two_failures `{Runtime}
    (files : list File) (modelName : jsstring) (b : B) :
  let r1 := link1 files modelName b in
  let r2 := link2 files modelName b in
  let r3 := link3 files modelName b in
  let o := analyzeExamPaper files modelName b in
  (forall v, value r1 = Ok v -> o = r1)
  /\ (existsb is_fetch (io_all (events o)) = true ->
      exists e1 e2, value r1 = Throw e1 /\ value r2 = Throw e2)
  /\ (existsb is_openrouter_fetch (io_all (events o)) = true ->
      exists e1 e2 e3,
        value r1 = Throw e1 /\ value r2 = Throw e2 /\ value r3 = Throw e3).
Proof.
  cbv zeta.
  pose proof (analyzeExamPaper_links files modelName b) as E.
  cbv zeta in E. rewrite E. clear E.
  assert (forall ev, is_openrouter_fetch ev = true -> is_fetch ev = true)
    as Hsub by (intros [| | |req|]; try discriminate; reflexivity).
  pose proof (link1_no_fetch files modelName b is_fetch (fun _ E => E))
    as F1.
  pose proof (link2_no_fetch files modelName b is_fetch (fun _ E => E))
    as F2.
  pose proof (link1_no_fetch files modelName b is_openrouter_fetch Hsub)
    as G1.
  pose proof (link2_no_fetch files modelName b is_openrouter_fetch Hsub)
    as G2.
  pose proof (link3_no_openrouter files modelName b) as G3.
  destruct (link1 files modelName b) as [[[v1|e1] b1] t1] eqn:E1;
    cbn [value final events fst snd] in *.
  { repeat split; [congruence..]. }
  split; [discriminate|].
  destruct (value (link2 files modelName b)) as [v2|e2].
  { cbn [events snd].
    repeat progress rewrite ?io_all_app, ?io_all_cons, ?existsb_app.
    cbn [io warn1 app existsb is_fetch is_openrouter_fetch].
    rewrite F1, F2, G1, G2. split; discriminate. }
  split; [intros _; eauto|].
  destruct (value (link3 files modelName b)) as [v3|e3].
  { cbn [events snd].
    repeat progress rewrite ?io_all_app, ?io_all_cons, ?existsb_app.
    cbn [io warn1 warn2 log3 app existsb is_openrouter_fetch].
    rewrite G1, G2, G3. discriminate. }
  intros _. exists e1, e2, e3. repeat split.
Qed.

Lemma scan_leaves_gemini_only_after_two_failures_witness :
  exists e1 e2,
    value (@link1 (Fixture.down Fixture.three_vendors) [] model_gemini3 0)
    = Throw e1
    /\ value (@link2 (Fixture.down Fixture.three_vendors) [] model_gemini3 0)
       = Throw e2.
Proof.
  apply (proj1 (proj2 (scan_leaves_gemini_only_after_two_failures
                         (H := Fixture.down Fixture.three_vendors)
                         [] model_gemini3 0))).
  vm_compute. reflexivity.
Defined.

End RoutingFacts.

(** ** Diagrams *)

Module DiagramFacts.

Import Keys Gateway Pools Diagram KeysFacts EffFacts GatewayFacts PoolFacts.
Local Open Scope eff_scope.

Section Facts.
Context `{Imaging}.
Variable T : Type.
Variable fn : M T.
Variables maxRetries initialDelay : nat.

Local Abbreviation loop := (retry_loop fn maxRetries initialDelay).

Lemma retry_loop_S (n i : nat) (last : thrown) (b : B) :
  loop (S n) i last b =
  match fn b with
  | (Ok v, b1, t1) => (Ok v, b1, [Try t1 None])
  | (Throw e, b1, t1) =>
      if isQuotaError e && (i <? maxRetries - 1) then
        let o := loop n (S i) e b1 in
        (value o, final o,
         Try t1 (Some e) :: Wait (initialDelay * 2 ^ i) :: events o)
      else (Throw e, b1, [Try t1 (Some e)])
  end.
Proof.
  cbn [retry_loop]. unfold bind at 1. unfold settled.
  destruct (fn b) as [[[v|e] b1] t1]; [reflexivity|].
  destruct (isQuotaError e && (i <? maxRetries - 1)); [|reflexivity].
  unfold bind, emit.
  now destruct (retry_loop fn maxRetries initialDelay n (S i) e b1)
    as [[r b2] t2].
Qed.

(** The shape of a run: calls and waits take turns, and the waits
    follow the schedule from the current iteration on. *)
Lemma retry_loop_shape (n i : nat) (last : thrown) (b : B) :
  i + n = maxRetries ->
  let o := loop n i last b in
  exists tries,
    tries <= n
    /\ (1 <= n -> 1 <= tries)
    /\ length (filter is_try (events o)) = tries
    /\ map is_wait (events o) = alternating tries
    /\ waits (events o)
       = map (fun j => initialDelay * 2 ^ j) (seq i (tries - 1)).
Proof.
  revert i last b. induction n as [|n IH]; intros i last b Hin; cbv zeta.
  - exists 0. cbn. repeat split; lia.
  - rewrite retry_loop_S.
    destruct (fn b) as [[[v|e] b1] t1].
    { exists 1. cbn. repeat split; lia. }
    destruct (isQuotaError e && (i <? maxRetries - 1)) eqn:Eretry.
    2:{ exists 1. cbn. repeat split; lia. }
    apply andb_prop in Eretry. destruct Eretry as [_ Hlt].
    apply Nat.ltb_lt in Hlt.
    destruct (IH (S i) e b1 ltac:(lia)) as (tries & Hle & Hpos & Hl & Ha & Hw).
    cbv zeta. cbn [value final events fst snd].
    specialize (Hpos ltac:(lia)).
    destruct tries as [|tries']; [lia|].
    exists (S (S tries')). repeat split; try lia.
    + cbn [filter is_try length]. now rewrite Hl.
    + cbn [map is_wait]. rewrite Ha. reflexivity.
    + unfold waits in *. cbn [flat_map app]. rewrite Hw.
      replace (S (S tries') - 1) with (S (S tries' - 1)) by lia.
      reflexivity.
Qed.

(** What a failed run throws is what its last call threw. *)
Lemma retry_loop_thrown (n i : nat) (last : thrown) (b : B) (e : thrown) :
  i + n = maxRetries -> 1 <= n ->
  value (loop n i last b) = Throw e ->
  forall init,
    e = fold_left (fun acc s => match s with
                                | Try _ (Some e) => e
                                | _ => acc
                                end) (events (loop n i last b)) init.
Proof.
  revert i last b. induction n as [|n IH]; intros i last b Hin Hn; [lia|].
  rewrite retry_loop_S.
  destruct (fn b) as [[[v|e1] b1] t1]; [discriminate|].
  destruct (isQuotaError e1 && (i <? maxRetries - 1)) eqn:Eretry.
  2:{ cbn. intros E init. now inversion E. }
  apply andb_prop in Eretry. destruct Eretry as [_ Hlt].
  apply Nat.ltb_lt in Hlt.
  cbv zeta. cbn [value final events fst snd]. intros E init.
  cbn [fold_left]. apply (IH (S i) e1 b1); [lia|lia|exact E].
Qed.

(** A run returns what one call of the operation returned, and throws
    what one call threw. *)
Lemma retry_loop_outcome (n i : nat) (last : thrown) (b : B) :
  1 <= n ->
  exists b0, value (loop n i last b) = value (fn b0).
Proof.
  revert i last b. induction n as [|n IH]; intros i last b Hn; [lia|].
  rewrite retry_loop_S.
  destruct (fn b) as [[[v|e1] b1] t1] eqn:Efn.
  { exists b. now rewrite Efn. }
  destruct (isQuotaError e1 && (i <? maxRetries - 1)) eqn:Eretry.
  2:{ exists b. now rewrite Efn. }
  cbv zeta. cbn [value fst].
  destruct n as [|n'].
  - cbn. exists b. rewrite Efn.
    (* no iteration is left: the loop ends and throws what it holds *)
    reflexivity.
  - apply (IH (S i) e1 b1). lia.
Qed.

(** A run that returns ends with the call that returned. *)
Lemma retry_loop_returned (n i : nat) (last : thrown) (b : B) (v : T) :
  value (loop n i last b) = Ok v ->
  exists b0 t steps,
    fn b0 = (Ok v, final (loop n i last b), t)
    /\ events (loop n i last b) = steps ++ [Try t None].
Proof.
  revert i last b. induction n as [|n IH]; intros i last b; [discriminate|].
  rewrite retry_loop_S.
  destruct (fn b) as [[[v1|e1] b1] t1] eqn:Efn.
  { cbn. intros E. inversion E; subst v1. exists b, t1, []. now rewrite Efn. }
  destruct (isQuotaError e1 && (i <? maxRetries - 1)); [|discriminate].
  cbv zeta. cbn [value final events fst snd]. intros E.
  destruct (IH (S i) e1 b1 E) as (b0 & t & steps & E1 & E2).
  exists b0, t, (Try t1 (Some e1) :: Wait (initialDelay * 2 ^ i) :: steps).
  rewrite E2. split; [exact E1|reflexivity].
Qed.

Lemma retry_loop_inner (Q : Event -> Prop) (n i : nat) (last : thrown)
    (b : B) :
  (forall b0, Forall Q (events (fn b0))) ->
  Forall Q (inner_events (events (loop n i last b))).
Proof.
  intros HQ. revert i last b.
  induction n as [|n IH]; intros i last b; [constructor|].
  rewrite retry_loop_S. pose proof (HQ b) as Hb.
  destruct (fn b) as [[[v|e1] b1] t1]; cbn [events snd] in Hb.
  { cbn. now rewrite app_nil_r. }
  destruct (isQuotaError e1 && (i <? maxRetries - 1)).
  2:{ cbn. now rewrite app_nil_r. }
  cbv zeta. cbn [value final events fst snd].
  cbn [inner_events flat_map app]. apply Forall_app. split; [exact Hb|].
  apply IH.
Qed.

(** An operation that keeps failing with a quota error is called
    [maxRetries] times. *)
Lemma retry_loop_exhausts (n i : nat) (last : thrown) (b : B) :
  i + n = maxRetries ->
  (forall b0, exists e, value (fn b0) = Throw e /\ isQuotaError e = true) ->
  length (filter is_try (events (loop n i last b))) = n.
Proof.
  intros Hin Hq. revert i last b Hin.
  induction n as [|n IH]; intros i last b Hin; [reflexivity|].
  rewrite retry_loop_S. destruct (Hq b) as (e & Ee & Hquota).
  destruct (fn b) as [[[v|e1] b1] t1]; cbn [value fst] in Ee;
    [discriminate|].
  inversion Ee; subst e1. rewrite Hquota. cbn [andb].
  destruct (i <? maxRetries - 1) eqn:Hlt.
  - cbv zeta. cbn [value final events fst snd filter is_try length].
    f_equal. apply IH. lia.
  - apply Nat.ltb_ge in Hlt. cbn. f_equal. lia.
Qed.

End Facts.

Section Drawing.
Context `{Imaging}.

(** The first part with inline data, and the parts without before it. *)
Lemma first_inline_spec (parts : list (option (option jsstring))) :
  match first_inline parts with
  | Some data =>
      exists pre rest,
        parts = pre ++ Some data :: rest
        /\ Forall (fun part => part = None) pre
  | None => Forall (fun part => part = None) parts
  end.
Proof.
  unfold first_inline.
  induction parts as [|[data|] parts IH]; cbn [find].
  - constructor.
  - exists [], parts. split; [reflexivity|constructor].
  - destruct (find _ parts) as [[data|]|].
    + destruct IH as (pre & rest & -> & Hpre).
      exists (None :: pre), rest. split; [reflexivity|now constructor].
    + now constructor.
    + now constructor.
Qed.

Lemma first_inline_first (pre rest : list (option (option jsstring)))
    (data : option jsstring) :
  Forall (fun part => part = None) pre ->
  first_inline (pre ++ Some data :: rest) = Some data.
Proof.
  unfold first_inline. induction 1 as [|part pre -> _ IH]; [reflexivity|].
  exact IH.
Qed.

Lemma first_inline_none (parts : list (option (option jsstring))) :
  Forall (fun part => part = None) parts -> first_inline parts = None.
Proof.
  unfold first_inline. induction 1 as [|part pre -> _ IH]; [reflexivity|].
  exact IH.
Qed.

(** One try, once its key is drawn. *)
Lemma drawOnce_pick (description k : jsstring) (b b0 : B) :
  pick getGeminiKeys b = (Ok (Some k), b0, []) -> k <> [] ->
  drawOnce description b =
  match generateImage k (diagram_request description) b0 with
  | (inl err, b1) =>
      (Throw (Some err), b1, [EvGemini k (diagram_request description)])
  | (inr parts, b1) =>
      match first_inline parts with
      | Some data =>
          (Ok (data_url data), b1,
           [EvGemini k (diagram_request description)])
      | None =>
          (Throw (Some (new_Error (lit "Diagram generation failed."))), b1,
           [EvGemini k (diagram_request description)])
      end
  end.
Proof.
  intros Epick Hk. destruct k as [|c k']; [now destruct Hk|].
  unfold drawOnce, getGeminiApiKey, bind, emit, call.
  rewrite Epick. cbn [truthy negb or_default].
  destruct (generateImage (c :: k') (diagram_request description) b0)
    as [[err|parts] b1]; [reflexivity|].
  now destruct (first_inline parts).
Qed.

Lemma drawOnce_run (description : jsstring) (b : B) :
  let o := drawOnce description b in
  (getGeminiKeys = [] ->
   o = (Throw (Some (new_Error
          (lit "Missing Gemini API key. Add it in Settings or via env."))),
        b, []))
  /\ Forall (fun ev => exists k, In k getGeminiKeys
                                 /\ ev = EvGemini k (diagram_request description))
            (events o)
  /\ (forall v, value o = Ok v ->
        exists k pre data rest,
          In k getGeminiKeys
          /\ generateImage k (diagram_request description) (draws 1 b)
             = (inr (pre ++ Some data :: rest), final o)
          /\ Forall (fun part => part = None) pre
          /\ v = data_url data
          /\ events o = [EvGemini k (diagram_request description)])
  /\ (forall e, value o = Throw e -> e <> None).
Proof.
  cbv zeta.
  destruct (pick_run getGeminiKeys b) as [Hempty Hpick].
  destruct getGeminiKeys as [|k0 ks] eqn:Ek.
  - assert (drawOnce description b
            = (Throw (Some (new_Error
                 (lit "Missing Gemini API key. Add it in Settings or via env."))),
               b, [])) as ->.
    { unfold drawOnce, getGeminiApiKey, bind. rewrite Ek.
      now rewrite (Hempty eq_refl). }
    repeat split; try constructor; try discriminate.
    intros e E. inversion E. discriminate.
  - destruct Hpick as (k & Hin & Erun); [discriminate|].
    assert (k <> []) as Hk.
    { apply (pool_key_nonempty gemini). cbn [keysOf]. now rewrite Ek. }
    split; [discriminate|].
    assert (pick getGeminiKeys b = (Ok (Some k), draws 1 b, [])) as Epick
      by (now rewrite Ek).
    rewrite (drawOnce_pick description k b (draws 1 b) Epick Hk).
    destruct (generateImage k (diagram_request description) (draws 1 b))
      as [[err|parts] b2] eqn:Eg.
    + repeat split; try discriminate.
      * constructor; [eauto|constructor].
      * intros e E. inversion E. discriminate.
    + pose proof (first_inline_spec parts) as Hspec.
      destruct (first_inline parts) as [data|].
      * destruct Hspec as (pre & rest & -> & Hpre).
        repeat split; try discriminate.
        -- constructor; [eauto|constructor].
        -- intros v E. inversion E. exists k, pre, data, rest.
           repeat split; trivial.
      * repeat split; try discriminate.
        -- constructor; [eauto|constructor].
        -- intros e E. inversion E. discriminate.
Qed.

End Drawing.

(** X11.  [withRetry] backs off exponentially.  A run calls the
    operation at most [maxRetries] times, and at least once when
    [maxRetries] is not zero; calls and waits take turns, and the waits
    are [initialDelay], [2 * initialDelay], [4 * initialDelay], ...: the
    wait after the call of iteration [i] is [initialDelay * 2 ^ i]. *)
Theorem withRetry_backs_off_exponentially `{Runtime} (T : Type) (fn : M T)
    (maxRetries initialDelay : nat) (b : B) :
  let o := withRetry fn maxRetries initialDelay b in
  exists tries,
    tries <= maxRetries
    /\ (1 <= maxRetries -> 1 <= tries)
    /\ length (filter is_try (events o)) = tries
    /\ map is_wait (events o) = alternating tries
    /\ waits (events o) = backoff initialDelay tries.
Proof.
  cbv zeta. unfold withRetry, backoff.
  apply (retry_loop_shape T fn maxRetries initialDelay maxRetries 0 None b).
  reflexivity.
Qed.

Lemma withRetry_backs_off_exponentially_witness :
  exists tries,
    tries <= 3
    /\ (1 <= 3 -> 1 <= tries)
    /\ length (filter is_try
                 (events (@withRetry Scenes.two_keys _ Scenes.busy 3 2000 0)))
       = tries
    /\ map is_wait (events (@withRetry Scenes.two_keys _ Scenes.busy 3 2000 0))
       = alternating tries
    /\ waits (events (@withRetry Scenes.two_keys _ Scenes.busy 3 2000 0))
       = backoff 2000 tries.
Proof.
  exact (withRetry_backs_off_exponentially (H := Scenes.two_keys) jsstring
           Scenes.busy 3 2000 0).
Defined.

(** X12.  The outcomes of [withRetry].  With no iteration it throws
    [undefined] without calling the operation.  Otherwise a first call
    that returns is the whole run, and so is a first call that fails with
    an error that is no quota error: it is thrown at once, without a
    wait.  A run that throws, throws what its last call threw.  An
    operation that keeps failing with a quota error is called
    [maxRetries] times, with every wait of the schedule in between, and
    the run throws. *)
Theorem withRetry_outcomes `{Runtime} (T : Type) (fn : M T)
    (maxRetries initialDelay : nat) (b : B) :
  let o := withRetry fn maxRetries initialDelay b in
  (maxRetries = 0 -> o = (Throw None, b, []))
  /\ (1 <= maxRetries ->
      forall v, value (fn b) = Ok v ->
                o = (Ok v, final (fn b), [Try (events (fn b)) None]))
  /\ (1 <= maxRetries ->
      forall e, value (fn b) = Throw e -> isQuotaError e = false ->
                o = (Throw e, final (fn b), [Try (events (fn b)) (Some e)]))
  /\ (1 <= maxRetries ->
      forall e, value o = Throw e -> e = last_thrown (events o))
  /\ ((forall b0, exists e,
          value (fn b0) = Throw e /\ isQuotaError e = true) ->
      length (filter is_try (events o)) = maxRetries
      /\ waits (events o) = backoff initialDelay maxRetries
      /\ exists e, value o = Throw e).
Proof.
  cbv zeta. unfold withRetry. repeat split.
  - intros ->. reflexivity.
  - intros Hn v Ev. destruct maxRetries as [|n]; [lia|].
    rewrite retry_loop_S.
    destruct (fn b) as [[[v1|e1] b1] t1]; cbn in *; congruence.
  - intros Hn e Ee Hq. destruct maxRetries as [|n]; [lia|].
    rewrite retry_loop_S.
    destruct (fn b) as [[[v1|e1] b1] t1]; cbn in *; [congruence|].
    inversion Ee; subst e1. now rewrite Hq.
  - intros Hn e Ee. unfold last_thrown.
    now apply (retry_loop_thrown T fn maxRetries initialDelay maxRetries 0
                 None b e).
  - now apply retry_loop_exhausts.
  - destruct (retry_loop_shape T fn maxRetries initialDelay maxRetries 0
                None b eq_refl) as (tries & _ & _ & Hl & _ & Hw).
    cbv zeta in *.
    rewrite (retry_loop_exhausts T fn maxRetries initialDelay maxRetries 0
               None b eq_refl H0) in Hl.
    subst tries. exact Hw.
  - destruct maxRetries as [|n]; [eexists; reflexivity|].
    destruct (retry_loop_outcome T fn (S n) initialDelay (S n) 0 None b
                ltac:(lia)) as [b0 ->].
    destruct (H0 b0) as (e & -> & _). eauto.
Qed.

Lemma withRetry_outcomes_witness :
  length (filter is_try
            (events (@withRetry Scenes.two_keys _ Scenes.busy 3 2000 0))) = 3
  /\ waits (events (@withRetry Scenes.two_keys _ Scenes.busy 3 2000 0))
     = backoff 2000 3
  /\ exists e,
       value (@withRetry Scenes.two_keys _ Scenes.busy 3 2000 0) = Throw e.
Proof.
  apply (withRetry_outcomes (H := Scenes.two_keys) jsstring Scenes.busy
           3 2000 0).
  intros b0. exists (Some Fixture.quota_error). split; reflexivity.
Defined.

Lemma retry_loop_inner_count `{Runtime} (T : Type) (fn : M T)
    (maxRetries initialDelay m n i : nat) (last : thrown) (b : B) :
  (forall b0, length (events (fn b0)) <= m) ->
  length (inner_events
            (events (retry_loop fn maxRetries initialDelay n i last b)))
  <= n * m.
Proof.
  intros Hm. revert i last b.
  induction n as [|n IH]; intros i last b; [cbn; lia|].
  rewrite retry_loop_S. pose proof (Hm b) as Hb.
  destruct (fn b) as [[[v|e1] b1] t1]; cbn [events snd] in Hb.
  { cbn. rewrite app_nil_r. lia. }
  destruct (isQuotaError e1 && (i <? maxRetries - 1)).
  2:{ cbn. rewrite app_nil_r. lia. }
  cbv zeta. cbn [value final events fst snd].
  cbn [inner_events flat_map app]. rewrite length_app.
  specialize (IH (S i) e1 b1). unfold inner_events in IH. lia.
Qed.

Lemma drawOnce_one_request `{Imaging} (description : jsstring) (b : B) :
  length (events (drawOnce description b)) <= 1.
Proof.
  unfold drawOnce, getGeminiApiKey, pick, bind, emit, call, random_below,
    ret, throw.
  destruct (0 <? length getGeminiKeys); [|cbn; lia].
  destruct (Math_random b) as [r b1].
  destruct (negb (truthy _)); [cbn; lia|].
  destruct (generateImage _ _ b1) as [[err|parts] b2]; [cbn; lia|].
  destruct (first_inline parts); cbn; lia.
Qed.

(** X13.  [generateTechnicalDiagram] makes at most three requests.
    Without a Gemini key it fails at once with the missing-key error:
    no request, no wait, no second try.  Otherwise it tries at most
    three times, waiting 2000 ms and then 4000 ms between tries, each
    try sends at most one request, to the image model
    [gemini-2.5-flash-image] with a key of the Gemini pool drawn for that
    try.  What it returns is made from the answer to its last request:
    the PNG data URL of the first part of that answer that has inline
    data, the parts before it having none.  In particular, when the
    first request is answered with such parts the run is that one try,
    and when it is answered with no part that has inline data the error
    [Diagram generation failed.] is thrown at once.  What it throws is
    an error object. *)
Theorem diagram_takes_at_most_three_requests `{Imaging}
    (description : jsstring) (b : B) :
  let o := generateTechnicalDiagram description b in
  let missing :=
    new_Error (lit "Missing Gemini API key. Add it in Settings or via env.") in
  let request := diagram_request description in
  let url (data : option jsstring) :=
    lit "data:image/png;base64,"
    ++ match data with Some d => d | None => lit "undefined" end in
  (getGeminiKeys = [] ->
   o = (Throw (Some missing), b, [Try [] (Some (Some missing))]))
  /\ (exists tries,
        tries <= 3
        /\ length (filter is_try (events o)) = tries
        /\ waits (events o) = firstn (tries - 1) [2000; 4000])
  /\ length (inner_events (events o)) <= 3
  /\ Forall (fun ev => exists k,
               In k getGeminiKeys /\ ev = EvGemini k request)
            (inner_events (events o))
  /\ (forall v, value o = Ok v ->
        exists k b0 pre data rest steps,
          In k getGeminiKeys
          /\ generateImage k request b0
             = (inr (pre ++ Some data :: rest), final o)
          /\ Forall (fun part => part = None) pre
          /\ events o = steps ++ [Try [EvGemini k request] None]
          /\ v = url data)
  /\ (forall k pre data rest b1,
        pick getGeminiKeys b = (Ok (Some k), draws 1 b, []) ->
        generateImage k request (draws 1 b)
        = (inr (pre ++ Some data :: rest), b1) ->
        Forall (fun part => part = None) pre ->
        o = (Ok (url data), b1, [Try [EvGemini k request] None]))
  /\ (forall k parts b1,
        pick getGeminiKeys b = (Ok (Some k), draws 1 b, []) ->
        generateImage k request (draws 1 b) = (inr parts, b1) ->
        Forall (fun part => part = None) parts ->
        let failed := Some (new_Error (lit "Diagram generation failed.")) in
        o = (Throw failed, b1, [Try [EvGemini k request] (Some failed)]))
  /\ (forall e, value o = Throw e -> e <> None).
Proof.
  cbv zeta. unfold generateTechnicalDiagram, withRetry.
  assert (forall b0,
            exists b1,
              value (retry_loop (drawOnce description) 3 2000 3 0 None b0)
              = value (drawOnce description b1)) as Hout
    by (intros b0; apply retry_loop_outcome; lia).
  assert (forall k, pick getGeminiKeys b = (Ok (Some k), draws 1 b, []) ->
                    k <> []) as Hkey.
  { intros k Epick.
    destruct (pick_run getGeminiKeys b) as [Hempty Hpick].
    destruct getGeminiKeys as [|k0 ks] eqn:Ek.
    - rewrite (Hempty eq_refl) in Epick. discriminate.
    - destruct Hpick as (k' & Hin & Erun); [discriminate|].
      rewrite Erun in Epick. inversion Epick; subst k'.
      apply (pool_key_nonempty gemini). cbn [keysOf]. now rewrite Ek. }
  split; [|split; [|split; [|split; [|split; [|split; [|split]]]]]].
  - intros Hno. rewrite retry_loop_S.
    destruct (drawOnce_run description b) as (Hmiss & _).
    cbv zeta in Hmiss. rewrite (Hmiss Hno). reflexivity.
  - destruct (retry_loop_shape _ (drawOnce description) 3 2000 3 0 None b
                eq_refl) as (tries & Hle & _ & Hl & _ & Hw).
    cbv zeta in *. exists tries. repeat split; trivial.
    rewrite Hw.
    destruct tries as [|[|[|[|tries]]]]; try reflexivity. lia.
  - apply (retry_loop_inner_count _ (drawOnce description) 3 2000 1 3 0).
    intros b0. apply drawOnce_one_request.
  - apply retry_loop_inner. intros b0.
    now destruct (drawOnce_run description b0) as (_ & Hev & _).
  - intros v E.
    destruct (retry_loop_returned _ (drawOnce description) 3 2000 3 0 None b
                v E) as (b0 & t & steps & Efn & Eev).
    destruct (drawOnce_run description b0) as (_ & _ & Hok & _).
    cbv zeta in Hok. rewrite Efn in Hok.
    cbn [value final events fst snd] in Hok.
    destruct (Hok v eq_refl)
      as (k & pre & data & rest & Hin & Eg & Hpre & -> & ->).
    exists k, (draws 1 b0), pre, data, rest, steps.
    repeat split; assumption.
  - intros k pre data rest b1 Epick Eg Hpre. rewrite retry_loop_S.
    rewrite (drawOnce_pick description k b (draws 1 b) Epick (Hkey k Epick)).
    rewrite Eg, (first_inline_first pre rest data Hpre). reflexivity.
  - intros k parts b1 Epick Eg Hpre. rewrite retry_loop_S.
    rewrite (drawOnce_pick description k b (draws 1 b) Epick (Hkey k Epick)).
    rewrite Eg, (first_inline_none parts Hpre). reflexivity.
  - intros e E. destruct (Hout b) as [b1 E1]. rewrite E1 in E.
    destruct (drawOnce_run description b1) as (_ & _ & _ & Hth).
    apply (Hth e E).
Qed.

(** X13 when the first request is answered with a text part and two
    images: the diagram is the first image. *)
Lemma diagram_takes_at_most_three_requests_witness :
  @generateTechnicalDiagram _
    (Scenes.painter (Fixture.stored (Some (lit "k1,k2")) None None))
    (lit "a triangle") 2
  = (Ok (lit "data:image/png;base64,iVBOR"), 4,
     [Try [EvGemini (lit "k1")
             (mkGeminiReq model_image []
                (lit "Technical diagram for exam: a triangle") false false)]
          None]).
Proof.
  apply (proj1 (proj2 (proj2 (proj2 (proj2 (proj2
           (diagram_takes_at_most_three_requests
              (H0 := Scenes.painter
                       (Fixture.stored (Some (lit "k1,k2")) None None))
              (lit "a triangle") 2))))))
           (lit "k1") [None] (Some (lit "iVBOR")) [Some (Some (lit "AAAA"))]
           4).
  - vm_compute. reflexivity.
  - vm_compute. reflexivity.
  - repeat constructor.
Defined.

(** A run with two keys: a quota error, a wait of two seconds, and an
    image on the second try, with a key drawn again. *)
Example diagram_second_try :
  @generateTechnicalDiagram _
    (Scenes.painter (Fixture.stored (Some (lit "k1,k2")) None None))
    (lit "a triangle") 0
  = (Ok (lit "data:image/png;base64,iVBOR"), 4,
     [Try [EvGemini (lit "k1")
             (mkGeminiReq model_image []
                (lit "Technical diagram for exam: a triangle") false false)]
          (Some (Some Fixture.quota_error));
      Wait 2000;
      Try [EvGemini (lit "k1")
             (mkGeminiReq model_image []
                (lit "Technical diagram for exam: a triangle") false false)]
          None]).
Proof. vm_compute. reflexivity. Qed.

End DiagramFacts.

(** ** A chat turn *)

Module DialogueFacts.

Import Keys Chat Dialogue KeysFacts EffFacts ChatFacts.
Local Open Scope eff_scope.

Lemma deltas_app (t1 t2 : list ChatEvent) :
  deltas (t1 ++ t2) = deltas t1 ++ deltas t2.
Proof. apply flat_map_app. Qed.

Lemma deltas_yields (chunks : list (option jsstring)) :
  deltas (yields chunks)
  = filter (fun d => 0 <? length d) (map content_of chunks).
Proof.
  induction chunks as [|c chunks IH]; [reflexivity|].
  unfold yields in *. cbn [flat_map map filter]. rewrite deltas_app, IH.
  unfold content_of. now destruct (0 <? length (or_default c [])).
Qed.

Lemma filter_nonempty_concat (l : list jsstring) :
  concat (filter (fun d => 0 <? length d) l) = concat l.
Proof.
  induction l as [|d l IH]; [reflexivity|].
  cbn [filter]. destruct d as [|c d].
  - exact IH.
  - change (0 <? length (c :: d)) with true. cbv iota.
    cbn [concat]. f_equal. exact IH.
Qed.

Lemma yields_nonempty (chunks : list (option jsstring)) :
  Forall (fun d => d <> []) (deltas (yields chunks)).
Proof.
  rewrite deltas_yields. apply Forall_forall. intros d Hd.
  apply filter_In in Hd. destruct Hd as [_ Hd].
  destruct d; [discriminate|discriminate].
Qed.

Section Facts.
Context `{Provider}.

(** With a Groq client, the modes [pro] and [flash] are one request to
    Groq. *)
Lemma streamChat_groq (messages : list ChatMessage) (mode : ChatMode)
    (self : ChatService) (p : P) (g : Client) :
  mode <> uncensored -> groqClient self = Some g ->
  streamChat messages mode (self, p)
  = makeRequest g (MODELS mode) messages mode (self, p).
Proof.
  intros Hmode Hg. unfold streamChat, this.
  unfold bind at 1. unfold bind at 1. unfold get, ret. cbn [fst snd app].
  destruct mode; [| |now destruct Hmode]; rewrite Hg;
    now destruct (makeRequest g _ messages _ (self, p)) as [[r s1] t1].
Qed.

Lemma streamChat_no_keys (messages : list ChatMessage) (mode : ChatMode)
    (self : ChatService) (p : P) :
  on_openrouter self mode -> openRouterKeys self = [] ->
  streamChat messages mode (self, p)
  = (Throw (Some (new_Error
       (lit "Mode '" ++ mode_name mode
        ++ match mode with
           | uncensored =>
               lit "' requires OpenRouter API Key. Please check your Settings."
           | _ =>
               lit "' requires Groq API Key or OpenRouter fallback. Please check your Settings."
           end))), (self, p), []).
Proof.
  intros Hon Hkeys. unfold streamChat, this.
  unfold bind at 1. unfold bind at 1. unfold get, ret. cbn [fst snd app].
  destruct mode; cbn in Hon; try rewrite Hon; rewrite Hkeys; reflexivity.
Qed.

Lemma rotated_keys (self : ChatService) (m : nat) :
  openRouterKeys (Nat.iter m rotated self) = openRouterKeys self
  /\ groqClient (Nat.iter m rotated self) = groqClient self.
Proof.
  induction m as [|m [IH1 IH2]]; [split; reflexivity|].
  cbn [Nat.iter nat_rect]. split; [exact IH1|exact IH2].
Qed.

(** The cursor after [m] turns. *)
Lemma rotated_index (self : ChatService) (m : nat) :
  1 <= m ->
  currentOpenRouterIndex (Nat.iter m rotated self)
  = (currentOpenRouterIndex self + m) mod length (openRouterKeys self).
Proof.
  induction m as [|m IH]; [lia|]. intros _.
  change (Nat.iter (S m) rotated self) with (rotated (Nat.iter m rotated self)).
  cbn [rotated currentOpenRouterIndex].
  rewrite (proj1 (rotated_keys self m)).
  destruct m as [|m'].
  - reflexivity.
  - rewrite IH by lia. rewrite Nat.Div0.add_mod_idemp_l.
    f_equal. lia.
Qed.

Lemma rotation_last (self : ChatService) (m : nat) :
  last (rotation self (S m)) (current_client self)
  = current_client (Nat.iter m rotated self).
Proof.
  unfold rotation. rewrite seq_S, map_app. cbn [map].
  rewrite last_last. cbn [Nat.add].
  unfold current_client. rewrite (proj1 (rotated_keys self m)).
  destruct m as [|m'].
  - cbn [Nat.iter nat_rect]. now rewrite Nat.add_0_r.
  - rewrite rotated_index by lia. now rewrite Nat.Div0.mod_mod.
Qed.

(** Where the loop over the keys leaves the cursor, and the clients it
    called. *)
Lemma key_loop_cursor (model : jsstring) (messages : list ChatMessage)
    (mode : ChatMode) (n : nat) (last : thrown) (self : ChatService) (p : P) :
  openRouterKeys self <> [] ->
  let o := key_loop model messages mode n last (self, p) in
  exists m,
    m <= n
    /\ fst (final o) = Nat.iter m rotated self
    /\ match value o with
       | Ok (inr _) => m = n /\ created (events o) = rotation self n
       | _ => m < n /\ created (events o) = rotation self (S m)
       end.
Proof.
  intros Hne. revert last self p Hne.
  induction n as [|n IH]; intros last self p Hne; cbv zeta.
  - exists 0. cbn. repeat split; lia.
  - rewrite key_loop_S by assumption.
    destruct (create (current_client self) model messages mode p)
      as [[chunks [e|]] p1].
    + destruct (has_status e 401).
      * destruct (IH (Some (invalidated e)) (rotated self) p1 Hne)
          as (m & Hm & Hf & Hc).
        cbv zeta in *. exists (S m). split; [lia|].
        cbn [value final events fst snd]. split.
        { rewrite Hf. symmetry. apply Nat.iter_succ_r. }
        assert (forall r,
                  created (EvCreate (current_client self) model
                           :: yields chunks ++ EvLog (Some e) :: r)
                  = current_client self :: created r) as Ecr.
        { intros r.
          change (created (EvCreate (current_client self) model
                           :: yields chunks ++ EvLog (Some e) :: r))
            with (current_client self
                  :: created (yields chunks ++ EvLog (Some e) :: r)).
          now rewrite created_app, created_yields. }
        rewrite Ecr.
        destruct (value (key_loop model messages mode n
                           (Some (invalidated e)) (rotated self, p1)))
          as [[u|l]|e'];
          destruct Hc as [Hm' Hc]; rewrite Hc, <- rotation_S;
          split; trivial; lia.
      * exists 0. cbn [value final events fst snd Nat.iter nat_rect].
        repeat split; [lia|lia|].
        change (created (EvCreate (current_client self) model
                         :: yields chunks ++ [EvLog (Some e)]))
          with (current_client self
                :: created (yields chunks ++ [EvLog (Some e)])).
        now rewrite created_app, created_yields, rotation_S.
    + exists 0. cbn [value final events fst snd Nat.iter nat_rect].
      repeat split; [lia|lia|].
      change (created (EvCreate (current_client self) model :: yields chunks))
        with (current_client self :: created (yields chunks)).
      now rewrite created_yields, rotation_S.
Qed.

Lemma key_loop_deltas (model : jsstring) (messages : list ChatMessage)
    (mode : ChatMode) (n : nat) (last : thrown) (self : ChatService) (p : P) :
  openRouterKeys self <> [] ->
  Forall (fun d => d <> [])
    (deltas (events (key_loop model messages mode n last (self, p)))).
Proof.
  intros Hne. revert last self p Hne.
  induction n as [|n IH]; intros last self p Hne; [constructor|].
  rewrite key_loop_S by assumption.
  destruct (create (current_client self) model messages mode p)
    as [[chunks [e|]] p1].
  - destruct (has_status e 401); cbv zeta; cbn [events snd].
    + change (deltas (EvCreate ?c ?m :: ?x)) with (deltas x).
      rewrite deltas_app. apply Forall_app. split; [apply yields_nonempty|].
      change (deltas (EvLog (Some e) :: ?x)) with (deltas x).
      now apply IH.
    + change (deltas (EvCreate ?c ?m :: ?x)) with (deltas x).
      rewrite deltas_app. apply Forall_app. split; [apply yields_nonempty|].
      constructor.
  - cbn [events snd].
    change (deltas (EvCreate ?c ?m :: ?x)) with (deltas x).
    apply yields_nonempty.
Qed.

End Facts.

Lemma rotated_cycle (self : ChatService) :
  currentOpenRouterIndex self < length (openRouterKeys self) ->
  Nat.iter (length (openRouterKeys self)) rotated self = self.
Proof.
  intros Hlt.
  destruct (rotated_keys self (length (openRouterKeys self))) as [Hk Hg].
  pose proof (rotated_index self (length (openRouterKeys self))
                ltac:(lia)) as Hi.
  rewrite Nat.Div0.add_mod, Nat.Div0.mod_same, Nat.add_0_r,
    Nat.Div0.mod_mod, Nat.mod_small in Hi by assumption.
  destruct (Nat.iter (length (openRouterKeys self)) rotated self)
    as [g k i].
  destruct self as [g0 k0 i0]. cbn in *. congruence.
Qed.

Lemma makeRequest_deltas `{Provider} (client : Client) (model : jsstring)
    (messages : list ChatMessage) (mode : ChatMode) (self : ChatService)
    (p : P) :
  deltas (events (makeRequest client model messages mode (self, p)))
  = filter (fun d => 0 <? length d)
      (map content_of (fst (fst (create client model messages mode p)))).
Proof.
  rewrite makeRequest_run.
  destruct (create client model messages mode p) as [[chunks [e|]] p1];
    cbn [events fst snd];
    change (deltas (EvCreate ?c ?m :: ?x)) with (deltas x).
  - rewrite deltas_app, deltas_yields. cbn. now rewrite app_nil_r.
  - apply deltas_yields.
Qed.

(** X14.  With a Groq key, the modes [pro] and [flash] never fall back
    to OpenRouter.  The turn is one request, to Groq, for the model of
    the mode; whatever the outcome, no OpenRouter key is used and the
    round-robin cursor stays where it was, and a failure of the stream is
    thrown as [makeRequest] rethrows it, also when Groq rejects the key
    with status 401. *)
Theorem groq_modes_never_fall_back `{Provider} (messages : list ChatMessage)
    (mode : ChatMode) (self : ChatService) (p : P) (g : Client) :
  mode <> uncensored -> groqClient self = Some g ->
  let o := streamChat messages mode (self, p) in
  created (events o) = [g]
  /\ fst (final o) = self
  /\ (forall chunks p1,
        create g (MODELS mode) messages mode p = (chunks, None, p1) ->
        o = (Ok tt, (self, p1), EvCreate g (MODELS mode) :: yields chunks))
  /\ (forall chunks e p1,
        create g (MODELS mode) messages mode p = (chunks, Some e, p1) ->
        o = (Throw (Some (rethrown (MODELS mode) e)), (self, p1),
             EvCreate g (MODELS mode) :: yields chunks ++ [EvLog (Some e)])).
Proof.
  intros Hmode Hg. cbv zeta.
  rewrite (streamChat_groq messages mode self p g Hmode Hg), makeRequest_run.
  destruct (create g (MODELS mode) messages mode p) as [[chunks [e|]] p1];
    cbn [events final fst snd].
  - change (created (EvCreate g (MODELS mode) :: ?x)) with (g :: created x).
    rewrite created_app, created_yields.
    repeat split; try discriminate.
    intros chunks' e' p1' E. now inversion E.
  - change (created (EvCreate g (MODELS mode) :: ?x)) with (g :: created x).
    rewrite created_yields.
    repeat split; try discriminate.
    intros chunks' p1' E. now inversion E.
Qed.

Lemma groq_modes_never_fall_back_witness :
  created
    (events (@streamChat (Fixture.key_check (fun _ => true))
               [mkMessage (lit "user") (lit "hi")] pro
               (new_ChatService (Some (lit " gk ")) (Some (lit "k1, k2")), 0)))
  = [mkClient GroqAPI (lit "gk")].
Proof.
  apply (groq_modes_never_fall_back
           (H := Fixture.key_check (fun _ => true))
           [mkMessage (lit "user") (lit "hi")] pro
           (new_ChatService (Some (lit " gk ")) (Some (lit "k1, k2"))) 0
           (mkClient GroqAPI (lit "gk"))).
  - discriminate.
  - reflexivity.
Defined.

(** X15.  Without a usable key the turn fails before any request.  When
    the service has no OpenRouter key and, for [pro] and [flash], no Groq
    client either, [streamChat] throws the settings error of the mode,
    yields nothing, calls no provider and leaves the service as it was;
    a service built without a Groq key from an OpenRouter string of
    commas and white space only is in that case. *)
Theorem no_key_fails_before_any_request `{Provider}
    (messages : list ChatMessage) (mode : ChatMode) (p : P) :
  let settings_error :=
    new_Error
      (lit "Mode '" ++ mode_name mode
       ++ match mode with
          | uncensored =>
              lit "' requires OpenRouter API Key. Please check your Settings."
          | _ =>
              lit "' requires Groq API Key or OpenRouter fallback. Please check your Settings."
          end) in
  (forall self,
      on_openrouter self mode -> openRouterKeys self = [] ->
      streamChat messages mode (self, p)
      = (Throw (Some settings_error), (self, p), []))
  /\ (forall s,
        forallb (fun c => is_white c || is_comma c) s = true ->
        streamChat messages mode (new_ChatService None (Some s), p)
        = (Throw (Some settings_error),
           (new_ChatService None (Some s), p), [])).
Proof.
  cbv zeta. split.
  - intros self Hon Hkeys. now apply streamChat_no_keys.
  - intros s Hs. apply streamChat_no_keys.
    + destruct mode; reflexivity.
    + cbn [new_ChatService openRouterKeys].
      destruct s as [|c s']; [reflexivity|].
      rewrite chatOpenRouterKeys_entries.
      now apply PoolFacts.entries_separators.
Qed.

Lemma no_key_fails_before_any_request_witness :
  @streamChat (Fixture.key_check (fun _ => false))
    [mkMessage (lit "user") (lit "hi")] flash
    (new_ChatService None (Some (lit " , ")), 0)
  = (Throw (Some (new_Error
       (lit "Mode 'flash' requires Groq API Key or OpenRouter fallback. Please check your Settings."))),
     (new_ChatService None (Some (lit " , ")), 0), []).
Proof.
  apply (proj2 (no_key_fails_before_any_request
                  (H := Fixture.key_check (fun _ => false))
                  [mkMessage (lit "user") (lit "hi")] flash 0)
           (lit " , ")).
  reflexivity.
Defined.

(** X16.  The round-robin cursor rests on the key that served.  On the
    OpenRouter path a turn never changes the keys or the Groq client of
    the service.  After a turn that completed, the cursor is on the key
    of the last request, so the next turn starts with the key that just
    worked and not with the ones that were rejected before it.  After a
    turn that throws because its last stream, like the ones before it,
    was rejected with status 401, every place of the key list has been
    tried and the cursor, having gone round once, is back where it
    started. *)
Theorem cursor_rests_on_the_serving_key `{Provider}
    (messages : list ChatMessage) (mode : ChatMode) (self : ChatService)
    (p : P) :
  on_openrouter self mode -> openRouterKeys self <> [] ->
  let o := streamChat messages mode (self, p) in
  openRouterKeys (fst (final o)) = openRouterKeys self
  /\ groqClient (fst (final o)) = groqClient self
  /\ (value o = Ok tt ->
      last (created (events o)) (current_client self)
      = current_client (fst (final o))
      /\ forall messages' p',
           exists rest,
             events (streamChat messages' mode (fst (final o), p'))
             = EvCreate (last (created (events o)) (current_client self))
                 (MODELS mode) :: rest)
  /\ (forall x e,
        value o = Throw x ->
        last_logged (events o) = Some e -> has_status e 401 = true ->
        created (events o) = rotation self (length (openRouterKeys self))
        /\ (currentOpenRouterIndex self < length (openRouterKeys self) ->
            fst (final o) = self)).
Proof.
  intros Hon Hne. cbv zeta.
  rewrite (streamChat_openrouter messages mode self p Hon Hne). cbv zeta.
  cbn [value final events fst snd].
  destruct (key_loop_cursor (MODELS mode) messages mode
              (length (openRouterKeys self)) None self p Hne)
    as (m & Hm & Hf & Hc).
  cbv zeta in *.
  destruct (rotated_keys self m) as [Hk Hg].
  split; [now rewrite Hf|]. split; [now rewrite Hf|]. split.
  - intros Hok.
    destruct (value (key_loop (MODELS mode) messages mode
                       (length (openRouterKeys self)) None (self, p)))
      as [[u|l]|e]; try discriminate.
    destruct Hc as [_ Hc]. rewrite Hc, Hf, rotation_last.
    split; [reflexivity|].
    intros messages' p'.
    assert (on_openrouter (Nat.iter m rotated self) mode) as Hon'.
    { destruct mode; cbn in *; trivial; now rewrite Hg. }
    assert (openRouterKeys (Nat.iter m rotated self) <> []) as Hne'
      by now rewrite Hk.
    rewrite (streamChat_openrouter messages' mode _ p' Hon' Hne').
    cbv zeta. cbn [events snd]. apply key_loop_first; [assumption|].
    rewrite Hk. destruct (openRouterKeys self); [contradiction|cbn; lia].
  - intros x e Hx Hlast H401.
    pose proof (key_loop_thrown (MODELS mode) messages mode
                  (length (openRouterKeys self)) None self p Hne) as Hend.
    cbv zeta in Hend. unfold last_logged in Hlast.
    destruct (value (key_loop (MODELS mode) messages mode
                       (length (openRouterKeys self)) None (self, p)))
      as [[u|l]|x0]; [discriminate| |].
    + destruct Hc as [-> Hc]. split; [exact Hc|].
      intros Hidx. rewrite Hf. now apply rotated_cycle.
    + destruct Hend as (e' & H401' & _ & Hlast').
      rewrite Hlast' in Hlast. congruence.
Qed.

Lemma cursor_rests_on_the_serving_key_witness :
  last (created
          (events (@streamChat
                     (Fixture.key_check (fun k => str_eqb k (lit "k1")))
                     [mkMessage (lit "user") (lit "hi")] uncensored
                     (Fixture.three_keys, 0))))
       (current_client Fixture.three_keys)
  = mkClient OpenRouterAPI (lit "k2")
  /\ fst (final (@streamChat (Fixture.key_check (fun _ => true))
                   [mkMessage (lit "user") (lit "hi")] uncensored
                   (Fixture.three_keys, 0)))
     = Fixture.three_keys.
Proof.
  split.
  - refine (proj1 (proj1 (proj2 (proj2
              (cursor_rests_on_the_serving_key
                 (H := Fixture.key_check (fun k => str_eqb k (lit "k1")))
                 [mkMessage (lit "user") (lit "hi")] uncensored
                 Fixture.three_keys 0 I _))) _)).
    + vm_compute. discriminate.
    + vm_compute. reflexivity.
  - refine (proj2 (proj2 (proj2 (proj2
              (cursor_rests_on_the_serving_key
                 (H := Fixture.key_check (fun _ => true))
                 [mkMessage (lit "user") (lit "hi")] uncensored
                 Fixture.three_keys 0 I _)))
              (Some (invalidated
                       (mkError (lit "401 invalid key 2") (Some 401%N) None)))
              (mkError (lit "401 invalid key 2") (Some 401%N) None)
              _ _ _) _).
    + vm_compute. discriminate.
    + vm_compute. reflexivity.
    + vm_compute. reflexivity.
    + reflexivity.
    + vm_compute. lia.
Defined.

(** X17.  What the consumer of a chat turn receives.  [makeRequest]
    hands over the contents of the chunks of its stream that are not
    empty, in order, so the text they add up to is the text of all the
    chunks; and no turn, on any path and whatever fails, ever hands over
    an empty delta. *)
Theorem streamed_text_is_the_text_of_the_chunks `{Provider}
    (messages : list ChatMessage) (mode : ChatMode) (self : ChatService)
    (p : P) :
  Forall (fun d => d <> [])
    (deltas (events (streamChat messages mode (self, p))))
  /\ (forall client model,
        let chunks := fst (fst (create client model messages mode p)) in
        let r := makeRequest client model messages mode (self, p) in
        deltas (events r)
        = filter (fun d => 0 <? length d) (map content_of chunks)
        /\ concat (deltas (events r)) = concat (map content_of chunks)).
Proof.
  split.
  - destruct (groqClient self) as [g|] eqn:Eg.
    + assert (forall md, md <> uncensored ->
                Forall (fun d => d <> [])
                  (deltas (events (streamChat messages md (self, p)))))
        as Hgroq.
      { intros md Hmd.
        rewrite (streamChat_groq messages md self p g Hmd Eg),
          makeRequest_deltas.
        apply Forall_forall. intros d Hd.
        apply filter_In in Hd. destruct Hd as [_ Hd].
        destruct d; discriminate. }
      destruct mode; [apply Hgroq; discriminate..|].
      destruct (openRouterKeys self) as [|k0 ks] eqn:Ek.
      * rewrite (streamChat_no_keys messages uncensored self p I Ek).
        constructor.
      * assert (openRouterKeys self <> []) as Hne
          by (rewrite Ek; discriminate).
        rewrite (streamChat_openrouter messages uncensored self p I Hne).
        cbv zeta. cbn [events snd]. now apply key_loop_deltas.
    + assert (on_openrouter self mode) as Hon
        by (destruct mode; cbn; trivial).
      destruct (openRouterKeys self) as [|k0 ks] eqn:Ek.
      * rewrite (streamChat_no_keys messages mode self p Hon Ek).
        constructor.
      * assert (openRouterKeys self <> []) as Hne
          by (rewrite Ek; discriminate).
        rewrite (streamChat_openrouter messages mode self p Hon Hne).
        cbv zeta. cbn [events snd]. now apply key_loop_deltas.
  - intros client model. cbv zeta. rewrite makeRequest_deltas.
    split; [reflexivity|]. apply filter_nonempty_concat.
Qed.

(** The stream of the fixture has an empty chunk between [Hel] and
    [lo]: two deltas reach the consumer. *)
Example two_deltas_of_three_chunks :
  deltas (events (@streamChat (Fixture.key_check (fun _ => false))
                    [mkMessage (lit "user") (lit "hi")] uncensored
                    (Fixture.three_keys, 0)))
  = [lit "Hel"; lit "lo"].
Proof. vm_compute. reflexivity. Qed.

Lemma or_default_nonempty (a : option jsstring) (d : jsstring) :
  d <> [] -> or_default a d <> [].
Proof. intros Hd. destruct a as [[|c s]|]; cbn; trivial; discriminate. Qed.

Lemma title_from_run `{Completions} (client : Client) (model : jsstring)
    (prompt : list ChatMessage) (msg : jsstring) (self : ChatService)
    (p : P) :
  title_from client model prompt msg (self, p) =
  match complete client model prompt p with
  | (inr c, p1) =>
      (Ok (Some (or_default (option_map trim c) (lit "New Chat"))),
       (self, p1), [EvComplete client model prompt])
  | (inl e, p1) =>
      (Ok None, (self, p1),
       [EvComplete client model prompt; EvWarn msg (Some e)])
  end.
Proof.
  unfold title_from, call_complete, try_catch, bind, emit, ret.
  cbn [fst snd].
  now destruct (complete client model prompt p) as [[e|c] p1].
Qed.

Lemma openRouterTitle_run `{Completions} (self : ChatService)
    (prompt : list ChatMessage) (p : P) :
  openRouterTitle self prompt (self, p) =
  match openRouterKeys self with
  | [] => (Ok (lit "New Chat"), (self, p), [])
  | _ :: _ =>
      match complete (current_client self) openrouter_title_model prompt p
      with
      | (inr c, p1) =>
          (Ok (or_default (option_map trim c) (lit "New Chat")), (self, p1),
           [EvComplete (current_client self) openrouter_title_model prompt])
      | (inl e, p1) =>
          (Ok (lit "New Chat"), (self, p1),
           [EvComplete (current_client self) openrouter_title_model prompt;
            EvWarn (lit "OpenRouter title generation failed") (Some e)])
      end
  end.
Proof.
  unfold openRouterTitle.
  destruct (openRouterKeys self) as [|k0 ks] eqn:Ek; [reflexivity|].
  assert (openRouterKeys self <> []) as Hne by (rewrite Ek; discriminate).
  change (0 <? length (k0 :: ks)) with true. cbv iota.
  unfold bind at 1. unfold bind at 1. unfold openRouterClient.
  rewrite (getOpenRouterClient_run self p Hne).
  cbn [value final events fst snd app]. rewrite title_from_run.
  now destruct (complete (current_client self) openrouter_title_model
                  prompt p) as [[e|c] p1].
Qed.

Lemma generateTitle_run `{Completions} (m0 : ChatMessage)
    (ms : list ChatMessage) (self : ChatService) (p : P) :
  let prompt := title_prompt (m0 :: ms) in
  generateTitle (m0 :: ms) (self, p) =
  match groqClient self with
  | Some g =>
      match complete g groq_title_model prompt p with
      | (inr c, p1) =>
          (Ok (or_default (option_map trim c) (lit "New Chat")), (self, p1),
           [EvComplete g groq_title_model prompt])
      | (inl e, p1) =>
          let o := openRouterTitle self prompt (self, p1) in
          (value o, final o,
           EvComplete g groq_title_model prompt
           :: EvWarn (lit "Groq title generation failed, trying OpenRouter")
                (Some e)
           :: events o)
      end
  | None => openRouterTitle self prompt (self, p)
  end.
Proof.
  cbv zeta. unfold generateTitle. cbn [length Nat.eqb].
  unfold bind at 1. unfold get. cbn [fst snd app].
  destruct (groqClient self) as [g|].
  - unfold bind at 1. rewrite title_from_run.
    destruct (complete g groq_title_model _ p) as [[e|c] p1];
      [|reflexivity].
    now destruct (openRouterTitle self _ (self, p1)) as [[r s2] t2].
  - unfold bind at 1. unfold ret at 1. cbn [app].
    now destruct (openRouterTitle self _ (self, p)) as [[r s2] t2].
Qed.

(** X18.  [generateTitle] of the chat service never throws, never
    returns an empty title and never turns the cursor.  Without messages
    it answers [New Chat] without a request.  Otherwise it asks Groq
    when there is a Groq client, and a Groq answer is the whole run: the
    title is its trimmed text, or [New Chat] if that is absent or empty,
    and OpenRouter is not asked.  Only when there is no Groq client, or
    after Groq failed (which is logged), it turns to OpenRouter: with no
    key the title is [New Chat], with keys it asks the key under the
    cursor once, and the title is the trimmed text of the answer, or
    [New Chat] if the request fails (which is logged) or the text is
    absent or empty. *)
Theorem chat_title_has_two_tries `{Completions}
    (messages : list ChatMessage) (self : ChatService) (p : P) :
  let o := generateTitle messages (self, p) in
  let prompt := title_prompt messages in
  let title (c : option jsstring) :=
    or_default (option_map trim c) (lit "New Chat") in
  let groq_failed :=
    lit "Groq title generation failed, trying OpenRouter" in
  let second := current_client self in
  (exists t, value o = Ok t /\ t <> [])
  /\ fst (final o) = self
  /\ (messages = [] -> o = (Ok (lit "New Chat"), (self, p), []))
  /\ (messages <> [] ->
      (forall g c p1,
          groqClient self = Some g ->
          complete g groq_title_model prompt p = (inr c, p1) ->
          o = (Ok (title c), (self, p1),
               [EvComplete g groq_title_model prompt]))
      /\ (forall pre p1,
            (groqClient self = None /\ pre = [] /\ p1 = p)
            \/ (exists g e,
                  groqClient self = Some g
                  /\ complete g groq_title_model prompt p = (inl e, p1)
                  /\ pre = [EvComplete g groq_title_model prompt;
                            EvWarn groq_failed (Some e)]) ->
            (openRouterKeys self = [] ->
             o = (Ok (lit "New Chat"), (self, p1), pre))
            /\ (openRouterKeys self <> [] ->
                (forall c p2,
                    complete second openrouter_title_model prompt p1
                    = (inr c, p2) ->
                    o = (Ok (title c), (self, p2),
                         pre ++ [EvComplete second openrouter_title_model
                                   prompt]))
                /\ (forall e p2,
                      complete second openrouter_title_model prompt p1
                      = (inl e, p2) ->
                      o = (Ok (lit "New Chat"), (self, p2),
                           pre ++ [EvComplete second openrouter_title_model
                                     prompt;
                                   EvWarn
                                     (lit "OpenRouter title generation failed")
                                     (Some e)]))))).
Proof.
  cbv zeta.
  assert (lit "New Chat" <> []) as Hnew by discriminate.
  assert (forall c, or_default (option_map trim c) (lit "New Chat") <> [])
    as Htitle by (intros c; now apply or_default_nonempty).
  destruct messages as [|m0 ms].
  { split; [exists (lit "New Chat"); now split|].
    split; [reflexivity|]. split; [reflexivity|].
    intros C. now destruct C. }
  pose proof (generateTitle_run m0 ms self p) as Erun. cbv zeta in Erun.
  remember (title_prompt (m0 :: ms)) as prompt eqn:Eprompt.
  remember (generateTitle (m0 :: ms) (self, p)) as o eqn:Eo.
  assert (forall p0,
            let o2 := openRouterTitle self prompt (self, p0) in
            (exists t, value o2 = Ok t /\ t <> [])
            /\ fst (final o2) = self) as Hsecond.
  { intros p0. cbv zeta. rewrite openRouterTitle_run.
    destruct (openRouterKeys self) as [|k0 ks].
    - split; [exists (lit "New Chat"); now split|reflexivity].
    - destruct (complete (current_client self) openrouter_title_model
                  prompt p0) as [[e|c] p1]; cbn [value final events fst snd].
      + split; [exists (lit "New Chat"); now split|reflexivity].
      + split; [eexists; split; [reflexivity|apply Htitle]|reflexivity]. }
  assert (forall pre p1 o2,
            o2 = openRouterTitle self prompt (self, p1) ->
            o = (value o2, final o2, pre ++ events o2) ->
            (openRouterKeys self = [] ->
             o = (Ok (lit "New Chat"), (self, p1), pre))
            /\ (openRouterKeys self <> [] ->
                (forall c p2,
                    complete (current_client self) openrouter_title_model
                      prompt p1 = (inr c, p2) ->
                    o = (Ok (or_default (option_map trim c) (lit "New Chat")),
                         (self, p2),
                         pre ++ [EvComplete (current_client self)
                                   openrouter_title_model prompt]))
                /\ (forall e p2,
                      complete (current_client self) openrouter_title_model
                        prompt p1 = (inl e, p2) ->
                      o = (Ok (lit "New Chat"), (self, p2),
                           pre ++ [EvComplete (current_client self)
                                     openrouter_title_model prompt;
                                   EvWarn
                                     (lit "OpenRouter title generation failed")
                                     (Some e)])))) as Hturn.
  { intros pre p1 o2 -> ->. rewrite openRouterTitle_run. split.
    - intros ->. cbn [value final events fst snd]. now rewrite app_nil_r.
    - intros Hne.
      destruct (openRouterKeys self) as [|k0 ks]; [now destruct Hne|].
      split; intros ? ? ->; reflexivity. }
  split; [|split; [|split; [discriminate|]]].
  - rewrite Erun. destruct (groqClient self) as [g|].
    + destruct (complete g groq_title_model prompt p) as [[e|c] p1].
      * cbv zeta. cbn [value fst]. apply Hsecond.
      * eexists. split; [reflexivity|apply Htitle].
    + apply Hsecond.
  - rewrite Erun. destruct (groqClient self) as [g|].
    + destruct (complete g groq_title_model prompt p) as [[e|c] p1].
      * cbv zeta. cbn [final fst snd]. apply Hsecond.
      * reflexivity.
    + apply Hsecond.
  - intros _. split.
    + intros g c p1 Eg Ec. rewrite Erun, Eg, Ec. reflexivity.
    + intros pre p1 [(Eg & -> & ->)|(g & e & Eg & Ec & ->)].
      * apply (Hturn [] p (openRouterTitle self prompt (self, p)) eq_refl).
        rewrite Erun, Eg.
        now destruct (openRouterTitle self prompt (self, p)) as [[r s2] t2].
      * apply (Hturn _ p1 (openRouterTitle self prompt (self, p1)) eq_refl).
        rewrite Erun, Eg, Ec. reflexivity.
Qed.

(** X18 when Groq fails and the OpenRouter key under the cursor answers
    with a title in white space: the title is that answer, trimmed. *)
Lemma chat_title_has_two_tries_witness :
  @generateTitle _ (Scenes.titles (fun _ => false))
    [mkMessage (lit "user") (lit "hi")]
    (new_ChatService (Some (lit "gk")) (Some (lit "k1")), 0)
  = (Ok (lit "Greeting"),
     (new_ChatService (Some (lit "gk")) (Some (lit "k1")), 2),
     [EvComplete (mkClient GroqAPI (lit "gk")) groq_title_model
        (title_prompt [mkMessage (lit "user") (lit "hi")]);
      EvWarn (lit "Groq title generation failed, trying OpenRouter")
        (Some (Fixture.server_error 0));
      EvComplete (mkClient OpenRouterAPI (lit "k1")) openrouter_title_model
        (title_prompt [mkMessage (lit "user") (lit "hi")])]).
Proof.
  destruct (proj2 (proj2 (proj2
              (chat_title_has_two_tries
                 (H0 := Scenes.titles (fun _ => false))
                 [mkMessage (lit "user") (lit "hi")]
                 (new_ChatService (Some (lit "gk")) (Some (lit "k1"))) 0)))
              ltac:(discriminate)) as [_ Hsecond].
  destruct (Hsecond
              [EvComplete (mkClient GroqAPI (lit "gk")) groq_title_model
                 (title_prompt [mkMessage (lit "user") (lit "hi")]);
               EvWarn (lit "Groq title generation failed, trying OpenRouter")
                 (Some (Fixture.server_error 0))]
              1) as [_ Hkeys].
  { right. exists (mkClient GroqAPI (lit "gk")), (Fixture.server_error 0).
    repeat split. }
  destruct (Hkeys ltac:(discriminate)) as [Hanswer _].
  exact (Hanswer (Some (lit " Greeting ")) 2 eq_refl).
Defined.

(** With no Groq client the key under the cursor is asked at once. *)
Example title_from_openrouter_alone :
  @generateTitle _ (Scenes.titles (fun _ => false))
    [mkMessage (lit "user") (lit "hi")]
    (new_ChatService None (Some (lit "k1")), 0)
  = (Ok (lit "Greeting"), (new_ChatService None (Some (lit "k1")), 1),
     [EvComplete (mkClient OpenRouterAPI (lit "k1")) openrouter_title_model
        (title_prompt [mkMessage (lit "user") (lit "hi")])]).
Proof. vm_compute. reflexivity. Qed.

Lemma set_last_content_snoc (content : jsstring) (msgs : list ChatMessage)
    (m : ChatMessage) :
  set_last_content content (msgs ++ [m])
  = msgs ++ [mkMessage (msg_role m) content].
Proof.
  unfold set_last_content. rewrite rev_app_distr. cbn.
  now rewrite rev_involutive.
Qed.

(** After the deltas of a stream, the last message holds what they add
    up to. *)
Lemma receive_run (chunks : list jsstring) (full : jsstring)
    (msgs : list ChatMessage) (r : jsstring) :
  receive chunks full (msgs ++ [mkMessage r full])
  = (full ++ concat chunks,
     msgs ++ [mkMessage r (full ++ concat chunks)]).
Proof.
  revert full. induction chunks as [|chunk chunks IH]; intros full.
  - cbn. now rewrite app_nil_r.
  - cbn [receive concat]. rewrite set_last_content_snoc. cbn [msg_role].
    rewrite IH. now rewrite app_assoc.
Qed.

(** X19.  [handleSubmit] of the chat view.  A blank query, a missing
    service or a turn in progress make it do nothing: no message, no
    request.  Otherwise it calls [streamChat] on the history followed by
    the user's message, and when it is done the view is no longer
    loading, the input is empty, and the history has grown by the user's
    message, by one assistant message that holds all the text streamed,
    and, when the turn failed, by a system message [Error: ...] with the
    message of the error: text streamed before a failure is kept. *)
Theorem submit_appends_the_turn `{Provider} (text : option jsstring)
    (selectedModel : ChatMode) (view : View) (service : option ChatService)
    (p : P) :
  let query := or_default text (input view) in
  let done := handleSubmit text selectedModel view service p in
  (trim query = [] \/ service = None \/ isLoading view = true ->
   done = (view, service, p, []))
  /\ (forall svc,
        service = Some svc -> trim query <> [] -> isLoading view = false ->
        let o := streamChat (messages view ++ [mkMessage (lit "user") query])
                   selectedModel (svc, p) in
        done
        = (mkView
             (messages view
              ++ [mkMessage (lit "user") query;
                  mkMessage (lit "assistant")
                    (concat (deltas (events o)))]
              ++ match value o with
                 | Ok _ => []
                 | Throw error =>
                     [mkMessage (lit "system")
                        (lit "Error: " ++ error_text error)]
                 end)
             [] false,
           Some (fst (final o)), snd (final o), events o)).
Proof.
  cbv zeta. unfold handleSubmit. split.
  - intros Hguard. destruct service as [svc|]; [|reflexivity].
    destruct Hguard as [Hblank|[Hnone|Hload]].
    + now rewrite Hblank.
    + discriminate.
    + rewrite Hload. now rewrite orb_true_r.
  - intros svc -> Hquery Hload. rewrite Hload, orb_false_r.
    destruct (trim (or_default text (input view))) as [|c q] eqn:Eq;
      [now destruct Hquery|].
    cbn [truthy negb]. f_equal. f_equal. f_equal.
    pose proof (receive_run
                  (deltas (events
                     (streamChat
                        (messages view
                         ++ [mkMessage (lit "user")
                               (or_default text (input view))])
                        selectedModel (svc, p))))
                  [] (messages view
                      ++ [mkMessage (lit "user")
                            (or_default text (input view))])
                  (lit "assistant")) as Hrun.
    cbn [app] in Hrun. rewrite Hrun. cbn [snd].
    destruct (value _); rewrite <- !app_assoc; reflexivity.
Qed.

Lemma submit_appends_the_turn_witness :
  @handleSubmit (Fixture.key_check (fun _ => false)) (Some (lit "hi"))
    uncensored (mkView [] (lit "draft") false) (Some Fixture.three_keys) 0
  = (mkView [mkMessage (lit "user") (lit "hi");
             mkMessage (lit "assistant") (lit "Hello")] [] false,
     Some Fixture.three_keys, 1,
     [EvCreate (mkClient OpenRouterAPI (lit "k1")) (MODELS uncensored);
      EvYield (lit "Hel"); EvYield (lit "lo")]).
Proof.
  rewrite (proj2 (submit_appends_the_turn
                    (H := Fixture.key_check (fun _ => false))
                    (Some (lit "hi")) uncensored
                    (mkView [] (lit "draft") false)
                    (Some Fixture.three_keys) 0)
             Fixture.three_keys eq_refl).
  - vm_compute. reflexivity.
  - vm_compute. discriminate.
  - reflexivity.
Defined.

(** A rejected key after partial output: the text stays, the error
    follows. *)
Example submit_keeps_partial_text :
  messages
    (fst (fst (fst
       (@handleSubmit
          {| P := nat;
             create := fun _ _ _ _ n =>
               ([Some (lit "Hel")],
                Some (mkError (lit "connection lost") (Some 500%N) None),
                S n) |}
          None flash (mkView [] (lit "hi") false)
          (Some Fixture.three_keys) 0))))
  = [mkMessage (lit "user") (lit "hi");
     mkMessage (lit "assistant") (lit "Hel");
     mkMessage (lit "system") (lit "Error: connection lost")].
Proof. vm_compute. reflexivity. Qed.

End DialogueFacts.

(** ** The handlers around the batch *)

Module WorkbenchFacts.

Import Gateway App Workbench EffFacts GatewayFacts AppFacts.
Local Open Scope eff_scope.

Lemma splice_out_middle {T} (l1 l2 : list T) (x : T) :
  splice_out (length l1) (l1 ++ x :: l2) = (Some x, l1 ++ l2).
Proof.
  unfold splice_out. induction l1 as [|a l1 IH]; [reflexivity|].
  injection IH as E1 E2.
  cbn [length app nth_error firstn skipn]. now rewrite E1, E2.
Qed.

Lemma waves_nil (fuel : nat) : waves fuel [] = [].
Proof. now destruct fuel. Qed.

(** The number of waves, and the width of all but the last. *)
Lemma waves_count (fuel : nat) (qs : list ExamQuestion) :
  length qs <= fuel ->
  length (waves fuel qs) = (length qs + 2) / 3
  /\ Forall (fun batch => length batch = 3) (removelast (waves fuel qs)).
Proof.
  revert qs. induction fuel as [|fuel IH]; intros qs Hlen.
  - destruct qs; [|cbn in Hlen; lia]. split; [reflexivity|constructor].
  - destruct qs as [|q1 qs]; [split; [reflexivity|constructor]|].
    cbn [waves].
    destruct qs as [|q2 [|q3 rest]].
    + cbn. rewrite waves_nil. split; [reflexivity|constructor].
    + cbn. rewrite waves_nil. split; [reflexivity|constructor].
    + change (skipn batchSize (q1 :: q2 :: q3 :: rest)) with rest.
      change (firstn batchSize (q1 :: q2 :: q3 :: rest)) with [q1; q2; q3].
      destruct (IH rest ltac:(cbn in Hlen; lia)) as [Hn Hw].
      split.
      * cbn [length]. rewrite Hn.
        replace (S (S (S (length rest))) + 2)
          with (length rest + 2 + 1 * 3) by lia.
        rewrite Nat.div_add by discriminate. lia.
      * destruct (waves fuel rest) as [|w ws] eqn:Ew; [constructor|].
        change (removelast ([q1; q2; q3] :: w :: ws))
          with ([q1; q2; q3] :: removelast (w :: ws)).
        constructor; [reflexivity|exact Hw].
Qed.

(** X20.  The edges of [startGeneration].  Without an analysis it does
    nothing.  With an analysis in which no question is enabled it ends at
    once in state [COMPLETED] with no result, no error and no wave
    started, whatever results and error were shown before.  In general
    the N enabled questions are worked through in ceil(N/3) waves, all of
    three questions but, possibly, the last. *)
Theorem batch_runs_in_full_waves `{Workers} (m : Model) (w : W) :
  (analysis m = None -> startGeneration m w = (m, w))
  /\ (forall a,
        analysis m = Some a ->
        filter q_enabled (questions a) = [] ->
        startGeneration m w = (mkModel (Some a) COMPLETED None 0 0 [], w))
  /\ (forall a,
        analysis m = Some a ->
        let enabled := filter q_enabled (questions a) in
        let ws := waves (length enabled) enabled in
        length ws = (length enabled + 2) / 3
        /\ Forall (fun batch => length batch = 3) (removelast ws)
        /\ snd (startGeneration m w) = fold_left after_wave ws w).
Proof.
  split; [|split].
  - intros Ha. unfold startGeneration. now rewrite Ha.
  - intros a Ha Hnone. unfold startGeneration. rewrite Ha, Hnone.
    cbn.
    unfold setState, setRefinedQuestions, setCurrentGenStep,
      setTotalGenSteps, setError. cbn. now rewrite Ha.
  - intros a Ha enabled ws.
    destruct (waves_count (length enabled) enabled (le_n _)) as [Hn Hw].
    split; [exact Hn|]. split; [exact Hw|].
    unfold startGeneration. rewrite Ha. cbv zeta. cbn [snd].
    fold enabled. rewrite generation_loop_waves.
    change (skipn 0 enabled) with enabled. fold ws.
    now destruct (waves_fold (length enabled) ws
                    (mkLoop [] 0
                       (setCurrentGenStep (fun _ => 0)
                          (setTotalGenSteps (length enabled)
                             (setError None (setState GENERATING m)))) w))
      as (_ & _ & Hworld & _).
Qed.

Lemma batch_runs_in_full_waves_witness :
  length (waves
            (length (filter q_enabled (questions Fixture.six_questions)))
            (filter q_enabled (questions Fixture.six_questions)))
  = (length (filter q_enabled (questions Fixture.six_questions)) + 2) / 3.
Proof.
  apply (proj2 (proj2 (batch_runs_in_full_waves
                         (H := Fixture.graders (fun _ => false))
                         (Fixture.reviewing Fixture.six_questions) 0))
           Fixture.six_questions eq_refl).
Defined.

(** X21.  [handleDrop] moves one result and keeps the others.  With
    nothing dragged, or on a drop at the place the item was dragged
    from, nothing is set.  Otherwise, for an item dragged from inside
    the list, the new list has the same results (it is a rearrangement
    of the old one), the dragged item is at the target place (at the end
    when the target is beyond it), and the other results are in the
    order they were in. *)
Theorem drop_moves_one_item {T : Type} (targetIndex dragged : nat)
    (refinedQuestions : list T) (item : T) :
  handleDrop targetIndex None refinedQuestions = Unchanged
  /\ handleDrop targetIndex (Some targetIndex) refinedQuestions = Unchanged
  /\ (nth_error refinedQuestions dragged = Some item ->
      dragged <> targetIndex ->
      exists updated,
        handleDrop targetIndex (Some dragged) refinedQuestions
        = Reordered updated
        /\ Permutation updated refinedQuestions
        /\ length updated = length refinedQuestions
        /\ splice_out (Nat.min targetIndex (length refinedQuestions - 1))
             updated
           = (Some item, snd (splice_out dragged refinedQuestions))).
Proof.
  split; [reflexivity|]. split.
  { unfold handleDrop. now rewrite Nat.eqb_refl. }
  intros Hitem Hneq.
  destruct (nth_error_split _ _ Hitem) as (l1 & l2 & -> & <-).
  unfold handleDrop.
  destruct (length l1 =? targetIndex) eqn:E;
    [apply Nat.eqb_eq in E; contradiction|].
  rewrite splice_out_middle. cbn [snd].
  exists (splice_in targetIndex item (l1 ++ l2)).
  split; [reflexivity|].
  assert (Permutation (splice_in targetIndex item (l1 ++ l2))
            (l1 ++ item :: l2)) as Hperm.
  { unfold splice_in.
    eapply Permutation_trans; [symmetry; apply Permutation_middle|].
    rewrite firstn_skipn. apply Permutation_middle. }
  split; [exact Hperm|]. split; [now apply Permutation_length|].
  replace (Nat.min targetIndex (length (l1 ++ item :: l2) - 1))
    with (length (firstn targetIndex (l1 ++ l2))).
  - unfold splice_in. rewrite splice_out_middle.
    now rewrite firstn_skipn.
  - rewrite length_firstn, !length_app. cbn [length]. lia.
Qed.

Lemma drop_moves_one_item_witness :
  exists updated,
    handleDrop 0 (Some 2) [lit "a"; lit "b"; lit "c"] = Reordered updated
    /\ Permutation updated [lit "a"; lit "b"; lit "c"]
    /\ length updated = 3
    /\ splice_out (Nat.min 0 (3 - 1)) updated
       = (Some (lit "c"), snd (splice_out 2 [lit "a"; lit "b"; lit "c"])).
Proof.
  apply (proj2 (proj2 (drop_moves_one_item 0 2 [lit "a"; lit "b"; lit "c"]
                         (lit "c")))).
  - reflexivity.
  - discriminate.
Defined.

Lemma handleFilesSelected_run `{Runtime} (files : list File) (m : Model)
    (b : B) :
  handleFilesSelected files m b =
  match analyzeExamPaper files model_gemini3 b with
  | (Ok a, b1, t1) =>
      (Ok (mkModel (Some a) REVIEWING None (totalGenSteps m)
             (currentGenStep m) (refinedQuestions m)), b1, t1)
  | (Throw (Some err), b1, t1) =>
      (Ok (mkModel (analysis m) IDLE
             (Some (or_default (Some (message err)) (lit "Scanning failed.")))
             (totalGenSteps m) (currentGenStep m) (refinedQuestions m)),
       b1, t1)
  | (Throw None, b1, t1) =>
      (Throw (Some (new_Error
         (lit "Cannot read properties of undefined (reading 'message')"))),
       b1, t1)
  end.
Proof.
  unfold handleFilesSelected, try_catch, bind, message_of, ret, throw.
  destruct (analyzeExamPaper files model_gemini3 b) as [[[a|[err|]] b1] t1];
    cbn [app]; now rewrite ?app_nil_r.
Qed.

(** X22.  [handleFilesSelected] never throws and always leaves the
    [ANALYZING] state: it does what the scan does and nothing else, and
    ends in [REVIEWING] with the analysis of the scan when the scan
    returns, and in [IDLE] with the old analysis when it fails.  The
    error shown then is the message of the scan's terminal error, [Scan
    failed after 4 types of fallback. Last error: ...] around the message
    of the fourth link, so the default text [Scanning failed.] is never
    shown. *)
Theorem scan_handler_settles `{Runtime} (files : list File) (m : Model)
    (b : B) :
  let scan := analyzeExamPaper files model_gemini3 b in
  let o := handleFilesSelected files m b in
  final o = final scan
  /\ events o = events scan
  /\ (forall a,
        value scan = Ok a ->
        value o = Ok (mkModel (Some a) REVIEWING None (totalGenSteps m)
                        (currentGenStep m) (refinedQuestions m)))
  /\ (forall e,
        value scan = Throw e ->
        exists err4,
          value (link4 files model_gemini3 b) = Throw (Some err4)
          /\ value o
             = Ok (mkModel (analysis m) IDLE
                     (Some (lit "Scan failed after 4 types of fallback. Last error: "
                            ++ message err4))
                     (totalGenSteps m) (currentGenStep m)
                     (refinedQuestions m))).
Proof.
  cbv zeta.
  pose proof (analyzeExamPaper_links files model_gemini3 b) as E.
  cbv zeta in E.
  destruct (link_objects files model_gemini3 b) as (_ & _ & _ & Ho4).
  assert (forall e, value (analyzeExamPaper files model_gemini3 b) = Throw e ->
            exists err4,
              value (link4 files model_gemini3 b) = Throw (Some err4)
              /\ e = Some (scan_failed err4)) as Hthrown.
  { intros e He. rewrite E in He.
    destruct (value (link1 files model_gemini3 b)); [discriminate|].
    destruct (value (link2 files model_gemini3 b)); [discriminate|].
    destruct (value (link3 files model_gemini3 b)); [discriminate|].
    destruct (value (link4 files model_gemini3 b)) as [v4|[err4|]] eqn:E4;
      [discriminate| |now destruct (Ho4 None)].
    exists err4. split; [reflexivity|]. cbn in He. now inversion He. }
  clear E. rewrite handleFilesSelected_run.
  destruct (analyzeExamPaper files model_gemini3 b) as [[[a|e] b1] t1];
    cbn [value final events fst snd] in *.
  - repeat split; try discriminate.
    intros a' Ea. now inversion Ea.
  - destruct (Hthrown e eq_refl) as (err4 & E4 & ->).
    repeat split; try discriminate.
    intros e' Ee. exists err4. split; [exact E4|]. reflexivity.
Qed.

Lemma scan_handler_settles_witness :
  exists err4,
    value (@link4 (Fixture.down Fixture.three_vendors) [] model_gemini3 0)
    = Throw (Some err4)
    /\ value (@handleFilesSelected (Fixture.down Fixture.three_vendors) []
                (mkModel None IDLE None 0 0 []) 0)
       = Ok (mkModel None IDLE
               (Some (lit "Scan failed after 4 types of fallback. Last error: "
                      ++ message err4)) 0 0 []).
Proof.
  apply (proj2 (proj2 (proj2
           (scan_handler_settles (H := Fixture.down Fixture.three_vendors)
              [] (mkModel None IDLE None 0 0 []) 0)))
           (Some (scan_failed (Fixture.server_error 4)))).
  vm_compute. reflexivity.
Defined.

End WorkbenchFacts.

(** ** Which credential goes where *)

Module VendorFacts.

Import Keys Gateway Routing EffFacts GatewayFacts RoutingFacts.
Local Open Scope eff_scope.

Section Facts.
Context `{Runtime}.

Lemma titleOp_events prompt k b :
  events (titleOp prompt k b)
  = [EvGemini k (mkGeminiReq model_gemini2 [] prompt false false)].
Proof.
  unfold titleOp, gemini_call, call, bind, emit, ret.
  now destruct (generateContent k _ b) as [[err|r] b1].
Qed.

Lemma link1_calls files modelName b :
  Forall scan_call (io_all (events (link1 files modelName b))).
Proof.
  eapply io_all_Forall; [apply once_calls|].
  intros k b0 Hin. rewrite scanPrimary_events.
  constructor; [exact I|]. constructor; [exact Hin|constructor].
Qed.

Lemma link2_calls files modelName b :
  Forall scan_call (io_all (events (link2 files modelName b))).
Proof.
  eapply io_all_Forall; [apply once_calls|].
  intros k b0 Hin. rewrite scanFallback_events.
  constructor; [exact I|]. constructor; [exact Hin|constructor].
Qed.

Lemma analyzeWithGroq_calls fs promptText b :
  Forall scan_call (events (analyzeWithGroq fs promptText b))
  /\ Forall (fun ev => is_attempt ev = false)
       (events (analyzeWithGroq fs promptText b)).
Proof.
  unfold analyzeWithGroq.
  destruct getGroqApiKey as [[|c key]|] eqn:Ekey; cbn [truthy negb];
    try (split; constructor).
  cbn [or_default]. unfold try_catch.
  assert (forall model,
            scan_call (EvFetch (groq_call_request (c :: key) promptText fs
                                  model))) as Hcall.
  { intros model. cbn. now rewrite Ekey. }
  pose proof (callGroq_request (c :: key) promptText fs model_llama4 b)
    as E1.
  destruct (callGroq (c :: key) promptText fs model_llama4 b)
    as [[[v|e] b1] t1]; cbn [events snd] in E1; subst t1.
  - cbn [events snd]. split; repeat constructor. apply Hcall.
  - unfold console. rewrite bind_emit.
    rewrite (callGroq_request (c :: key) promptText fs model_llama32 b1).
    cbn [events snd app].
    split; repeat constructor; apply Hcall.
Qed.

Lemma link3_calls files modelName b :
  Forall scan_call (io_all (events (link3 files modelName b))).
Proof.
  unfold link3.
  destruct (analyzeWithGroq_calls (visionFiles files) analysisPrompt
              (final (link2 files modelName b))) as [Hcalls Hflat].
  now rewrite (io_all_flat _ Hflat).
Qed.

Lemma link4_calls files modelName b :
  Forall scan_call (io_all (events (link4 files modelName b))).
Proof.
  eapply io_all_Forall; [apply once_calls|].
  intros k b0 Hin. rewrite scanOpenRouter_events.
  constructor; [exact Hin|constructor].
Qed.

End Facts.

(** X23.  The scan keeps the credentials apart and never waits.  In the
    opened events of [analyzeExamPaper] every call of the Gemini SDK
    carries a key of the Gemini pool, every request to the Groq endpoint
    carries the Groq key, every request to the OpenRouter endpoint a key
    of the OpenRouter pool, and there is no delay: no key is ever sent to
    another vendor, and a scan costs no waiting time of the gateway's
    own. *)
Theorem scan_keeps_credentials_apart `{Runtime} (files : list File)
    (modelName : jsstring) (b : B) :
  Forall scan_call (io_all (events (analyzeExamPaper files modelName b))).
Proof.
  pose proof (analyzeExamPaper_links files modelName b) as E.
  cbv zeta in E. rewrite E. clear E.
  pose proof (link1_calls files modelName b) as H1.
  pose proof (link2_calls files modelName b) as H2.
  pose proof (link3_calls files modelName b) as H3.
  pose proof (link4_calls files modelName b) as H4.
  destruct (value (link1 files modelName b)); cbn [events snd];
    [exact H1|].
  destruct (value (link2 files modelName b)); cbn [events snd].
  { repeat progress rewrite ?io_all_app, ?io_all_cons.
    repeat (apply Forall_app; split); trivial; repeat constructor. }
  destruct (value (link3 files modelName b)); cbn [events snd].
  { repeat progress rewrite ?io_all_app, ?io_all_cons.
    repeat (apply Forall_app; split); trivial; repeat constructor. }
  destruct (value (link4 files modelName b)); cbn [events snd];
    repeat progress rewrite ?io_all_app, ?io_all_cons;
    repeat (apply Forall_app; split); trivial; repeat constructor.
Qed.

(** X24.  [generateChatTitle] asks Gemini, whatever provider it is
    given.  Every network call it makes is a call of the Gemini SDK for
    [gemini-2.0-flash-exp] with the title prompt, and the key it carries
    is a key of the pool of the provider named in the call: with
    [provider = 'openrouter'] the OpenRouter keys are handed to the
    Gemini client.  It sends nothing to a chat endpoint and never
    waits. *)
Theorem chat_title_always_asks_gemini `{Runtime} (messages : list ChatTurn)
    (provider : ModelProvider) (b : B) :
  Forall (title_call messages provider)
    (io_all (events (generateChatTitle messages provider b))).
Proof.
  unfold generateChatTitle.
  destruct (length messages =? 0); [constructor|].
  cbv zeta. unfold try_catch.
  fold (chat_title_prompt messages).
  assert (Forall (title_call messages provider)
            (io_all (events (withProviderRetry provider
                               (titleOp (chat_title_prompt messages)) 1 b))))
    as Hrun.
  { eapply io_all_Forall; [apply once_calls|].
    intros k b0 Hin. rewrite titleOp_events.
    constructor; [|constructor]. split; [exact Hin|reflexivity]. }
  destruct (withProviderRetry provider
              (titleOp (chat_title_prompt messages)) 1 b)
    as [[[v|e] b1] t1]; cbn [events snd] in *; [exact Hrun|].
  unfold console. rewrite bind_emit. cbn [events snd ret].
  rewrite io_all_app. apply Forall_app. split; [exact Hrun|].
  repeat constructor.
Qed.

(** With [openrouter] as provider, the OpenRouter key [o1] goes to the
    Gemini SDK. *)
Example openrouter_key_goes_to_gemini :
  io_all (events (@generateChatTitle (Fixture.down Fixture.three_vendors)
                    [mkTurn (lit "user") (lit "hi")] openrouter 0))
  = [EvGemini (lit "o1")
       (mkGeminiReq model_gemini2 [] (lit "hi") false false);
     EvConsole (lit "Title generation failed, using default")].
Proof. vm_compute. reflexivity. Qed.

End VendorFacts.

(** ** Settings, switches and history *)

Module DeskFacts.

Import Keys Gateway App Pools Workbench KeysFacts PoolFacts.

Lemma str_eqb_eq (s t : jsstring) : str_eqb s t = true <-> s = t.
Proof.
  revert t. induction s as [|a s IH]; intros [|b t]; cbn;
    try (split; [discriminate|discriminate]); [split; reflexivity|].
  unfold char_eqb. rewrite andb_true_iff, N.eqb_eq, IH.
  split; [intros [-> ->]; reflexivity|intros E; now inversion E].
Qed.

Lemma str_eqb_refl (s : jsstring) : str_eqb s s = true.
Proof. now apply str_eqb_eq. Qed.

(** X25.  Clearing a stored key gives the provider back its build-time
    keys.  After [clearLocalGeminiKey] (or [clearLocalOpenRouterKey]) the
    pool of that provider is the parse of the build-time variable (for
    Gemini: the Vite variable, else [API_KEY], else [GEMINI_API_KEY] of
    the process), the pool of the other provider is as it was, and a key
    saved and then cleared leaves the pool it had with nothing stored. *)
Theorem cleared_key_falls_back_to_the_build (R : Runtime)
    (p : ModelProvider) :
  let e := @env R in
  let build :=
    match p with
    | gemini =>
        or_else (vite_gemini e)
          (if has_process e
           then or_else (node_API_KEY e) (node_GEMINI_API_KEY e)
           else None)
    | openrouter => vite_openrouter e
    end in
  @keysOf (with_env R (clearLocalKey p e)) p = getAllKeys build
  /\ (forall p', p' <> p ->
        @keysOf (with_env R (clearLocalKey p e)) p' = @keysOf R p')
  /\ (forall g o gr,
        stored_of p e = None ->
        @keysOf (with_env R (clearLocalKey p (saveLocalKeys g o gr e))) p
        = @keysOf R p).
Proof.
  cbv zeta. split; [|split].
  - destruct p; unfold keysOf, getGeminiKeys, getOpenRouterKeys,
      from_window, or_undefined;
      cbn [env with_env clearLocalKey has_window local_gemini
           local_openrouter vite_gemini vite_openrouter has_process
           node_API_KEY node_GEMINI_API_KEY];
      now destruct (has_window (@env R)).
  - intros p' Hp'. destruct p, p'; try (now destruct Hp'); reflexivity.
  - intros g o gr Hnone.
    destruct p; cbn [stored_of] in Hnone;
      unfold keysOf, getGeminiKeys, getOpenRouterKeys, from_window,
        or_undefined;
      cbn [env with_env clearLocalKey saveLocalKeys has_window local_gemini
           local_openrouter vite_gemini vite_openrouter has_process
           node_API_KEY node_GEMINI_API_KEY];
      rewrite Hnone; now destruct (has_window (@env R)).
Qed.

Lemma cleared_key_falls_back_to_the_build_witness :
  @keysOf (with_env (Fixture.offline
                       (mkEnv true None None None (Some (lit "v1")) None None
                          false None None))
             (clearLocalKey gemini
                (saveLocalKeys (lit "k9") [] []
                   (mkEnv true None None None (Some (lit "v1")) None None
                      false None None)))) gemini
  = @keysOf (Fixture.offline
               (mkEnv true None None None (Some (lit "v1")) None None
                  false None None)) gemini.
Proof.
  apply (proj2 (proj2 (cleared_key_falls_back_to_the_build
                         (Fixture.offline
                            (mkEnv true None None None (Some (lit "v1"))
                               None None false None None)) gemini))
           (lit "k9") [] []).
  reflexivity.
Defined.

Lemma switched_questions (id : jsstring) (enabled : bool)
    (qs : list ExamQuestion) :
  let next :=
    map (fun q => if str_eqb (q_id q) id then spread q (switch enabled)
                  else q) qs in
  map q_id next = map q_id qs
  /\ length next = length qs
  /\ (enabled = false ->
      filter q_enabled next
      = filter (fun q => negb (str_eqb (q_id q) id)) (filter q_enabled qs))
  /\ (enabled = true ->
      map q_id (filter q_enabled next)
      = map q_id (filter (fun q => q_enabled q || str_eqb (q_id q) id) qs)).
Proof.
  cbv zeta. induction qs as [|q qs (IH1 & IH2 & IH3 & IH4)].
  - repeat split.
  - cbn [map filter length].
    destruct (str_eqb (q_id q) id) eqn:Eid.
    + split; [cbn; now rewrite IH1|]. split; [now rewrite IH2|].
      split; intros ->; cbn [spread switch over p_enabled q_enabled].
      * destruct (q_enabled q); cbn [filter]; rewrite ?Eid; cbn [negb];
          now apply IH3.
      * rewrite orb_true_r. cbn [map]. now rewrite IH4.
    + split; [now rewrite IH1|]. split; [now rewrite IH2|].
      split; intros ->.
      * destruct (q_enabled q); cbn [filter]; rewrite ?Eid; cbn [negb];
          now rewrite IH3.
      * rewrite orb_false_r.
        destruct (q_enabled q); cbn [map]; now rewrite IH4.
Qed.

(** X26.  The switch of a question decides whether the batch takes it.
    [updateQuestion(id, { enabled: false })] takes exactly the questions
    with that id out of what [startGeneration] will work on and leaves
    the others, in their order; with [enabled: true] the questions with
    that id are in.  Either way the analysis keeps its title, its total,
    and the ids of its questions in their order; without an analysis
    nothing changes. *)
Theorem switch_decides_the_batch (id : jsstring) (m : Model) :
  enabledQuestions (updateQuestion id (switch false) m)
  = filter (fun q => negb (str_eqb (q_id q) id)) (enabledQuestions m)
  /\ map q_id (enabledQuestions (updateQuestion id (switch true) m))
     = map q_id
         (filter (fun q => q_enabled q || str_eqb (q_id q) id)
            (match analysis m with Some a => questions a | None => [] end))
  /\ (forall enabled a,
        analysis m = Some a ->
        exists a',
          analysis (updateQuestion id (switch enabled) m) = Some a'
          /\ examTitle a' = examTitle a
          /\ totalMarks a' = totalMarks a
          /\ map q_id (questions a') = map q_id (questions a))
  /\ (forall enabled,
        analysis m = None -> updateQuestion id (switch enabled) m = m).
Proof.
  unfold enabledQuestions, updateQuestion.
  destruct (analysis m) as [a|] eqn:Ea.
  - destruct (switched_questions id false (questions a))
      as (_ & _ & Hoff & _).
    destruct (switched_questions id true (questions a))
      as (_ & _ & _ & Hon).
    cbv zeta in *. cbn [setAnalysis analysis questions].
    split; [now apply Hoff|]. split; [now apply Hon|].
    split; [|discriminate].
    intros enabled a0 E. inversion E; subst a0.
    eexists. split; [reflexivity|].
    cbn [examTitle totalMarks questions]. repeat split.
    now destruct (switched_questions id enabled (questions a)) as [Hid _].
  - rewrite Ea. repeat split. discriminate.
Qed.

Lemma switch_decides_the_batch_witness :
  exists a',
    analysis (updateQuestion (lit "2") (switch false)
                (Fixture.reviewing Fixture.six_questions)) = Some a'
    /\ examTitle a' = examTitle Fixture.six_questions
    /\ totalMarks a' = totalMarks Fixture.six_questions
    /\ map q_id (questions a') = map q_id (questions Fixture.six_questions).
Proof.
  apply (proj1 (proj2 (proj2 (switch_decides_the_batch (lit "2")
                                (Fixture.reviewing Fixture.six_questions))))
           false Fixture.six_questions).
  reflexivity.
Defined.

(** X27.  The history handlers.  [saveToHistory] puts the new item, with
    no tag, in front of the history.  [deleteHistoryItem] removes every
    item with the id and no other, and keeps the order of the rest: it
    works through the history piece by piece, dropping an item with the
    id and leaving any other item where it is, so that deleting an item
    whose id no other item has leaves what was before it followed by
    what was after it.  Deleting twice is deleting once; deleting the
    item [saveToHistory] has just added, whose id no older item has,
    gives back the history as it was.  Both handlers write the JSON text
    of the history they leave to local storage, and to the cookie in
    cloud mode only. *)
Theorem history_delete_undoes_save
    (stringify : list HistoryItem -> jsstring) (uuid : jsstring) (now : N)
    (data : ExamAnalysis) (refined : option (list RefinedQuestion))
    (storageType : StorageType) (history : list HistoryItem) :
  let saved :=
    saveToHistory stringify uuid now data refined storageType history in
  let delete id l := fst (deleteHistoryItem stringify id storageType l) in
  let deleted id := deleteHistoryItem stringify id storageType history in
  fst saved = mkItem uuid data refined now [] :: history
  /\ (Forall (fun h => h_id h <> uuid) history ->
      fst (deleteHistoryItem stringify uuid storageType (fst saved)) = history)
  /\ (forall id h, In h (fst (deleted id)) <-> In h history /\ h_id h <> id)
  /\ (forall id, history = [] -> fst (deleted id) = [])
  /\ (forall id h, history = [h] ->
        (h_id h = id -> fst (deleted id) = [])
        /\ (h_id h <> id -> fst (deleted id) = [h]))
  /\ (forall id l1 l2, history = l1 ++ l2 ->
        fst (deleted id) = delete id l1 ++ delete id l2)
  /\ (forall id l1 h l2,
        history = l1 ++ h :: l2 -> h_id h = id ->
        Forall (fun h' => h_id h' <> id) l1 ->
        Forall (fun h' => h_id h' <> id) l2 ->
        fst (deleted id) = l1 ++ l2)
  /\ (forall id,
        fst (deleteHistoryItem stringify id storageType (fst (deleted id)))
        = fst (deleted id))
  /\ (forall id,
        Forall (fun h => h_id h <> id) history -> fst (deleted id) = history)
  /\ snd saved
     = SetItem (stringify (fst saved))
       :: match storageType with
          | cloud => [SetCookie (stringify (fst saved)) 30]
          | local => []
          end
  /\ (forall id,
        snd (deleted id)
        = SetItem (stringify (fst (deleted id)))
          :: match storageType with
             | cloud => [SetCookie (stringify (fst (deleted id))) 30]
             | local => []
             end).
Proof.
  cbv zeta.
  assert (forall id l,
            Forall (fun h => h_id h <> id) l ->
            filter (fun h => negb (str_eqb (h_id h) id)) l = l) as Hkeep.
  { intros id l Hall. induction Hall as [|h l Hh _ IH]; [reflexivity|].
    cbn [filter]. destruct (str_eqb (h_id h) id) eqn:E.
    - apply str_eqb_eq in E. contradiction.
    - cbn [negb]. now rewrite IH. }
  split; [reflexivity|].
  split; [|split; [|split; [|split; [|split; [|split; [|split; [|split;
    [|split]]]]]]]].
  - intros Hfresh. cbn [saveToHistory deleteHistoryItem fst filter h_id].
    rewrite str_eqb_refl. cbn [negb]. now apply Hkeep.
  - intros id h. cbn [deleteHistoryItem fst]. rewrite filter_In.
    split; intros [Hin Hid]; (split; [exact Hin|]).
    + intros E. apply str_eqb_eq in E. now rewrite E in Hid.
    + destruct (str_eqb (h_id h) id) eqn:E; [|reflexivity].
      apply str_eqb_eq in E. contradiction.
  - intros id ->. reflexivity.
  - intros id h ->. cbn [deleteHistoryItem fst filter]. split.
    + intros ->. now rewrite str_eqb_refl.
    + intros Hne. destruct (str_eqb (h_id h) id) eqn:E; [|reflexivity].
      apply str_eqb_eq in E. contradiction.
  - intros id l1 l2 ->. cbn [deleteHistoryItem fst]. apply filter_app.
  - intros id l1 h l2 -> Hid H1 H2. cbn [deleteHistoryItem fst].
    rewrite filter_app. cbn [filter]. rewrite Hid, str_eqb_refl.
    cbn [negb]. now rewrite (Hkeep id l1 H1), (Hkeep id l2 H2).
  - intros id. cbn [deleteHistoryItem fst]. apply Hkeep.
    apply Forall_forall. intros h Hin. apply filter_In in Hin.
    destruct Hin as [_ Hid]. intros E. apply str_eqb_eq in E.
    now rewrite E in Hid.
  - intros id Hall. cbn [deleteHistoryItem fst]. now apply Hkeep.
  - reflexivity.
  - reflexivity.
Qed.

(** X27 on a history of three items: deleting the one in the middle
    leaves the first and the last, in that order. *)
Lemma history_delete_undoes_save_witness :
  let item id stamp := mkItem id Fixture.six_questions None stamp [] in
  fst (deleteHistoryItem (fun l => of_nat (length l)) (lit "id-2") cloud
         [item (lit "id-1") 3%N; item (lit "id-2") 5%N;
          item (lit "id-3") 7%N])
  = [item (lit "id-1") 3%N; item (lit "id-3") 7%N].
Proof.
  intros item.
  apply (proj1 (proj2 (proj2 (proj2 (proj2 (proj2 (proj2
           (history_delete_undoes_save (fun l => of_nat (length l))
              (lit "id-0") 9 Fixture.six_questions None cloud
              [item (lit "id-1") 3%N; item (lit "id-2") 5%N;
               item (lit "id-3") 7%N])))))))
           (lit "id-2") [item (lit "id-1") 3%N] (item (lit "id-2") 5%N)
           [item (lit "id-3") 7%N]).
  - reflexivity.
  - reflexivity.
  - constructor; [|constructor]. vm_compute. discriminate.
  - constructor; [|constructor]. vm_compute. discriminate.
Defined.

(** Saving and deleting again, with the cookie written in cloud mode. *)
Example history_round_trip :
  let str := fun l : list HistoryItem => of_nat (length l) in
  let old := [mkItem (lit "id-1") Fixture.six_questions None 3 []] in
  let saved :=
    saveToHistory str (lit "id-2") 7 Fixture.six_questions None cloud old in
  fst saved = mkItem (lit "id-2") Fixture.six_questions None 7 [] :: old
  /\ snd saved = [SetItem (lit "2"); SetCookie (lit "2") 30]
  /\ deleteHistoryItem str (lit "id-2") cloud (fst saved)
     = (old, [SetItem (lit "1"); SetCookie (lit "1") 30]).
Proof. vm_compute. repeat split. Qed.

End DeskFacts.
